(** * sketch-crowdin: the bundled adm-zip container ([src/adm-zip/zipFile.js])

    A shallow embedding of the ZIP container of [zipFile.js]: locating the
    end record, reading the central directory, the entry table operations
    and the two serializers, together with the properties the specification
    states about them.

    Conventions.
    - A Node [Buffer] is a [list byte]; JS numbers that the code uses as
      sizes and offsets are [Z].
    - JS strings are lists of UTF-16 code units ([list N]).
    - [ZipEntry] and [Array] objects live in a store and are handled through
      references, as in JS: the entry list, the entry table and callers
      share the same objects.
    - [ZipEntry], [MainHeader] and the entry header are not part of the
      sources at hand.  What [zipFile.js] needs from them is either a
      parameter ([Collaborators]) or a definition marked
      [Modelled from the spec]. *)

From Stdlib Require Import ZArith List Lia Permutation Sorted.
From Stdlib Require Import Init.Byte Strings.Byte.
From Stdlib Require Strings.String.
From stdpp Require Import gmap list option numbers sorting.

Local Open Scope Z_scope.

(** ** The constant table ([util/constants], the second source file) *)

Module Constants.
(* The local file header *)
Definition LOCHDR : Z := 30.
Definition LOCSIG : Z := 0x04034b50.
Definition LOCVER : Z := 4.
Definition LOCFLG : Z := 6.
Definition LOCHOW : Z := 8.
Definition LOCTIM : Z := 10.
Definition LOCCRC : Z := 14.
Definition LOCSIZ : Z := 18.
Definition LOCLEN : Z := 22.
Definition LOCNAM : Z := 26.
Definition LOCEXT : Z := 28.
(* The central directory file header *)
Definition CENHDR : Z := 46.
Definition CENSIG : Z := 0x02014b50.
Definition CENVEM : Z := 4.
Definition CENVER : Z := 6.
Definition CENFLG : Z := 8.
Definition CENHOW : Z := 10.
Definition CENTIM : Z := 12.
Definition CENCRC : Z := 16.
Definition CENSIZ : Z := 20.
Definition CENLEN : Z := 24.
Definition CENNAM : Z := 28.
Definition CENEXT : Z := 30.
Definition CENCOM : Z := 32.
Definition CENDSK : Z := 34.
Definition CENATT : Z := 36.
Definition CENATX : Z := 38.
Definition CENOFF : Z := 42.
(* The entries in the end of central directory *)
Definition ENDHDR : Z := 22.
Definition ENDSIG : Z := 0x06054b50.
Definition ENDSUB : Z := 8.
Definition ENDTOT : Z := 10.
Definition ENDSIZ : Z := 12.
Definition ENDOFF : Z := 16.
Definition ENDCOM : Z := 20.
End Constants.

(** ** Node buffers *)

Abbreviation bytes := (list byte).

Abbreviation jsstring := (list N).

Module Buffer.

Definition byteZ (b : byte) : Z := Z.of_N (Byte.to_N b).

(** The byte a store of the number [v] into one buffer cell leaves. *)
Definition Zbyte (v : Z) : byte :=
  default x00 (Byte.of_N (Z.to_N (v mod 256))).

Definition len (b : bytes) : Z := Z.of_nat (length b).

(** [b[i]]: [None] is JS [undefined]. *)
Definition get (b : bytes) (i : Z) : option byte :=
  if i <? 0 then None else b !! Z.to_nat i.

(** [b.readUInt16LE(off)], [None] when the read leaves the buffer
    (a [RangeError] in Node). *)
Definition readUInt16LE (b : bytes) (off : Z) : option Z :=
  b0 ← get b off;
  b1 ← get b (off + 1);
  Some (byteZ b0 + 256 * byteZ b1).

Definition readUInt32LE (b : bytes) (off : Z) : option Z :=
  b0 ← get b off;
  b1 ← get b (off + 1);
  b2 ← get b (off + 2);
  b3 ← get b (off + 3);
  Some (byteZ b0 + 256 * byteZ b1 + 65536 * byteZ b2 + 16777216 * byteZ b3).

(** Little-endian layout of [v] on [w] bytes, as [writeUInt16LE] and
    [writeUInt32LE] leave it (the value is taken modulo [2^(8w)]). *)
Fixpoint le (w : nat) (v : Z) : bytes :=
  match w with
  | O => []
  | S w' => Zbyte v :: le w' (v / 256)
  end.

(** An index argument of [slice], clamped as Node does: a negative index
    counts from the end. *)
Definition clamp (b : bytes) (i : Z) : nat :=
  Z.to_nat (if i <? 0 then Z.max 0 (len b + i) else Z.min i (len b)).

(** [b.slice(s, e)] *)
Definition slice (b : bytes) (s e : Z) : bytes :=
  drop (clamp b s) (take (clamp b e) b).

(** [b.slice(s)] *)
Definition slice_from (b : bytes) (s : Z) : bytes :=
  drop (clamp b s) b.

(** [Buffer.alloc(n)] *)
Definition alloc (n : Z) : bytes := replicate (Z.to_nat n) x00.

(** [src.copy(target, targetStart)]: the target afterwards.  As many bytes
    are copied as fit; nothing is copied when [targetStart] is at or past
    the end of the target. *)
Definition copy (src target : bytes) (targetStart : Z) : bytes :=
  let k := Z.to_nat targetStart in
  let n := Nat.min (length src) (length target - k) in
  take k target ++ take n src ++ drop (k + n) target.

(** The first [n] bytes of [pat] repeated; zeros when [pat] is empty.
    This is what [fill] writes into a region of [n] bytes. *)
Fixpoint cycle (fuel : nat) (pat : bytes) (n : nat) : bytes :=
  match fuel with
  | O => []
  | S fuel' =>
      if (n <=? length pat)%nat then take n pat
      else pat ++ cycle fuel' pat (n - length pat)
  end.

Definition pattern (pat : bytes) (n : nat) : bytes :=
  match pat with
  | [] => replicate n x00
  | _ => cycle (S n) pat n
  end.

End Buffer.

(** ** What can be thrown *)

Inductive Errors :=
  | INVALID_FORMAT   (* util/errors, thrown by readMainHeader *)
  | RangeError       (* Node: a read outside a buffer *)
  | TypeError.       (* strict code: reading [arguments.callee] *)

Inductive result (A : Type) :=
  | Ok (a : A)
  | Throw (e : Errors).
Arguments Ok {A} a.
Arguments Throw {A} e.

(** ** Header records *)

Module MainHeader.
Import Constants Buffer.

Record t := {
  diskEntries : Z;      (* number of entries on this disk *)
  totalEntries : Z;
  size : Z;             (* central directory size in bytes *)
  offset : Z;           (* offset of first CEN header *)
  commentLength : Z }.

(** [new MainHeader()] *)
Definition new : t :=
  {| diskEntries := 0; totalEntries := 0; size := 0; offset := 0;
     commentLength := 0 |}.

Definition set_totalEntries (h : t) (v : Z) : t :=
  {| diskEntries := diskEntries h; totalEntries := v; size := size h;
     offset := offset h; commentLength := commentLength h |}.

Definition set_size (h : t) (v : Z) : t :=
  {| diskEntries := diskEntries h; totalEntries := totalEntries h; size := v;
     offset := offset h; commentLength := commentLength h |}.

Definition set_offset (h : t) (v : Z) : t :=
  {| diskEntries := diskEntries h; totalEntries := totalEntries h;
     size := size h; offset := v; commentLength := commentLength h |}.

Definition set_commentLength (h : t) (v : Z) : t :=
  {| diskEntries := diskEntries h; totalEntries := totalEntries h;
     size := size h; offset := offset h; commentLength := v |}.

(** Modelled from the spec: [mainHeaderSize] of the MainHeader component
    (headers/mainHeader is not among the sources), "fixed end-record size
    (+ comment length)" with the end record of 22 bytes (section 6). *)
Definition mainHeaderSize (h : t) : Z := ENDHDR + commentLength h.

(** Modelled from the spec: [loadFromBinary] of the MainHeader component,
    "decode the fixed-size end record at that offset into MainHeader", the
    fields at the offsets of the constant table, little-endian (section 6).
    [None]: a field lies outside the data. *)
Definition loadFromBinary (data : bytes) : option t :=
  de ← readUInt16LE data ENDSUB;
  te ← readUInt16LE data ENDTOT;
  sz ← readUInt32LE data ENDSIZ;
  off ← readUInt32LE data ENDOFF;
  cl ← readUInt16LE data ENDCOM;
  Some {| diskEntries := de; totalEntries := te; size := sz; offset := off;
          commentLength := cl |}.

(** Modelled from the spec: [toBinary] of the MainHeader component, the
    22-byte end record (signature at 0, ENDSUB at 8, ENDTOT at 10, ENDSIZ at
    12, ENDOFF at 16, ENDCOM at 20, the disk numbers at 4..7 left zero)
    followed by room for the comment, which the container copies in at
    offset ENDHDR.  What the room holds before the copy is not said
    anywhere; the zero bytes here are a placeholder, and the statements
    about the output speak of the bytes copied in, not of these. *)
Definition toBinary (h : t) : bytes :=
  le 4 ENDSIG ++ [x00; x00; x00; x00]
  ++ le 2 (diskEntries h) ++ le 2 (totalEntries h)
  ++ le 4 (size h) ++ le 4 (offset h) ++ le 2 (commentLength h)
  ++ alloc (commentLength h).

End MainHeader.

Module EntryHeader.
Import Constants Buffer.

Record t := {
  made : Z;             (* version made by *)
  version : Z;          (* version needed to extract *)
  flags : Z;
  method : Z;
  time : Z;
  crc : Z;
  compressedSize : Z;
  size : Z;
  fileNameLength : Z;
  extraLength : Z;
  commentLength : Z;
  diskStart : Z;
  inAttr : Z;
  attr : Z;
  offset : Z }.        (* LOC header offset *)

Definition new : t :=
  {| made := 0; version := 0; flags := 0; method := 0; time := 0; crc := 0;
     compressedSize := 0; size := 0; fileNameLength := 0; extraLength := 0;
     commentLength := 0; diskStart := 0; inAttr := 0; attr := 0;
     offset := 0 |}.

Definition set_offset (h : t) (v : Z) : t :=
  {| made := made h; version := version h; flags := flags h;
     method := method h; time := time h; crc := crc h;
     compressedSize := compressedSize h; size := size h;
     fileNameLength := fileNameLength h; extraLength := extraLength h;
     commentLength := commentLength h; diskStart := diskStart h;
     inAttr := inAttr h; attr := attr h; offset := v |}.

(** Modelled from the spec: the derived [entryHeaderSize], "fixed header
    size + name + extra + comment lengths" (section 3). *)
Definition entryHeaderSize (h : t) : Z :=
  CENHDR + fileNameLength h + extraLength h + commentLength h.

(** Modelled from the spec: decoding the fixed block of a central directory
    record, the fields at the offsets of the constant table, little-endian.
    [None]: the block is shorter than a field needs. *)
Definition loadFromBinary (data : bytes) : option t :=
  vem ← readUInt16LE data CENVEM;
  ver ← readUInt16LE data CENVER;
  flg ← readUInt16LE data CENFLG;
  how ← readUInt16LE data CENHOW;
  tim ← readUInt32LE data CENTIM;
  cr ← readUInt32LE data CENCRC;
  csz ← readUInt32LE data CENSIZ;
  sz ← readUInt32LE data CENLEN;
  nam ← readUInt16LE data CENNAM;
  ext ← readUInt16LE data CENEXT;
  com ← readUInt16LE data CENCOM;
  dsk ← readUInt16LE data CENDSK;
  att ← readUInt16LE data CENATT;
  atx ← readUInt32LE data CENATX;
  off ← readUInt32LE data CENOFF;
  Some {| made := vem; version := ver; flags := flg; method := how;
          time := tim; crc := cr; compressedSize := csz; size := sz;
          fileNameLength := nam; extraLength := ext; commentLength := com;
          diskStart := dsk; inAttr := att; attr := atx; offset := off |}.

(** Modelled from the spec: [dataHeaderToBinary], the 30-byte local file
    header (signature LOCSIG, then LOCVER, LOCFLG, LOCHOW, LOCTIM, LOCCRC,
    LOCSIZ, LOCLEN, LOCNAM, LOCEXT of the constant table). *)
Definition dataHeaderToBinary (h : t) : bytes :=
  le 4 LOCSIG ++ le 2 (version h) ++ le 2 (flags h) ++ le 2 (method h)
  ++ le 4 (time h) ++ le 4 (crc h) ++ le 4 (compressedSize h)
  ++ le 4 (size h) ++ le 2 (fileNameLength h) ++ le 2 (extraLength h).

(** Modelled from the spec: the 46-byte fixed block of a central directory
    record (signature CENSIG, then the fields at CENVEM .. CENOFF). *)
Definition entryHeaderToBinary (h : t) : bytes :=
  le 4 CENSIG ++ le 2 (made h) ++ le 2 (version h) ++ le 2 (flags h)
  ++ le 2 (method h) ++ le 4 (time h) ++ le 4 (crc h)
  ++ le 4 (compressedSize h) ++ le 4 (size h) ++ le 2 (fileNameLength h)
  ++ le 2 (extraLength h) ++ le 2 (commentLength h) ++ le 2 (diskStart h)
  ++ le 2 (inAttr h) ++ le 4 (attr h) ++ le 4 (offset h).

End EntryHeader.

(** ** Entries *)

(** Modelled from the spec: the state of a [ZipEntry] object (zipEntry.js is
    not among the sources), section 3: its header, the raw name bytes, the
    extra field, the comment and the archive buffer it was created on. *)
Record ZipEntry := {
  header : EntryHeader.t;
  rawEntryName : bytes;
  extra : bytes;
  comment : bytes;
  input : bytes }.

Definition set_header (e : ZipEntry) (h : EntryHeader.t) : ZipEntry :=
  {| header := h; rawEntryName := rawEntryName e; extra := extra e;
     comment := comment e; input := input e |}.

(** Modelled from the spec: [new ZipEntry(input)]. *)
Definition new_ZipEntry (inp : bytes) : ZipEntry :=
  {| header := EntryHeader.new; rawEntryName := []; extra := [];
     comment := []; input := inp |}.

#[global] Instance ZipEntry_inhabited : Inhabited ZipEntry :=
  populate (new_ZipEntry []).

(** Modelled from the spec: [packHeader], a central directory record,
    "46 fixed + name + extra + comment". *)
Definition packHeader (e : ZipEntry) : bytes :=
  EntryHeader.entryHeaderToBinary (header e)
  ++ rawEntryName e ++ extra e ++ comment e.

(** What [zipFile.js] uses and neither it nor the sources at hand define:
    Node's string conversions and the getters and capabilities of
    [ZipEntry].  The development is parametric in them. *)
Class Collaborators := {
  (** [buffer.toString()] *)
  toString : bytes → jsstring;
  (** the bytes a string stands for when it fills a buffer *)
  fromString : jsstring → bytes;
  (** [string.toLowerCase()] *)
  toLowerCase : jsstring → jsstring;
  (** [entry.isDirectory] *)
  isDirectory : ZipEntry → bool;
  (** [entry.getCompressedData()]: the entry afterwards and the payload *)
  getCompressedData : ZipEntry → ZipEntry * bytes;
  (** [entry.getCompressedDataAsync(callback)]: the entry afterwards and the
      payload handed to the callback *)
  getCompressedDataAsync : ZipEntry → ZipEntry * bytes }.

(** [entry.entryName], the decoded raw name. *)
Definition entryName `{Collaborators} (e : ZipEntry) : jsstring :=
  toString (rawEntryName e).

(** ** The container ([zipFile.js]) *)

(** References to [ZipEntry] objects and to [Array] objects. *)
Abbreviation eref := nat.
Abbreviation aref := nat.

(** The variables the closure of [zipFile.js] holds ([entryList],
    [entryTable], [_comment], [inBuffer], [mainHeader]) and the store of
    the objects they refer to.  [entryList] holds a reference to an array;
    an array holds references to entries; the table maps a name to a
    reference to an entry.

    [entryTable] is a plain JS object.  The map kept here holds, for a
    name, the entry that was assigned under it and not deleted since.  What
    the object gives for a name besides (the members it inherits from
    [Object.prototype], which are no entries) is not part of the map, and
    for the one name that JS treats apart, [proto_key], an assignment sets
    the prototype of the object and [delete] does not take it back; the
    statements about deleting say where they leave this name out. *)
Record ZipFile := {
  objects : gmap eref ZipEntry;
  arrays : gmap aref (list eref);
  nextRef : nat;
  entryList : aref;
  entryTable : gmap jsstring eref;
  _comment : bytes;
  inBuffer : bytes;
  mainHeader : MainHeader.t }.

Definition with_objects (z : ZipFile) (v : gmap eref ZipEntry) : ZipFile :=
  {| objects := v; arrays := arrays z; nextRef := nextRef z;
     entryList := entryList z; entryTable := entryTable z;
     _comment := _comment z; inBuffer := inBuffer z;
     mainHeader := mainHeader z |}.

Definition with_arrays (z : ZipFile) (v : gmap aref (list eref)) : ZipFile :=
  {| objects := objects z; arrays := v; nextRef := nextRef z;
     entryList := entryList z; entryTable := entryTable z;
     _comment := _comment z; inBuffer := inBuffer z;
     mainHeader := mainHeader z |}.

Definition with_nextRef (z : ZipFile) (v : nat) : ZipFile :=
  {| objects := objects z; arrays := arrays z; nextRef := v;
     entryList := entryList z; entryTable := entryTable z;
     _comment := _comment z; inBuffer := inBuffer z;
     mainHeader := mainHeader z |}.

Definition with_entryList (z : ZipFile) (v : aref) : ZipFile :=
  {| objects := objects z; arrays := arrays z; nextRef := nextRef z;
     entryList := v; entryTable := entryTable z;
     _comment := _comment z; inBuffer := inBuffer z;
     mainHeader := mainHeader z |}.

Definition with_entryTable (z : ZipFile) (v : gmap jsstring eref) : ZipFile :=
  {| objects := objects z; arrays := arrays z; nextRef := nextRef z;
     entryList := entryList z; entryTable := v;
     _comment := _comment z; inBuffer := inBuffer z;
     mainHeader := mainHeader z |}.

Definition with_comment (z : ZipFile) (v : bytes) : ZipFile :=
  {| objects := objects z; arrays := arrays z; nextRef := nextRef z;
     entryList := entryList z; entryTable := entryTable z;
     _comment := v; inBuffer := inBuffer z;
     mainHeader := mainHeader z |}.

Definition with_mainHeader (z : ZipFile) (v : MainHeader.t) : ZipFile :=
  {| objects := objects z; arrays := arrays z; nextRef := nextRef z;
     entryList := entryList z; entryTable := entryTable z;
     _comment := _comment z; inBuffer := inBuffer z;
     mainHeader := v |}.

(** The array object a reference designates, and its update in place. *)
Definition array (z : ZipFile) (a : aref) : list eref := arrays z !!! a.

Definition set_array (z : ZipFile) (a : aref) (l : list eref) : ZipFile :=
  with_arrays z (<[a := l]> (arrays z)).

(** The entry object a reference designates, and its update in place. *)
Definition object (z : ZipFile) (r : eref) : ZipEntry := objects z !!! r.

Definition set_object (z : ZipFile) (r : eref) (e : ZipEntry) : ZipFile :=
  with_objects z (<[r := e]> (objects z)).

(** [get entries()]: the entry list as it stands. *)
Definition entries (z : ZipFile) : list eref := array z (entryList z).

(** A caller creating an entry object: the reference it gets. *)
Definition new_object (e : ZipEntry) (z : ZipFile) : eref * ZipFile :=
  (nextRef z,
   with_nextRef (set_object z (nextRef z) e) (S (nextRef z))).

Section Container.
Context `{Collaborators}.
Import Constants.

(** The state the first lines of the constructor build
    ([entryList = []], [entryTable = {}], [_comment = Buffer.alloc(0)],
    [mainHeader = new MainHeader()], [inBuffer = input]). *)
Definition initial (inp : bytes) : ZipFile :=
  {| objects := ∅; arrays := {[ O := [] ]}; nextRef := 1%nat;
     entryList := O; entryTable := ∅; _comment := Buffer.alloc 0;
     inBuffer := inp; mainHeader := MainHeader.new |}.

(** The body of the loop of [readEntries], run [n] more times from the
    cursor [index]; [entryList[i] = entry] fills the array from the left,
    one cell per round, so the array after [i] rounds is kept as its
    first [i] cells. *)
Fixpoint readEntries_loop (n : nat) (index : Z) (z : ZipFile)
  : result ZipFile :=
  match n with
  | O => Ok z
  | S n' =>
      let tmp := index in
      let entry := new_ZipEntry (inBuffer z) in
      match EntryHeader.loadFromBinary
              (Buffer.slice (inBuffer z) tmp (tmp + CENHDR)) with
      | None => Throw RangeError
      | Some h =>
          let tmp := tmp + CENHDR in
          let name :=
            Buffer.slice (inBuffer z) tmp (tmp + EntryHeader.fileNameLength h) in
          let tmp := tmp + EntryHeader.fileNameLength h in
          let '(ex, tmp) :=
            if EntryHeader.extraLength h =? 0 then (extra entry, tmp)
            else (Buffer.slice (inBuffer z) tmp (tmp + EntryHeader.extraLength h),
                  tmp + EntryHeader.extraLength h) in
          let com :=
            if EntryHeader.commentLength h =? 0 then comment entry
            else Buffer.slice (inBuffer z) tmp
                   (tmp + EntryHeader.commentLength h) in
          let entry :=
            {| header := h; rawEntryName := name; extra := ex;
               comment := com; input := input entry |} in
          let index := index + EntryHeader.entryHeaderSize h in
          let '(r, z) := new_object entry z in
          let z := set_array z (entryList z) (entries z ++ [r]) in
          let z := with_entryTable z (<[entryName entry := r]> (entryTable z)) in
          readEntries_loop n' index z
      end
  end.

Definition readEntries (z : ZipFile) : result ZipFile :=
  let z := with_entryTable z ∅ in
  (* entryList = new Array(mainHeader.diskEntries) *)
  let a := nextRef z in
  let z := with_entryList (with_nextRef (set_array z a []) (S a)) a in
  readEntries_loop (Z.to_nat (MainHeader.diskEntries (mainHeader z)))
    (MainHeader.offset (mainHeader z)) z.

(** One test of the scan of [readMainHeader] at offset [i]:
    [inBuffer[i] === 0x50 && inBuffer.readUInt32LE(i) === ENDSIG]. *)
Definition sig_at (b : bytes) (i : Z) : bool :=
  match Buffer.get b i with
  | Some c =>
      if Buffer.byteZ c =? 0x50 then
        match Buffer.readUInt32LE b i with
        | Some v => v =? ENDSIG
        | None => false
        end
      else false
  | None => false
  end.

(** The loop [for (i; i >= n; i--)] entered with [i = n + k]: the value of
    [endOffset] after it. *)
Fixpoint scan (b : bytes) (n : Z) (k : nat) : Z :=
  let i := n + Z.of_nat k in
  if sig_at b i then i
  else match k with
       | O => -1
       | S k' => scan b n k'
       end.

Definition findEndOffset (b : bytes) : Z :=
  let i := Buffer.len b - ENDHDR in
  let n := Z.max 0 (i - 0xFFFF) in
  if i <? n then -1 else scan b n (Z.to_nat (i - n)).

(** [readMainHeader] from [mainHeader.loadFromBinary(...)] on, once
    [endOffset] is known. *)
Definition load_end_record (endOffset : Z) (z : ZipFile) : result ZipFile :=
  match MainHeader.loadFromBinary
          (Buffer.slice (inBuffer z) endOffset (endOffset + ENDHDR)) with
  | None => Throw RangeError
  | Some mh =>
      let z := with_mainHeader z mh in
      let z :=
        if MainHeader.commentLength mh =? 0 then z
        else with_comment z
               (Buffer.slice_from (inBuffer z) (endOffset + ENDHDR)) in
      readEntries z
  end.

(** [~x] of JS: the operand is taken as a 32-bit integer ([ToInt32]),
    whose bits are inverted. *)
Definition ToInt32 (x : Z) : Z := (x + 2147483648) mod 4294967296 - 2147483648.

Definition bitnot (x : Z) : Z := Z.lnot (ToInt32 x).

Definition readMainHeader (z : ZipFile) : result ZipFile :=
  let endOffset := findEndOffset (inBuffer z) in
  if bitnot endOffset =? 0 then Throw INVALID_FORMAT   (* if (!~endOffset) *)
  else load_end_record endOffset z.

(** The exported function: [ZipFile(input)]. *)
Definition open (inp : bytes) : result ZipFile :=
  readMainHeader (initial inp).

End Container.

(** ** Arrays and strings of JS, as far as [zipFile.js] uses them *)

(** [a < b] on JS strings: lexicographic on code units. *)
Fixpoint str_ltb (a b : jsstring) : bool :=
  match a, b with
  | _, [] => false
  | [], _ :: _ => true
  | x :: a', y :: b' =>
      if (x <? y)%N then true
      else if (y <? x)%N then false
      else str_ltb a' b'
  end.

(** [array.indexOf(x)], where [x] is an object or [undefined] ([None]);
    an array of entries holds no [undefined]. *)
Fixpoint index_from (l : list eref) (r : eref) (i : Z) : Z :=
  match l with
  | [] => -1
  | x :: l' => if (x =? r)%nat then i else index_from l' r (i + 1)
  end.

Definition indexOf (l : list eref) (x : option eref) : Z :=
  match x with
  | None => -1
  | Some r => index_from l r 0
  end.

(** [array.splice(start, 1)]: the array afterwards.  A negative [start]
    counts from the end. *)
Definition splice1 (l : list eref) (start : Z) : list eref :=
  let n := Z.of_nat (length l) in
  let s := Z.to_nat (if start <? 0 then Z.max (n + start) 0
                     else Z.min start n) in
  take s l ++ drop (S s) l.

(** [array.sort(cmp)]: the stable sort by [cmp] (ECMAScript 2019 and
    later), by insertion from the right. *)
Fixpoint Array_insert (cmp : eref → eref → Z) (x : eref) (l : list eref)
  : list eref :=
  match l with
  | [] => [x]
  | y :: l' => if cmp x y <=? 0 then x :: l else y :: Array_insert cmp x l'
  end.

Definition Array_sort (cmp : eref → eref → Z) (l : list eref) : list eref :=
  foldr (Array_insert cmp) [] l.

(** [array.pop()] on an array that is not empty: the element and the array
    afterwards; [None] on an empty array. *)
Definition Array_pop (l : list eref) : option (eref * list eref) :=
  match reverse l with
  | [] => None
  | r :: rest => Some (r, reverse rest)
  end.

(** [buf.fill(str, offset)]: the buffer afterwards. *)
Definition fill_string `{Collaborators} (buf : bytes) (s : jsstring)
    (off : Z) : bytes :=
  let k := Z.to_nat off in
  take k buf ++ Buffer.pattern (fromString s) (length buf - k).

(** [Buffer.alloc(size, str)] *)
Definition alloc_string `{Collaborators} (n : Z) (s : jsstring) : bytes :=
  Buffer.pattern (fromString s) (Z.to_nat n).

Definition strlen (s : jsstring) : Z := Z.of_nat (length s).

(** ** Entry table operations *)

(** The name ["__proto__"], as a JS string. *)
Definition proto_key : jsstring :=
  [95; 95; 112; 114; 111; 116; 111; 95; 95]%N.

Section Table.
Context `{Collaborators}.

(** [get comment()] *)
Definition get_comment (z : ZipFile) : jsstring := toString (_comment z).

(** [set comment(val)], for a Buffer [val] (it is copied from with
    [_comment.copy] when the archive is serialized). *)
Definition set_comment (val : bytes) (z : ZipFile) : ZipFile :=
  let z := with_mainHeader z
             (MainHeader.set_commentLength (mainHeader z) (Buffer.len val)) in
  with_comment z val.

(** [getEntry(entryName)], as far as it gives an entry: the entry assigned
    under the name.  [None] stands for [null] and for what the object
    inherits under the name, which is no entry. *)
Definition getEntry (name : jsstring) (z : ZipFile) : option eref :=
  entryTable z !! name.

Definition setEntry (entry : eref) (z : ZipFile) : ZipFile :=
  let z := set_array z (entryList z) (entries z ++ [entry]) in
  let z := with_entryTable z
             (<[entryName (object z entry) := entry]> (entryTable z)) in
  with_mainHeader z
    (MainHeader.set_totalEntries (mainHeader z)
       (Z.of_nat (length (entries z)))).

Definition getEntryChildren (entry : eref) (z : ZipFile) : list eref :=
  if isDirectory (object z entry) then
    let name := entryName (object z entry) in
    let len := length name in
    filter (λ zipEntry, take len (entryName (object z zipEntry)) = name)
      (entries z)
  else [].

(** The last three statements of [deleteEntry], [entry] being what
    [entryTable[entryName]] gave at its start ([None]: no entry).  The
    [delete] is that of the map; for the name [proto_key] the program
    leaves what an assignment under this name has set. *)
Definition remove_entry (name : jsstring) (entry : option eref)
    (z : ZipFile) : ZipFile :=
  let z := set_array z (entryList z)
             (splice1 (entries z) (indexOf (entries z) entry)) in
  let z := with_entryTable z (delete name (entryTable z)) in
  with_mainHeader z
    (MainHeader.set_totalEntries (mainHeader z)
       (Z.of_nat (length (entries z)))).

(** [deleteEntry(entryName)].  The function calls itself for the children
    of a directory; [fuel] bounds the depth of these calls, and [None] says
    the bound was reached. *)
Fixpoint deleteEntry_rec (fuel : nat) (name : jsstring) (z : ZipFile)
  : option ZipFile :=
  match fuel with
  | O => None
  | S fuel' =>
      let entry := entryTable z !! name in
      z ← match entry with
          | Some r =>
              if isDirectory (object z r) then
                foldl
                  (λ acc child,
                     z' ← acc;
                     if decide (entryName (object z' child) ≠ name)
                     then deleteEntry_rec fuel' (entryName (object z' child)) z'
                     else Some z')
                  (Some z) (getEntryChildren r z)
              else Some z
          | None => Some z
          end;
      Some (remove_entry name entry z)
  end.

(** The depth of the calls never exceeds the number of entries (see
    [deleteEntry_rec_total]), hence this much fuel. *)
Definition deleteEntry (name : jsstring) (z : ZipFile) : option ZipFile :=
  deleteEntry_rec (S (length (entries z))) name z.

End Table.

(** ** Serialization *)

(** The local variables of [compressToBuffer] and [toAsyncBuffer]. *)
Record Locals := {
  totalSize : Z;
  dataBlock : list bytes;
  entryHeaders : list bytes;
  dindex : Z }.

(** What a run of [toAsyncBuffer] does to its environment, in order. *)
Inductive Event :=
  | ItemStart (name : jsstring)     (* onItemStart(name) *)
  | Compressing (entry : eref)      (* entry.getCompressedDataAsync(...) *)
  | ItemEnd (name : jsstring)       (* onItemEnd(name) *)
  | Success (outBuffer : bytes).    (* onSuccess(outBuffer) *)

Section Serialize.
Context `{Collaborators}.
Import Constants.

Definition lower_name (z : ZipFile) (r : eref) : jsstring :=
  toLowerCase (entryName (object z r)).

(** The comparison function of [compressToBuffer]. *)
Definition compare_asc (z : ZipFile) (a b : eref) : Z :=
  let nameA := lower_name z a in
  let nameB := lower_name z b in
  if str_ltb nameA nameB then -1
  else if str_ltb nameB nameA then 1
  else 0.

(** The comparison function of [toAsyncBuffer]. *)
Definition compare_desc (z : ZipFile) (a b : eref) : Z :=
  let nameA := lower_name z a in
  let nameB := lower_name z b in
  if str_ltb nameB nameA then -1
  else if str_ltb nameA nameB then 1
  else 0.

(** [if (entryList.length > 1) entryList.sort(cmp)] *)
Definition sort_entryList (cmp : ZipFile → eref → eref → Z) (z : ZipFile)
  : ZipFile :=
  if 1 <? Z.of_nat (length (entries z))
  then set_array z (entryList z) (Array_sort (cmp z) (entries z))
  else z.

Definition locals0 : Locals :=
  {| totalSize := 0; dataBlock := []; entryHeaders := []; dindex := 0 |}.

(** [mainHeader.size = 0; mainHeader.offset = 0] *)
Definition reset_mainHeader (z : ZipFile) : ZipFile :=
  with_mainHeader z
    (MainHeader.set_offset (MainHeader.set_size (mainHeader z) 0) 0).

(** The post-header block of [compressToBuffer]. *)
Definition postHeader_sync (entry : ZipEntry) : bytes :=
  let entryNameLen := Buffer.len (rawEntryName entry) in
  let extra := toString (extra entry) in
  let postHeader := Buffer.alloc (entryNameLen + strlen extra) in
  let postHeader := Buffer.copy (rawEntryName entry) postHeader 0 in
  fill_string postHeader extra entryNameLen.

(** The post-header block of [toAsyncBuffer], from [name], the entry name
    followed by the text of the extra field. *)
Definition postHeader_async (name : jsstring) : bytes :=
  alloc_string (strlen name) name.

(** The part both serializers share word for word, from
    [entry.header.offset = dindex] to [totalSize += ...]: the blocks of the
    entry [r] are appended, given its payload and post-header. *)
Definition append_entry (r : eref) (compressedData : bytes)
    (postHeader : ZipEntry → bytes) (s : ZipFile * Locals)
  : ZipFile * Locals :=
  let '(z, v) := s in
  let z := set_object z r
             (set_header (object z r)
                (EntryHeader.set_offset (header (object z r)) (dindex v))) in
  let entry := object z r in
  let dataHeader := EntryHeader.dataHeaderToBinary (header entry) in
  let postHeader := postHeader entry in
  let dataLength :=
    Buffer.len dataHeader + Buffer.len postHeader + Buffer.len compressedData in
  let dindex' := dindex v + dataLength in
  let dataBlock' := dataBlock v ++ [dataHeader; postHeader; compressedData] in
  let entryHeader := packHeader entry in
  let entryHeaders' := entryHeaders v ++ [entryHeader] in
  let z := with_mainHeader z
             (MainHeader.set_size (mainHeader z)
                (MainHeader.size (mainHeader z) + Buffer.len entryHeader)) in
  (z, {| totalSize := totalSize v + (dataLength + Buffer.len entryHeader);
         dataBlock := dataBlock'; entryHeaders := entryHeaders';
         dindex := dindex' |}).

(** The body of [entryList.forEach] in [compressToBuffer]. *)
Definition forEach_entry (s : ZipFile * Locals) (r : eref)
  : ZipFile * Locals :=
  let '(z, v) := s in
  let '(e, compressedData) := getCompressedData (object z r) in
  let z := set_object z r e in
  append_entry r compressedData postHeader_sync (z, v).

(** [content.copy(outBuffer, dindex); dindex += content.length] *)
Definition write_block (s : bytes * Z) (content : bytes) : bytes * Z :=
  let '(outBuffer, dindex) := s in
  (Buffer.copy content outBuffer dindex, dindex + Buffer.len content).

(** The closing part of both serializers, from
    [totalSize += mainHeader.mainHeaderSize] to the finished [outBuffer]. *)
Definition finalize (s : ZipFile * Locals) : ZipFile * bytes :=
  let '(z, v) := s in
  let totalSize := totalSize v + MainHeader.mainHeaderSize (mainHeader z) in
  let z := with_mainHeader z (MainHeader.set_offset (mainHeader z) (dindex v)) in
  let dindex := 0 in
  let outBuffer := Buffer.alloc totalSize in
  let '(outBuffer, dindex) :=
    foldl write_block (outBuffer, dindex) (dataBlock v) in
  let '(outBuffer, dindex) :=
    foldl write_block (outBuffer, dindex) (entryHeaders v) in
  let mh := MainHeader.toBinary (mainHeader z) in
  let mh := Buffer.copy (_comment z) mh ENDHDR in
  (z, Buffer.copy mh outBuffer dindex).

(** [compressToBuffer()]: the container afterwards and the buffer returned. *)
Definition compressToBuffer (z : ZipFile) : ZipFile * bytes :=
  let z := sort_entryList compare_asc z in
  let z := reset_mainHeader z in
  finalize (foldl forEach_entry (z, locals0) (entries z)).

(** [arguments.callee], read in the body of a function.  [zipFile.js] is
    a module (it has [import] and [export] declarations), so all of its
    code is strict code, and in strict code reading this property throws a
    TypeError. *)
Definition arguments_callee : result unit := Throw TypeError.

(** The inner function [compress] of [toAsyncBuffer], called on the array
    [entryList] (a reference: the parameter of [compress], not the variable
    of the closure).  Its first statement reads [arguments.callee].  In the
    statements behind it every [getCompressedDataAsync] is taken to call
    back once, the run going on from there.  The result is the state left,
    the calls made and the exception that ended the run, if any; [fuel]
    bounds the number of calls of [compress], and [None] says the bound was
    reached. *)
Fixpoint compress (onItemStart onItemEnd : bool) (fuel : nat)
    (entryList : aref) (s : ZipFile * Locals * list Event)
  : option (ZipFile * Locals * list Event * option Errors) :=
  match fuel with
  | O => None
  | S fuel' =>
      let '(z, v, tr) := s in
      match arguments_callee with          (* var self = arguments.callee *)
      | Throw e => Some (z, v, tr, Some e)
      | Ok _ =>
          match Array_pop (array z entryList) with
          | None => Some (z, v, tr, None)  (* entryList.length is 0 *)
          | Some (r, rest) =>              (* var entry = entryList.pop() *)
              let z := set_array z entryList rest in
              let name :=
                entryName (object z r) ++ toString (extra (object z r)) in
              let tr := if onItemStart then tr ++ [ItemStart name] else tr in
              let tr := tr ++ [Compressing r] in
              let '(e, compressedData) :=
                getCompressedDataAsync (object z r) in
              let z := set_object z r e in
              let tr := if onItemEnd then tr ++ [ItemEnd name] else tr in
              let '(z, v) :=
                append_entry r compressedData (λ _, postHeader_async name)
                  (z, v) in
              if 0 <? Z.of_nat (length (array z entryList))
              then compress onItemStart onItemEnd fuel' entryList (z, v, tr)
              else
                let '(z, outBuffer) := finalize (z, v) in
                Some (z, v, tr ++ [Success outBuffer], None)
          end
      end
  end.

(** [toAsyncBuffer(onSuccess, onFail, onItemStart, onItemEnd)]: the
    container afterwards, the calls made and the exception the call ends
    with, if any; [onItemStart] and [onItemEnd] say whether these callbacks
    were given.  [compress] is called once the entry list is sorted and
    [mainHeader.size] and [mainHeader.offset] are reset. *)
Definition toAsyncBuffer (onItemStart onItemEnd : bool) (z : ZipFile)
  : option (ZipFile * list Event * option Errors) :=
  let z := sort_entryList compare_desc z in
  let z := reset_mainHeader z in
  '(z, _, tr, e) ← compress onItemStart onItemEnd (S (length (entries z)))
                     (entryList z) (z, locals0, []);
  Some (z, tr, e).

End Serialize.

(** ** A concrete environment and concrete archives

    The collaborators as they behave on ASCII names and on entries of an
    archive that were not changed; the concrete inputs below stay within
    that range. *)

Module Ascii.
Import Constants.

(** UTF-8 decoding of ASCII text: one code unit per byte. *)
Definition toString (b : bytes) : jsstring := map Byte.to_N b.

(** UTF-8 encoding of ASCII text. *)
Definition fromString (s : jsstring) : bytes :=
  map (λ c, Buffer.Zbyte (Z.of_N c)) s.

Definition toLowerCase (s : jsstring) : jsstring :=
  map (λ c, if ((65 <=? c) && (c <=? 90))%N then (c + 32)%N else c) s.

(** Modelled from the spec: [isDirectory], "derived from a trailing path
    separator in the name" (section 3). *)
Definition isDirectory (e : ZipEntry) : bool :=
  match reverse (rawEntryName e) with
  | c :: _ => Buffer.byteZ c =? 0x2f
  | [] => false
  end.

(** Modelled from the spec: the payload of an entry read from an archive,
    materialized from the archive buffer (section 3): the bytes behind the
    local file header at [header.offset], which is 30 bytes, the name and
    the extra field as that header gives their lengths (section 6).  The
    entry stays as it is. *)
Definition getCompressedData (e : ZipEntry) : ZipEntry * bytes :=
  let loc := EntryHeader.offset (header e) in
  match Buffer.readUInt16LE (input e) (loc + LOCNAM),
        Buffer.readUInt16LE (input e) (loc + LOCEXT) with
  | Some nam, Some ext =>
      let start := loc + LOCHDR + nam + ext in
      (e, Buffer.slice (input e) start
            (start + EntryHeader.compressedSize (header e)))
  | _, _ => (e, [])
  end.

#[global] Instance node : Collaborators :=
  Build_Collaborators toString fromString toLowerCase isDirectory
    getCompressedData getCompressedData.

(** A string literal as a JS string and as bytes. *)
Definition js (s : String.string) : jsstring :=
  map Byte.to_N (String.list_byte_of_string s).

Definition raw (s : String.string) : bytes := String.list_byte_of_string s.

Import String.StringSyntax.
Local Open Scope string_scope.

(** An entry object as a caller builds it: a name and nothing else. *)
Definition named (s : String.string) : ZipEntry :=
  {| header :=
       {| EntryHeader.made := 0; EntryHeader.version := 0;
          EntryHeader.flags := 0; EntryHeader.method := 0;
          EntryHeader.time := 0; EntryHeader.crc := 0;
          EntryHeader.compressedSize := 0; EntryHeader.size := 0;
          EntryHeader.fileNameLength := Buffer.len (raw s);
          EntryHeader.extraLength := 0; EntryHeader.commentLength := 0;
          EntryHeader.diskStart := 0; EntryHeader.inAttr := 0;
          EntryHeader.attr := 0; EntryHeader.offset := 0 |};
     rawEntryName := raw s; extra := []; comment := []; input := [] |}.

(** The archive with no entry: the end record alone. *)
Definition empty_zip : bytes :=
  [x50; x4b; x05; x06; x00; x00; x00; x00; x00; x00; x00; x00; x00; x00;
   x00; x00; x00; x00; x00; x00; x00; x00].

(** An archive of three stored entries, "b.txt" (hello), "A/" and "a/c"
    (hi), as the zipfile module of Python writes it. *)
Definition sample_zip : bytes :=
  [x50; x4b; x03; x04; x14; x00; x00; x00; x00; x00; x00; x00; x21; x50;
   x86; xa6; x10; x36; x05; x00; x00; x00; x05; x00; x00; x00; x05; x00;
   x00; x00; x62; x2e; x74; x78; x74; x68; x65; x6c; x6c; x6f; x50; x4b;
   x03; x04; x14; x00; x00; x00; x00; x00; x00; x00; x21; x50; x00; x00;
   x00; x00; x00; x00; x00; x00; x00; x00; x00; x00; x02; x00; x00; x00;
   x41; x2f; x50; x4b; x03; x04; x14; x00; x00; x00; x00; x00; x00; x00;
   x21; x50; xac; x2a; x93; xd8; x02; x00; x00; x00; x02; x00; x00; x00;
   x03; x00; x00; x00; x61; x2f; x63; x68; x69; x50; x4b; x01; x02; x14;
   x00; x14; x00; x00; x00; x00; x00; x00; x00; x21; x50; x86; xa6; x10;
   x36; x05; x00; x00; x00; x05; x00; x00; x00; x05; x00; x00; x00; x00;
   x00; x00; x00; x00; x00; x00; x00; x80; x01; x00; x00; x00; x00; x62;
   x2e; x74; x78; x74; x50; x4b; x01; x02; x14; x00; x14; x00; x00; x00;
   x00; x00; x00; x00; x21; x50; x00; x00; x00; x00; x00; x00; x00; x00;
   x00; x00; x00; x00; x02; x00; x00; x00; x00; x00; x00; x00; x00; x00;
   x00; x00; x80; x01; x28; x00; x00; x00; x41; x2f; x50; x4b; x01; x02;
   x14; x00; x14; x00; x00; x00; x00; x00; x00; x00; x21; x50; xac; x2a;
   x93; xd8; x02; x00; x00; x00; x02; x00; x00; x00; x03; x00; x00; x00;
   x00; x00; x00; x00; x00; x00; x00; x00; x80; x01; x48; x00; x00; x00;
   x61; x2f; x63; x50; x4b; x05; x06; x00; x00; x00; x00; x03; x00; x03;
   x00; x94; x00; x00; x00; x6b; x00; x00; x00; x00; x00].

(** The container a caller gets from the empty archive. *)
Definition empty_container : ZipFile :=
  match open empty_zip with
  | Ok z => z
  | Throw _ => initial empty_zip
  end.

(** The container a caller gets from [sample_zip]. *)
Definition sample : ZipFile :=
  match open sample_zip with
  | Ok z => z
  | Throw _ => initial sample_zip
  end.

(** [var e = new ZipEntry(); e.entryName = s; zip.setEntry(e)] *)
Definition add (s : String.string) (z : ZipFile) : ZipFile :=
  let '(r, z) := new_object (named s) z in
  setEntry r z.

(** Four entries added in this order: a directory, a directory in it, a
    file in that one, and an entry elsewhere. *)
Definition nested : ZipFile :=
  add "zzz" (add "dir/sub/x" (add "dir/sub/" (add "dir/" empty_container))).

(** A directory with two files in it and an entry elsewhere. *)
Definition flat : ZipFile :=
  add "zzz" (add "dir/b" (add "dir/a" (add "dir/" empty_container))).

(** An archive with no entry whose end record says [commentLength] 2 and
    is followed by the five bytes of "hello". *)
Definition noted_zip : bytes :=
  [x50; x4b; x05; x06; x00; x00; x00; x00; x00; x00; x00; x00; x00; x00;
   x00; x00; x00; x00; x00; x00; x02; x00] ++ raw "hello".

Definition noted : ZipFile :=
  match open noted_zip with
  | Ok z => z
  | Throw _ => initial noted_zip
  end.


(** Two entries, "b" then "a". *)
Definition two : ZipFile := add "a" (add "b" empty_container).

(** [two] with a fresh entry object named "b" that is not yet in the
    container. *)
Definition two_fresh : ZipFile := snd (new_object (named "b") two).

(** [two] after [deleteEntry("zz")], with a fresh entry object named "b"
    that is not yet in the container. *)
Definition shrunk : ZipFile :=
  match deleteEntry (js "zz") two with
  | Some z => snd (new_object (named "b") z)
  | None => two
  end.

(** A large archive of one stored entry "a" of 101010225 zero bytes, whose
    local header carries 16 bytes of padding as its extra field and whose
    comment is 16 zero bytes: the local header with the name and the
    padding, the central directory record, and the end record with the
    comment.  The central directory starts at 0x06054b60. *)
Definition big_local : bytes :=
  [x50; x4b; x03; x04; x14; x00; x00; x00; x00; x00; x00; x00; x21; x50;
   x20; x5e; x01; x13; x31; x4b; x05; x06; x31; x4b; x05; x06; x01; x00;
   x10; x00; x61; x00; x00; x00; x00; x00; x00; x00; x00; x00; x00; x00;
   x00; x00; x00; x00; x00].

Definition big_central : bytes :=
  [x50; x4b; x01; x02; x14; x00; x14; x00; x00; x00; x00; x00; x00; x00;
   x21; x50; x20; x5e; x01; x13; x31; x4b; x05; x06; x31; x4b; x05; x06;
   x01; x00; x00; x00; x00; x00; x00; x00; x00; x00; x00; x00; x80; x01;
   x00; x00; x00; x00; x61].

Definition big_end : bytes :=
  [x50; x4b; x05; x06; x00; x00; x00; x00; x01; x00; x01; x00; x2f; x00;
   x00; x00; x60; x4b; x05; x06; x10; x00; x00; x00; x00; x00; x00; x00;
   x00; x00; x00; x00; x00; x00; x00; x00; x00; x00].

(** The archive with the payload [payload]. *)
Definition big_with (payload : bytes) : bytes :=
  big_local ++ payload ++ big_central ++ big_end.

Definition big_payload : bytes := Buffer.alloc 101010225.

Definition big_zip : bytes := big_with big_payload.

(** The entry of [big_zip] as its central directory record gives it. *)
Definition big_entry : ZipEntry :=
  {| header :=
       {| EntryHeader.made := 20; EntryHeader.version := 20;
          EntryHeader.flags := 0; EntryHeader.method := 0;
          EntryHeader.time := 0x50210000; EntryHeader.crc := 0x13015e20;
          EntryHeader.compressedSize := 101010225;
          EntryHeader.size := 101010225;
          EntryHeader.fileNameLength := 1;
          EntryHeader.extraLength := 0; EntryHeader.commentLength := 0;
          EntryHeader.diskStart := 0; EntryHeader.inAttr := 0;
          EntryHeader.attr := 0x01800000; EntryHeader.offset := 0 |};
     rawEntryName := raw "a"; extra := []; comment := []; input := [] |}.

End Ascii.

(** ** Vocabulary of the statements *)

Section Vocabulary.
Context `{Collaborators}.
Import Constants.

(** The signature [ENDSIG] stands at offset [i], little-endian. *)
Definition has_ENDSIG (b : bytes) (i : Z) : Prop :=
  Buffer.readUInt32LE b i = Some ENDSIG.

(** The offsets the scan of [readMainHeader] visits. *)
Definition in_window (b : bytes) (i : Z) : Prop :=
  Z.max 0 (Buffer.len b - ENDHDR - 0xFFFF) <= i <= Buffer.len b - ENDHDR.

End Vocabulary.

(** Every key of the entry table is the name of the entry it is bound to
    (what [readEntries] and [setEntry] establish). *)
Definition table_names `{Collaborators} (z : ZipFile) : Prop :=
  map_Forall (λ k r, entryName (object z r) = k) (entryTable z).

(** [s] has [name] as a prefix and is longer: the test of
    [getEntryChildren] together with [child.entryName !== entryName]. *)
Definition extends (name s : jsstring) : Prop :=
  take (length name) s = name ∧ s ≠ name.


#[global] Instance extends_dec (name s : jsstring) : Decision (extends name s).
Proof. unfold extends. apply _. Defined.

(** What a call of [deleteEntry] may change: it removes elements of the
    entry list and keys of the table, and touches no entry object. *)
Definition shrinks (z z' : ZipFile) : Prop :=
  objects z' = objects z ∧ entryList z' = entryList z
  ∧ entries z' `sublist_of` entries z ∧ entryTable z' ⊆ entryTable z.

(** The number of elements of the entry list whose name extends [name]:
    it bounds the depth of the calls of [deleteEntry]. *)
Definition below `{Collaborators} (z : ZipFile) (name : jsstring) : nat :=
  length (filter (λ r, extends name (entryName (object z r))) (entries z)).

(** ** The pieces of a serialized archive *)

Section Layout.
Context `{Collaborators}.

(** What one entry contributes to the data section: its local header, its
    post-header block and its payload.  An entry is given as the pair of
    its state when the blocks are built and its payload. *)
Definition local_block (w : ZipEntry * bytes) : bytes :=
  EntryHeader.dataHeaderToBinary (header w.1) ++ postHeader_sync w.1 ++ w.2.

Definition data_section (es : list (ZipEntry * bytes)) : bytes :=
  concat (map local_block es).

Definition central_directory (es : list (ZipEntry * bytes)) : bytes :=
  concat (map (λ w, packHeader w.1) es).

(** The end record with the archive comment copied in at [ENDHDR]. *)
Definition end_record (z : ZipFile) : bytes :=
  Buffer.copy (_comment z) (MainHeader.toBinary (mainHeader z))
    Constants.ENDHDR.

(** [a] does not come after [b] in the order of the lower-cased names. *)
Definition name_le (z : ZipFile) (a b : eref) : Prop :=
  str_ltb (lower_name z b) (lower_name z a) = false.

End Layout.

Section Written.
Context `{Collaborators}.

(** The blocks [compressToBuffer] pushes for one entry. *)
Definition pushed (w : ZipEntry * bytes) : list bytes :=
  [EntryHeader.dataHeaderToBinary (header w.1); postHeader_sync w.1; w.2].

(** The state of an entry when its blocks are built, and its payload: the
    entry as [getCompressedData] leaves it, with [header.offset] set. *)
Definition prepared (e : ZipEntry) (off : Z) : ZipEntry * bytes :=
  let e0 := (getCompressedData e).1 in
  (set_header e0 (EntryHeader.set_offset (header e0) off),
   (getCompressedData e).2).

(** The loop touches entry objects and [mainHeader] only. *)
Definition same_variables (z z' : ZipFile) : Prop :=
  arrays z' = arrays z ∧ entryList z' = entryList z
  ∧ entryTable z' = entryTable z ∧ _comment z' = _comment z
  ∧ inBuffer z' = inBuffer z.

(** What the loop of [compressToBuffer] has done when it went from the
    state [z], [v] to the state [z'], [v'] writing the entries [es]. *)
Definition written_by (z : ZipFile) (v : Locals) (z' : ZipFile)
    (v' : Locals) (es : list (ZipEntry * bytes)) : Prop :=
  dataBlock v' = dataBlock v ++ concat (map pushed es)
  ∧ entryHeaders v' = entryHeaders v ++ map (λ w, packHeader w.1) es
  ∧ dindex v' = dindex v + Buffer.len (data_section es)
  ∧ totalSize v'
    = totalSize v + Buffer.len (data_section es)
      + Buffer.len (central_directory es)
  ∧ same_variables z z'
  ∧ mainHeader z'
    = MainHeader.set_size (mainHeader z)
        (MainHeader.size (mainHeader z) + Buffer.len (central_directory es))
  ∧ (∀ i w, es !! i = Some w →
       EntryHeader.offset (header w.1)
       = dindex v + Buffer.len (data_section (take i es))).

End Written.

(** ** Headers as they come back from their bytes *)

Module Wrap.

(** The fields of an entry header modulo their widths: what decoding the
    encoded header yields. *)
Definition entry (h : EntryHeader.t) : EntryHeader.t :=
  {| EntryHeader.made := EntryHeader.made h mod 65536;
     EntryHeader.version := EntryHeader.version h mod 65536;
     EntryHeader.flags := EntryHeader.flags h mod 65536;
     EntryHeader.method := EntryHeader.method h mod 65536;
     EntryHeader.time := EntryHeader.time h mod 4294967296;
     EntryHeader.crc := EntryHeader.crc h mod 4294967296;
     EntryHeader.compressedSize := EntryHeader.compressedSize h mod 4294967296;
     EntryHeader.size := EntryHeader.size h mod 4294967296;
     EntryHeader.fileNameLength := EntryHeader.fileNameLength h mod 65536;
     EntryHeader.extraLength := EntryHeader.extraLength h mod 65536;
     EntryHeader.commentLength := EntryHeader.commentLength h mod 65536;
     EntryHeader.diskStart := EntryHeader.diskStart h mod 65536;
     EntryHeader.inAttr := EntryHeader.inAttr h mod 65536;
     EntryHeader.attr := EntryHeader.attr h mod 4294967296;
     EntryHeader.offset := EntryHeader.offset h mod 4294967296 |}.

Definition main (h : MainHeader.t) : MainHeader.t :=
  {| MainHeader.diskEntries := MainHeader.diskEntries h mod 65536;
     MainHeader.totalEntries := MainHeader.totalEntries h mod 65536;
     MainHeader.size := MainHeader.size h mod 4294967296;
     MainHeader.offset := MainHeader.offset h mod 4294967296;
     MainHeader.commentLength := MainHeader.commentLength h mod 65536 |}.

End Wrap.

(** ** Entries of an archive and of its re-serialization *)

Section RoundTrip.
Context `{Collaborators}.

(** What the specification compares: the name, the compressed and the
    uncompressed size and the CRC-32 of an entry. *)
Definition entry_info (e : ZipEntry) : bytes * Z * Z * Z :=
  (rawEntryName e, EntryHeader.compressedSize (header e),
   EntryHeader.size (header e), EntryHeader.crc (header e)).

Definition entry_infos (z : ZipFile) : list (bytes * Z * Z * Z) :=
  map (λ r, entry_info (object z r)) (entries z).

(** The fields of a header that [readEntries] steps by and that
    [entry_info] shows fit their widths. *)
Definition fits (h : EntryHeader.t) : Prop :=
  0 <= EntryHeader.fileNameLength h < 65536
  ∧ 0 <= EntryHeader.extraLength h < 65536
  ∧ 0 <= EntryHeader.commentLength h < 65536
  ∧ 0 <= EntryHeader.crc h < 4294967296
  ∧ 0 <= EntryHeader.compressedSize h < 4294967296
  ∧ 0 <= EntryHeader.size h < 4294967296.

(** The name, the extra field and the comment of an entry are as long as
    its header says: the central directory record lay within the buffer. *)
Definition complete (e : ZipEntry) : Prop :=
  Buffer.len (rawEntryName e) = EntryHeader.fileNameLength (header e)
  ∧ Buffer.len (extra e) = EntryHeader.extraLength (header e)
  ∧ Buffer.len (comment e) = EntryHeader.commentLength (header e).

(** One round of the loop of [readEntries], read off [readEntries_loop]:
    the entry built at the cursor [index] once its header [h] is decoded,
    and the store after [entryList[i] = entry; entryTable[name] = entry]. *)
Definition read_record (buf : bytes) (index : Z) (h : EntryHeader.t)
  : ZipEntry :=
  let tmp := index + Constants.CENHDR in
  let tmp' := tmp + EntryHeader.fileNameLength h in
  let tmp'' :=
    if EntryHeader.extraLength h =? 0 then tmp'
    else tmp' + EntryHeader.extraLength h in
  {| header := h;
     rawEntryName := Buffer.slice buf tmp tmp';
     extra := if EntryHeader.extraLength h =? 0 then extra (new_ZipEntry buf)
              else Buffer.slice buf tmp' tmp'';
     comment := if EntryHeader.commentLength h =? 0
                then comment (new_ZipEntry buf)
                else Buffer.slice buf tmp''
                       (tmp'' + EntryHeader.commentLength h);
     input := buf |}.

Definition store_entry (entry : ZipEntry) (z : ZipFile) : ZipFile :=
  let z1 := (new_object entry z).2 in
  with_entryTable (set_array z1 (entryList z1) (entries z1 ++ [nextRef z]))
    (<[entryName entry := nextRef z]> (entryTable z1)).

(** An entry as [readEntries] builds it from the record [packHeader e]
    found in the buffer [buf]. *)
Definition reread (buf : bytes) (e : ZipEntry) : ZipEntry :=
  {| header := Wrap.entry (header e); rawEntryName := rawEntryName e;
     extra := extra e; comment := comment e; input := buf |}.

End RoundTrip.

(** ** The entry list and the entry table side by side *)

Section Agreement.
Context `{Collaborators}.

(** [s] starts with [name]: the test of [getEntryChildren]. *)
Definition starts_with (name s : jsstring) : Prop :=
  take (length name) s = name.

#[global] Instance starts_with_dec (name s : jsstring) :
  Decision (starts_with name s).
Proof. unfold starts_with. apply _. Defined.

(** Every element of the entry list is what the table gives for its
    name. *)
Definition bound (z : ZipFile) : Prop :=
  ∀ r, r ∈ entries z → entryTable z !! entryName (object z r) = Some r.

(** Every entry the table gives is an element of the entry list. *)
Definition listed (z : ZipFile) : Prop :=
  ∀ k r, entryTable z !! k = Some r → r ∈ entries z.

(** The table gives for a name the last element of the list that carries
    it. *)
Definition last_wins (z : ZipFile) : Prop :=
  ∀ i r, entries z !! i = Some r →
    (∀ j r', (i < j)%nat → entries z !! j = Some r' →
       entryName (object z r') ≠ entryName (object z r)) →
    entryTable z !! entryName (object z r) = Some r.

(** The references of the list were handed out before [nextRef]. *)
Definition allocated (z : ZipFile) : Prop :=
  Forall (λ r, (r < nextRef z)%nat) (entries z).

End Agreement.
(** * Properties *)


(** ** Bytes and little-endian fields *)

Section BufferFacts.
Import Buffer.

Lemma byteZ_range (c : byte) : 0 <= byteZ c < 256.
Proof.
  unfold byteZ. pose proof (Byte.to_N_bounded c). lia.
Qed.

Lemma byteZ_Zbyte (v : Z) : byteZ (Zbyte v) = v mod 256.
Proof.
  unfold byteZ, Zbyte.
  assert (Hr : 0 <= v mod 256 < 256) by (apply Z.mod_pos_bound; lia).
  destruct (Byte.of_N (Z.to_N (v mod 256))) as [c|] eqn:E.
  - apply Byte.to_of_N in E. simpl. rewrite E. lia.
  - exfalso. pose proof (Byte.to_of_N_option_map (Z.to_N (v mod 256))) as M.
    rewrite E in M. simpl in M.
    destruct (N.leb_spec (Z.to_N (v mod 256)) 255); [discriminate | lia].
Qed.

Lemma get_app_l (a b : bytes) (i : Z) :
  0 <= i < len a → get (a ++ b) i = get a i.
Proof.
  unfold get, len. intros Hi.
  destruct (Z.ltb_spec i 0); [lia |].
  apply lookup_app_l. lia.
Qed.

Lemma get_app_r (a b : bytes) (i : Z) :
  len a <= i → get (a ++ b) i = get b (i - len a).
Proof.
  unfold get, len. intros Hi.
  destruct (Z.ltb_spec i 0); [lia |].
  destruct (Z.ltb_spec (i - Z.of_nat (length a)) 0); [lia |].
  rewrite lookup_app_r by lia. f_equal. lia.
Qed.

Lemma get_Some_lt (b : bytes) (i : Z) (c : byte) :
  get b i = Some c → 0 <= i < len b.
Proof.
  unfold get, len. destruct (Z.ltb_spec i 0); [discriminate |].
  intros E. apply lookup_lt_Some in E. lia.
Qed.

Lemma get_in_range (b : bytes) (i : Z) :
  0 <= i < len b → ∃ c, get b i = Some c.
Proof.
  unfold get, len. intros Hi. destruct (Z.ltb_spec i 0); [lia |].
  destruct (lookup_lt_is_Some_2 b (Z.to_nat i)) as [c E]; [lia | eauto].
Qed.

End BufferFacts.

(** ** Locating the end record *)

Section LocateEnd.
Context `{Collaborators}.
Import Constants.

Lemma sig_at_true (b : bytes) (i : Z) :
  sig_at b i = true ↔ has_ENDSIG b i.
Proof.
  unfold sig_at, has_ENDSIG, Buffer.readUInt32LE, ENDSIG.
  destruct (Buffer.get b i) as [c0|]; simpl; [| split; discriminate].
  destruct (Buffer.get b (i + 1)) as [c1|]; simpl;
    [| destruct (_ =? _); split; discriminate].
  destruct (Buffer.get b (i + 2)) as [c2|]; simpl;
    [| destruct (_ =? _); split; discriminate].
  destruct (Buffer.get b (i + 3)) as [c3|]; simpl;
    [| destruct (_ =? _); split; discriminate].
  pose proof (byteZ_range c0). pose proof (byteZ_range c1).
  pose proof (byteZ_range c2). pose proof (byteZ_range c3).
  destruct (Z.eqb_spec (Buffer.byteZ c0) 80) as [E0|E0].
  - rewrite Z.eqb_eq. split; intros E; [f_equal; exact E | congruence].
  - split; [discriminate |]. intros E. exfalso. apply E0.
    injection E as E. lia.
Qed.

Lemma sig_at_false (b : bytes) (i : Z) :
  sig_at b i = false ↔ ¬ has_ENDSIG b i.
Proof.
  rewrite <- sig_at_true. destruct (sig_at b i); split; congruence.
Qed.

(** The scan stops at the largest offset it visits that carries the
    signature, and yields [-1] when it visits none. *)
Lemma scan_spec (b : bytes) (n : Z) (k : nat) :
  0 <= n →
  (scan b n k = -1 ∧ ∀ i, n <= i <= n + Z.of_nat k → ¬ has_ENDSIG b i)
  ∨ (n <= scan b n k <= n + Z.of_nat k ∧ has_ENDSIG b (scan b n k)
     ∧ ∀ j, scan b n k < j <= n + Z.of_nat k → ¬ has_ENDSIG b j).
Proof.
  intros Hn. induction k as [|k IH]; simpl scan.
  - destruct (sig_at b (n + Z.of_nat 0)) eqn:E.
    + right. apply sig_at_true in E.
      split; [lia | split; [exact E | intros j Hj; lia]].
    + left. split; [reflexivity |]. intros i Hi.
      replace i with (n + Z.of_nat 0) by lia. by apply sig_at_false.
  - destruct (sig_at b (n + Z.of_nat (S k))) eqn:E.
    + right. apply sig_at_true in E.
      split; [lia | split; [exact E | intros j Hj; lia]].
    + apply sig_at_false in E.
      destruct IH as [[E1 N1] | (R1 & S1 & N1)].
      * left. split; [exact E1 |]. intros i Hi.
        destruct (Z.eq_dec i (n + Z.of_nat (S k))) as [->|Hne];
          [exact E | apply N1; lia].
      * right. split; [lia | split; [exact S1 |]]. intros j Hj.
        destruct (Z.eq_dec j (n + Z.of_nat (S k))) as [->|Hne];
          [exact E | apply N1; lia].
Qed.

Lemma findEndOffset_spec (b : bytes) :
  (findEndOffset b = -1 ∧ ∀ i, in_window b i → ¬ has_ENDSIG b i)
  ∨ (in_window b (findEndOffset b) ∧ has_ENDSIG b (findEndOffset b)
     ∧ ∀ j, in_window b j → has_ENDSIG b j → j <= findEndOffset b).
Proof.
  unfold findEndOffset, in_window.
  set (i0 := Buffer.len b - ENDHDR).
  set (n := Z.max 0 (i0 - 65535)).
  replace (Buffer.len b - ENDHDR - 65535) with (i0 - 65535) by (unfold i0; lia).
  fold n. fold i0.
  destruct (Z.ltb_spec i0 n) as [Hlt|Hge].
  - left. split; [reflexivity |]. intros i Hi. lia.
  - assert (Hn : 0 <= n) by (unfold n; lia).
    destruct (scan_spec b n (Z.to_nat (i0 - n)) Hn) as [[E N1] | (R & S1 & N1)].
    + left. split; [exact E |]. intros i Hi. apply N1. lia.
    + right. split; [lia | split; [exact S1 |]].
      intros j Hj Sj.
      destruct (Z.le_gt_cases j (scan b n (Z.to_nat (i0 - n)))) as [|Hgt];
        [assumption |].
      exfalso. apply (N1 j); [lia | exact Sj].
Qed.



(** *** The test [!~endOffset] *)


Lemma ToInt32_below (x : Z) :
  0 <= x < 4294967295 → ToInt32 x ≠ -1.
Proof.
  intros Hx. unfold ToInt32.
  destruct (Z.lt_ge_cases x 2147483648) as [Hlt|Hge].
  - rewrite Z.mod_small by lia. lia.
  - replace (x + 2147483648) with (x - 2147483648 + 1 * 4294967296) by lia.
    rewrite Z.mod_add by lia. rewrite Z.mod_small by lia. lia.
Qed.

(** Below 2^32 - 1 the test tells whether [endOffset] is -1. *)
Lemma bitnot_below (x : Z) :
  0 <= x < 4294967295 → (bitnot x =? 0) = false.
Proof.
  intros Hx. apply Z.eqb_neq. unfold bitnot, Z.lnot.
  pose proof (ToInt32_below x Hx). lia.
Qed.


End LocateEnd.

(** ** The entry table *)

Section TableFacts.
Context `{Collaborators}.

Lemma array_set_array_eq (z : ZipFile) (a : aref) (l : list eref) :
  array (set_array z a l) a = l.
Proof. unfold array, set_array. simpl. apply lookup_total_insert_eq. Qed.

Lemma array_set_array_ne (z : ZipFile) (a a' : aref) (l : list eref) :
  a ≠ a' → array (set_array z a l) a' = array z a'.
Proof.
  intros Hne. unfold array, set_array. simpl.
  by apply lookup_total_insert_ne.
Qed.

Lemma entries_set_entryList (z : ZipFile) (l : list eref) :
  entries (set_array z (entryList z) l) = l.
Proof. unfold entries. simpl. apply array_set_array_eq. Qed.

Lemma object_set_object_eq (z : ZipFile) (r : eref) (e : ZipEntry) :
  object (set_object z r e) r = e.
Proof. unfold object, set_object. simpl. apply lookup_total_insert_eq. Qed.

Lemma object_set_object_ne (z : ZipFile) (r r' : eref) (e : ZipEntry) :
  r ≠ r' → object (set_object z r e) r' = object z r'.
Proof.
  intros Hne. unfold object, set_object. simpl.
  by apply lookup_total_insert_ne.
Qed.

(** *** [splice] and [indexOf] *)

Lemma splice1_sublist (l : list eref) (i : Z) : splice1 l i `sublist_of` l.
Proof.
  unfold splice1.
  set (s := Z.to_nat _).
  rewrite <- (take_drop s l) at 3.
  apply sublist_app; [done |].
  replace (drop (S s) l) with (drop 1 (drop s l))
    by (rewrite drop_drop; f_equal; lia).
  apply sublist_drop.
Qed.

Lemma splice1_last (l : list eref) (x : eref) : splice1 (l ++ [x]) (-1) = l.
Proof.
  unfold splice1. rewrite length_app. simpl length.
  replace (Z.to_nat _) with (length l).
  2:{ destruct (Z.ltb_spec (-1) 0); lia. }
  rewrite take_app_length.
  rewrite drop_ge; [by rewrite app_nil_r |].
  rewrite length_app. simpl. lia.
Qed.

Lemma splice1_nil (i : Z) : splice1 [] i = [].
Proof. unfold splice1. by rewrite take_nil, drop_nil. Qed.

(** *** [setEntry] *)

Lemma entries_setEntry (r : eref) (z : ZipFile) :
  entries (setEntry r z) = entries z ++ [r].
Proof. unfold setEntry. simpl. apply entries_set_entryList. Qed.

Lemma totalEntries_setEntry (r : eref) (z : ZipFile) :
  MainHeader.totalEntries (mainHeader (setEntry r z))
  = Z.of_nat (length (entries (setEntry r z))).
Proof.
  rewrite entries_setEntry. unfold setEntry, entries, array, set_array.
  simpl. by rewrite lookup_total_insert_eq.
Qed.

Lemma entryTable_setEntry (r : eref) (z : ZipFile) :
  entryTable (setEntry r z)
  = <[entryName (object z r) := r]> (entryTable z).
Proof. reflexivity. Qed.


End TableFacts.

Section DeleteFacts.
Context `{Collaborators}.

Lemma shrinks_refl (z : ZipFile) : shrinks z z.
Proof. by unfold shrinks. Qed.

Lemma shrinks_trans (z1 z2 z3 : ZipFile) :
  shrinks z1 z2 → shrinks z2 z3 → shrinks z1 z3.
Proof.
  intros (O1 & L1 & S1 & T1) (O2 & L2 & S2 & T2).
  repeat split; [congruence | congruence | by etrans | by etrans].
Qed.

Lemma shrinks_object (z z' : ZipFile) (r : eref) :
  shrinks z z' → object z' r = object z r.
Proof. intros (O1 & _). unfold object. by rewrite O1. Qed.

Lemma shrinks_table_names (z z' : ZipFile) :
  shrinks z z' → table_names z → table_names z'.
Proof.
  intros Hs Hn k r E. rewrite (shrinks_object _ _ _ Hs).
  apply Hn. destruct Hs as (_ & _ & _ & T). by eapply lookup_weaken.
Qed.

Lemma remove_entry_shrinks (name : jsstring) (entry : option eref)
    (z : ZipFile) :
  shrinks z (remove_entry name entry z).
Proof.
  unfold shrinks, remove_entry, entries, array, set_array. simpl.
  repeat split.
  - rewrite lookup_total_insert_eq. apply splice1_sublist.
  - apply delete_subseteq.
Qed.

Lemma totalEntries_remove_entry (name : jsstring) (entry : option eref)
    (z : ZipFile) :
  MainHeader.totalEntries (mainHeader (remove_entry name entry z))
  = Z.of_nat (length (entries (remove_entry name entry z))).
Proof. reflexivity. Qed.

(** *** Counting the entries below a name *)

Lemma filter_length_sublist {A} (P : A → Prop) `{∀ x, Decision (P x)}
    (l1 l2 : list A) :
  l1 `sublist_of` l2 → (length (filter P l1) ≤ length (filter P l2))%nat.
Proof.
  induction 1 as [|x l1 l2 _ IH|x l1 l2 _ IH]; [done | |].
  - rewrite !filter_cons. destruct (decide (P x)); simpl; lia.
  - rewrite filter_cons. destruct (decide (P x)); simpl; lia.
Qed.

Lemma filter_length_mono {A} (P Q : A → Prop) `{∀ x, Decision (P x)}
    `{∀ x, Decision (Q x)} (l : list A) :
  (∀ x, P x → Q x) →
  (length (filter P l) ≤ length (filter Q l))%nat.
Proof.
  intros HPQ. induction l as [|x l IH]; [done |].
  rewrite !filter_cons.
  destruct (decide (P x)) as [p|], (decide (Q x)) as [|nq]; simpl; try lia.
  destruct (nq (HPQ _ p)).
Qed.

Lemma filter_length_strict {A} (P Q : A → Prop) `{∀ x, Decision (P x)}
    `{∀ x, Decision (Q x)} (l : list A) (x0 : A) :
  (∀ x, P x → Q x) → x0 ∈ l → Q x0 → ¬ P x0 →
  (length (filter P l) < length (filter Q l))%nat.
Proof.
  intros HPQ Hin q np. induction l as [|x l IH]; [by apply elem_of_nil in Hin |].
  rewrite !filter_cons.
  pose proof (filter_length_mono P Q l HPQ) as Hm.
  apply elem_of_cons in Hin as [<- | Hin].
  - destruct (decide (P x0)); [done |]. destruct (decide (Q x0)); [| done].
    simpl. lia.
  - specialize (IH Hin).
    destruct (decide (P x)) as [p|], (decide (Q x)) as [|nq]; simpl; try lia.
    destruct (nq (HPQ _ p)).
Qed.

Lemma extends_longer (name s : jsstring) :
  extends name s → (length name < length s)%nat.
Proof.
  intros [E Hne].
  destruct (decide (length s ≤ length name)%nat) as [Hle|]; [| lia].
  rewrite take_ge in E by lia. congruence.
Qed.

Lemma extends_trans (n1 n2 s : jsstring) :
  extends n1 n2 → extends n2 s → extends n1 s.
Proof.
  intros E1 E2. pose proof (extends_longer _ _ E1).
  pose proof (extends_longer _ _ E2).
  destruct E1 as [E1 _], E2 as [E2 _]. split.
  - rewrite <- E1 at 2. rewrite <- E2.
    rewrite take_take. f_equal. lia.
  - intros ->. lia.
Qed.

Lemma extends_irrefl (n : jsstring) : ¬ extends n n.
Proof. by intros [_ ?]. Qed.

End DeleteFacts.

Section DeleteTotal.
Context `{Collaborators}.

Lemma below_shrinks (z z' : ZipFile) (name : jsstring) :
  shrinks z z' → (below z' name ≤ below z name)%nat.
Proof.
  intros (O1 & _ & S1 & _). unfold below, object. rewrite O1.
  by apply filter_length_sublist.
Qed.

Lemma below_le_length (z : ZipFile) (name : jsstring) :
  (below z name ≤ length (entries z))%nat.
Proof. unfold below. apply sublist_length, sublist_filter. Qed.

Lemma elem_of_getEntryChildren (z : ZipFile) (r c : eref) :
  c ∈ getEntryChildren r z →
  c ∈ entries z
  ∧ take (length (entryName (object z r))) (entryName (object z c))
    = entryName (object z r).
Proof.
  unfold getEntryChildren. destruct (isDirectory (object z r)).
  - intros Hc. apply list_elem_of_filter in Hc. tauto.
  - intros Hc. by apply elem_of_nil in Hc.
Qed.

(** With the table keyed by the names of its entries, the calls of
    [deleteEntry] nest no deeper than [below z name], and the call returns. *)
Lemma deleteEntry_rec_spec (fuel : nat) :
  ∀ (name : jsstring) (z : ZipFile),
    table_names z → (below z name < fuel)%nat →
    ∃ z', deleteEntry_rec fuel name z = Some z' ∧ shrinks z z'
          ∧ MainHeader.totalEntries (mainHeader z')
            = Z.of_nat (length (entries z')).
Proof.
  induction fuel as [|fuel IH]; intros name z Hn Hb; [lia |].
  simpl.
  set (step := λ (acc : option ZipFile) (child : eref),
                 z' ← acc;
                 if decide (entryName (object z' child) ≠ name)
                 then deleteEntry_rec fuel (entryName (object z' child)) z'
                 else Some z').
  assert (Hfold : ∃ z1,
    match entryTable z !! name with
    | Some r =>
        if isDirectory (object z r)
        then foldl step (Some z) (getEntryChildren r z)
        else Some z
    | None => Some z
    end = Some z1 ∧ shrinks z z1).
  { destruct (entryTable z !! name) as [r|] eqn:Er;
      [| eauto using shrinks_refl].
    destruct (isDirectory (object z r)); [| eauto using shrinks_refl].
    pose proof (elem_of_getEntryChildren z r) as Hc.
    rewrite (Hn _ _ Er) in Hc.
    assert (Hgen : ∀ cs z0,
      (∀ c, c ∈ cs → c ∈ getEntryChildren r z) → shrinks z z0 →
      ∃ z1, foldl step (Some z0) cs = Some z1 ∧ shrinks z z1).
    { induction cs as [|c cs IHcs]; intros z0 Hcs Hs0; [simpl; eauto |].
      simpl. fold step.
      destruct (Hc c) as [Hcin Hcpre]; [apply Hcs; left |].
      rewrite (shrinks_object _ _ c Hs0).
      destruct (decide (entryName (object z c) ≠ name)) as [Hne|_].
      - destruct (IH (entryName (object z c)) z0) as (z0' & E & Hs' & _).
        + by eapply shrinks_table_names.
        + eapply Nat.le_lt_trans; [by apply below_shrinks |].
          eapply Nat.lt_le_trans; [| apply Nat.lt_succ_r; exact Hb].
          unfold below.
          apply (filter_length_strict _ _ _ c);
            [| exact Hcin | by split | apply extends_irrefl].
          intros x Hx. eapply extends_trans; [| exact Hx]. by split.
        + rewrite E. apply IHcs.
          * intros c' Hc'. apply Hcs. by right.
          * by eapply shrinks_trans.
      - apply IHcs; [| done]. intros c' Hc'. apply Hcs. by right. }
    apply Hgen; [done | apply shrinks_refl]. }
  destruct Hfold as (z1 & -> & Hs). simpl.
  eexists. split; [reflexivity |]. split; [| reflexivity].
  eapply shrinks_trans; [exact Hs | apply remove_entry_shrinks].
Qed.

Lemma deleteEntry_rec_total (name : jsstring) (z : ZipFile) :
  table_names z →
  ∃ z', deleteEntry name z = Some z' ∧ shrinks z z'
        ∧ MainHeader.totalEntries (mainHeader z')
          = Z.of_nat (length (entries z')).
Proof.
  intros Hn. apply deleteEntry_rec_spec; [done |].
  pose proof (below_le_length z name). lia.
Qed.

(** C6.  After [setEntry] and after [deleteEntry], which returns,
    [mainHeader.totalEntries] is the length of the entry list. *)
Theorem C6_totalEntries_is_length (z : ZipFile) (Hnames : table_names z) :
  (∀ entry,
     MainHeader.totalEntries (mainHeader (setEntry entry z))
     = Z.of_nat (length (entries (setEntry entry z))))
  ∧ (∀ name, ∃ z',
       deleteEntry name z = Some z'
       ∧ MainHeader.totalEntries (mainHeader z')
         = Z.of_nat (length (entries z'))).
Proof.
  split.
  - intros entry. apply totalEntries_setEntry.
  - intros name.
    destruct (deleteEntry_rec_total name z Hnames) as (z' & E & _ & T).
    eauto.
Qed.

End DeleteTotal.

Section TableClaims.
Context `{Collaborators}.

Lemma deleteEntry_absent (name : jsstring) (z : ZipFile) :
  entryTable z !! name = None →
  deleteEntry name z = Some (remove_entry name None z).
Proof. intros E. unfold deleteEntry. simpl. by rewrite E. Qed.

Lemma entries_remove_entry (name : jsstring) (entry : option eref)
    (z : ZipFile) :
  entries (remove_entry name entry z)
  = splice1 (entries z) (indexOf (entries z) entry).
Proof.
  unfold remove_entry, entries, array, set_array. simpl.
  by rewrite lookup_total_insert_eq.
Qed.

(** C10.  [deleteEntry] of a name the table does not hold returns, removes
    the last element of an entry list that is not empty ([indexOf] gives -1
    and [splice(-1, 1)] counts from the end), leaves the table as it is and
    sets [totalEntries] to the new length. *)
Theorem C10_deleteEntry_absent_name_drops_last (z : ZipFile)
    (name : jsstring) (Habsent : entryTable z !! name = None) :
  ∃ z', deleteEntry name z = Some z'
        ∧ (∀ l x, entries z = l ++ [x] → entries z' = l)
        ∧ (entries z = [] → entries z' = [])
        ∧ entryTable z' = entryTable z
        ∧ MainHeader.totalEntries (mainHeader z')
          = Z.of_nat (length (entries z')).
Proof.
  exists (remove_entry name None z).
  split; [by apply deleteEntry_absent |].
  split; [| split; [| split]].
  - intros l x E. rewrite entries_remove_entry, E. apply splice1_last.
  - intros E. rewrite entries_remove_entry, E. apply splice1_nil.
  - unfold remove_entry. simpl. by apply delete_id.
  - apply totalEntries_remove_entry.
Qed.

(** C7, amended.  In a container whose table binds [n] to an entry [old]
    of the entry list, [setEntry] of an entry [new] also named [n] rebinds
    the table to [new] and appends [new] to the entry list, in which [old]
    stays; and when the table had no more keys than the list had elements,
    the list is afterwards longer than the table has keys. *)
Theorem C7_setEntry_same_name_keeps_old (z : ZipFile) (n : jsstring)
    (old new : eref)
    (Hbound : entryTable z !! n = Some old)
    (Hlisted : old ∈ entries z)
    (Hname : entryName (object z new) = n) :
  entryTable (setEntry new z) !! n = Some new
  ∧ entries (setEntry new z) = entries z ++ [new]
  ∧ old ∈ entries (setEntry new z)
  ∧ ((size (entryTable z) ≤ length (entries z))%nat →
     (size (entryTable (setEntry new z))
      < length (entries (setEntry new z)))%nat).
Proof.
  assert (Hobj : entryName (object (set_array z (entryList z)
                    (entries z ++ [new])) new) = n) by exact Hname.
  rewrite entries_setEntry, entryTable_setEntry, Hname.
  split; [by rewrite lookup_insert_eq |].
  split; [done |].
  split; [apply elem_of_app; by left |].
  intros Hle. rewrite length_app. simpl.
  rewrite map_size_insert_Some by eauto. lia.
Qed.

End TableClaims.

(** ** Serialization *)

Section BufferLayout.
Import Buffer.

Lemma len_app (a b : bytes) : len (a ++ b) = len a + len b.
Proof. unfold len. rewrite length_app. lia. Qed.

Lemma len_nil : len [] = 0.
Proof. reflexivity. Qed.

Lemma len_nonneg (a : bytes) : 0 <= len a.
Proof. unfold len. lia. Qed.

Lemma len_alloc (n : Z) : len (alloc n) = Z.max 0 n.
Proof. unfold len, alloc. rewrite length_replicate. lia. Qed.

Lemma length_copy (src target : bytes) (k : Z) :
  length (copy src target k) = length target.
Proof.
  unfold copy. rewrite !length_app, !length_take, length_drop. lia.
Qed.

(** Copying into the zero-filled rest of a buffer, where the source fits. *)
Lemma copy_into_rest (pre src : bytes) (m : nat) :
  (length src ≤ m)%nat →
  copy src (pre ++ replicate m x00) (len pre)
  = (pre ++ src) ++ replicate (m - length src) x00.
Proof.
  intros Hle. unfold copy, len. rewrite Nat2Z.id.
  rewrite length_app, length_replicate.
  replace (Nat.min (length src) (length pre + m - length pre))
    with (length src) by lia.
  rewrite take_app_length, firstn_all.
  rewrite drop_app_add'; [| done].
  rewrite drop_replicate. by rewrite <- app_assoc.
Qed.

Lemma write_blocks_into_rest (bs : list bytes) (pre : bytes) (m : nat) :
  (length (concat bs) ≤ m)%nat →
  foldl write_block (pre ++ replicate m x00, len pre) bs
  = ((pre ++ concat bs) ++ replicate (m - length (concat bs)) x00,
     len pre + len (concat bs)).
Proof.
  revert pre m. induction bs as [|b bs IH]; intros pre m Hle; simpl.
  - rewrite app_nil_r, Nat.sub_0_r, len_nil. f_equal. lia.
  - simpl in Hle. rewrite length_app in Hle.
    rewrite copy_into_rest by lia.
    rewrite <- len_app. rewrite IH by lia.
    rewrite !len_app, length_app, <- !app_assoc.
    replace (m - length b - length (concat bs))%nat
      with (m - (length b + length (concat bs)))%nat by lia.
    f_equal. lia.
Qed.

End BufferLayout.

Section SerializeFacts.
Context `{Collaborators}.
Import Constants.

Lemma length_le (w : nat) (v : Z) : length (Buffer.le w v) = w.
Proof. revert v. induction w as [|w IH]; intros v; simpl; [done | by rewrite IH]. Qed.

Lemma length_toBinary (h : MainHeader.t) :
  length (MainHeader.toBinary h)
  = (22 + Z.to_nat (MainHeader.commentLength h))%nat.
Proof.
  unfold MainHeader.toBinary, Buffer.alloc.
  rewrite !length_app, !length_le, length_replicate. simpl. lia.
Qed.

Lemma length_end_record (z : ZipFile) :
  length (end_record z)
  = (22 + Z.to_nat (MainHeader.commentLength (mainHeader z)))%nat.
Proof. unfold end_record. by rewrite length_copy, length_toBinary. Qed.

(** The closing part: the output is the blocks, then the central
    directory records, then the end record. *)
Lemma finalize_layout (z : ZipFile) (v : Locals) :
  totalSize v
  = Buffer.len (concat (dataBlock v)) + Buffer.len (concat (entryHeaders v)) →
  0 <= MainHeader.commentLength (mainHeader z) →
  finalize (z, v)
  = (with_mainHeader z (MainHeader.set_offset (mainHeader z) (dindex v)),
     concat (dataBlock v) ++ concat (entryHeaders v)
     ++ end_record
          (with_mainHeader z (MainHeader.set_offset (mainHeader z) (dindex v)))).
Proof.
  intros HT Hcl. unfold finalize.
  set (z' := with_mainHeader z _).
  fold (end_record z').
  set (D := concat (dataBlock v)) in *.
  set (C := concat (entryHeaders v)) in *.
  set (m := (length D + length C + length (end_record z'))%nat).
  assert (Halloc : Buffer.alloc
            (totalSize v + MainHeader.mainHeaderSize (mainHeader z))
          = [] ++ replicate m x00).
  { unfold Buffer.alloc. simpl. f_equal. unfold m.
    rewrite length_end_record. rewrite HT.
    unfold MainHeader.mainHeaderSize, Buffer.len, ENDHDR. simpl. lia. }
  rewrite Halloc.
  change 0 with (Buffer.len []).
  rewrite (write_blocks_into_rest (dataBlock v)) by (fold D; unfold m; lia).
  fold D. rewrite (write_blocks_into_rest (entryHeaders v))
    by (fold C; unfold m; lia).
  fold C. rewrite <- !len_app.
  rewrite copy_into_rest by (unfold m; lia).
  replace (m - length D - length C - length (end_record z'))%nat with O
    by (unfold m; lia).
  simpl. rewrite app_nil_r. by rewrite <- app_assoc.
Qed.

End SerializeFacts.

Section EndRecord.
Context `{Collaborators}.
Import Constants.

Lemma toBinary_split (h : MainHeader.t) :
  MainHeader.toBinary h
  = take 22 (MainHeader.toBinary h)
    ++ Buffer.alloc (MainHeader.commentLength h).
Proof.
  unfold MainHeader.toBinary.
  rewrite !app_assoc. rewrite take_app_length'; [done |].
  rewrite !length_app, !length_le. reflexivity.
Qed.

(** With a comment as long as [commentLength] says, the end record is its
    22 fixed bytes followed by the comment. *)
Lemma end_record_comment (z : ZipFile) :
  Buffer.len (_comment z) = MainHeader.commentLength (mainHeader z) →
  end_record z = take 22 (MainHeader.toBinary (mainHeader z)) ++ _comment z.
Proof.
  intros Hlen. unfold end_record. rewrite toBinary_split.
  set (fixed := take 22 (MainHeader.toBinary (mainHeader z))).
  assert (Hf : Buffer.len fixed = ENDHDR).
  { unfold fixed, Buffer.len. rewrite length_take, length_toBinary.
    unfold ENDHDR. lia. }
  rewrite <- Hf. unfold Buffer.alloc.
  rewrite copy_into_rest by (unfold Buffer.len in Hlen; lia).
  replace (Z.to_nat (MainHeader.commentLength (mainHeader z))
           - length (_comment z))%nat with O
    by (unfold Buffer.len in Hlen; lia).
  simpl. by rewrite app_nil_r.
Qed.

End EndRecord.

(** ** The header codecs *)

Section Codec.
Import Buffer Constants.

Lemma readUInt16LE_range (b : bytes) (off v : Z) :
  readUInt16LE b off = Some v → 0 <= v < 65536.
Proof.
  unfold readUInt16LE.
  destruct (get b off) as [c0|]; [| discriminate].
  destruct (get b (off + 1)) as [c1|]; [| discriminate].
  simpl. intros [= <-].
  pose proof (byteZ_range c0). pose proof (byteZ_range c1). lia.
Qed.

Lemma readUInt32LE_range (b : bytes) (off v : Z) :
  readUInt32LE b off = Some v → 0 <= v < 4294967296.
Proof.
  unfold readUInt32LE.
  destruct (get b off) as [c0|]; [| discriminate].
  destruct (get b (off + 1)) as [c1|]; [| discriminate].
  destruct (get b (off + 2)) as [c2|]; [| discriminate].
  destruct (get b (off + 3)) as [c3|]; [| discriminate].
  simpl. intros [= <-].
  pose proof (byteZ_range c0). pose proof (byteZ_range c1).
  pose proof (byteZ_range c2). pose proof (byteZ_range c3). lia.
Qed.

(** Reading back what [le] laid out. *)
Lemma le2_value (v : Z) :
  byteZ (Zbyte v) + 256 * byteZ (Zbyte (v / 256)) = v mod 65536.
Proof.
  rewrite !byteZ_Zbyte.
  pose proof (Z.mod_pos_bound v 256 ltac:(lia)).
  pose proof (Z.mod_pos_bound (v / 256) 256 ltac:(lia)).
  pose proof (Z.div_mod v 256 ltac:(lia)).
  pose proof (Z.div_mod (v / 256) 256 ltac:(lia)).
  apply Z.mod_unique with (q := v / 256 / 256); [left; lia | lia].
Qed.

Lemma le4_value (v : Z) :
  byteZ (Zbyte v) + 256 * byteZ (Zbyte (v / 256))
  + 65536 * byteZ (Zbyte (v / 256 / 256))
  + 16777216 * byteZ (Zbyte (v / 256 / 256 / 256))
  = v mod 4294967296.
Proof.
  rewrite !byteZ_Zbyte.
  pose proof (Z.mod_pos_bound v 256 ltac:(lia)).
  pose proof (Z.mod_pos_bound (v / 256) 256 ltac:(lia)).
  pose proof (Z.mod_pos_bound (v / 256 / 256) 256 ltac:(lia)).
  pose proof (Z.mod_pos_bound (v / 256 / 256 / 256) 256 ltac:(lia)).
  pose proof (Z.div_mod v 256 ltac:(lia)).
  pose proof (Z.div_mod (v / 256) 256 ltac:(lia)).
  pose proof (Z.div_mod (v / 256 / 256) 256 ltac:(lia)).
  pose proof (Z.div_mod (v / 256 / 256 / 256) 256 ltac:(lia)).
  apply Z.mod_unique with (q := v / 256 / 256 / 256 / 256); [left; lia | lia].
Qed.

Lemma loadFromBinary_entryHeaderToBinary (h : EntryHeader.t) :
  EntryHeader.loadFromBinary (EntryHeader.entryHeaderToBinary h)
  = Some (Wrap.entry h).
Proof.
  unfold EntryHeader.loadFromBinary, EntryHeader.entryHeaderToBinary,
    readUInt16LE, readUInt32LE, get, Wrap.entry.
  unfold CENVEM, CENVER, CENFLG, CENHOW, CENTIM, CENCRC, CENSIZ, CENLEN,
    CENNAM, CENEXT, CENCOM, CENDSK, CENATT, CENATX, CENOFF.
  simpl. rewrite !le4_value, !le2_value. reflexivity.
Qed.

Lemma length_entryHeaderToBinary (h : EntryHeader.t) :
  length (EntryHeader.entryHeaderToBinary h) = 46%nat.
Proof. reflexivity. Qed.

Lemma length_dataHeaderToBinary (h : EntryHeader.t) :
  length (EntryHeader.dataHeaderToBinary h) = 30%nat.
Proof. reflexivity. Qed.

Lemma loadFromBinary_toBinary (h : MainHeader.t) :
  MainHeader.loadFromBinary (take 22 (MainHeader.toBinary h))
  = Some (Wrap.main h).
Proof.
  unfold MainHeader.loadFromBinary, MainHeader.toBinary,
    readUInt16LE, readUInt32LE, get, Wrap.main.
  unfold ENDSUB, ENDTOT, ENDSIZ, ENDOFF, ENDCOM.
  simpl. rewrite !le4_value, !le2_value. reflexivity.
Qed.

Lemma has_ENDSIG_toBinary (h : MainHeader.t) :
  readUInt32LE (MainHeader.toBinary h) 0 = Some ENDSIG.
Proof. reflexivity. Qed.

End Codec.

Section CodecRange.
Import Buffer Constants.

Lemma loadFromBinary_fits (data : bytes) (h : EntryHeader.t) :
  EntryHeader.loadFromBinary data = Some h → fits h.
Proof.
  unfold EntryHeader.loadFromBinary. intros E.
  repeat match type of E with
         | (?r ≫= _) = Some _ =>
             let v := fresh "v" in
             let Ev := fresh "Ev" in
             destruct r as [v|] eqn:Ev; [simpl in E | discriminate]
         end.
  injection E as <-. unfold fits. simpl.
  repeat match goal with
         | Ev : readUInt16LE _ _ = Some _ |- _ =>
             apply readUInt16LE_range in Ev
         | Ev : readUInt32LE _ _ = Some _ |- _ =>
             apply readUInt32LE_range in Ev
         end.
  lia.
Qed.

Lemma loadFromBinary_main_range (data : bytes) (h : MainHeader.t) :
  MainHeader.loadFromBinary data = Some h →
  0 <= MainHeader.diskEntries h < 65536
  ∧ 0 <= MainHeader.commentLength h < 65536
  ∧ 0 <= MainHeader.offset h < 4294967296.
Proof.
  unfold MainHeader.loadFromBinary. intros E.
  repeat match type of E with
         | (?r ≫= _) = Some _ =>
             let v := fresh "v" in
             let Ev := fresh "Ev" in
             destruct r as [v|] eqn:Ev; [simpl in E | discriminate]
         end.
  injection E as <-. simpl.
  repeat match goal with
         | Ev : readUInt16LE _ _ = Some _ |- _ =>
             apply readUInt16LE_range in Ev
         | Ev : readUInt32LE _ _ = Some _ |- _ =>
             apply readUInt32LE_range in Ev
         end.
  lia.
Qed.

Lemma Wrap_entry_fits (h : EntryHeader.t) :
  fits h →
  EntryHeader.fileNameLength (Wrap.entry h) = EntryHeader.fileNameLength h
  ∧ EntryHeader.extraLength (Wrap.entry h) = EntryHeader.extraLength h
  ∧ EntryHeader.commentLength (Wrap.entry h) = EntryHeader.commentLength h
  ∧ EntryHeader.crc (Wrap.entry h) = EntryHeader.crc h
  ∧ EntryHeader.compressedSize (Wrap.entry h) = EntryHeader.compressedSize h
  ∧ EntryHeader.size (Wrap.entry h) = EntryHeader.size h.
Proof.
  intros (F1 & F2 & F3 & F4 & F5 & F6). simpl.
  by rewrite !Z.mod_small.
Qed.

(** *** Slices of a buffer given in pieces *)

Lemma slice_app_r (X T : bytes) (a b : Z) :
  0 <= a → 0 <= b →
  slice (X ++ T) (len X + a) (len X + b) = slice T a b.
Proof.
  intros Ha Hb. unfold slice, clamp, len. rewrite length_app.
  destruct (Z.ltb_spec (Z.of_nat (length X) + a) 0); [lia |].
  destruct (Z.ltb_spec (Z.of_nat (length X) + b) 0); [lia |].
  destruct (Z.ltb_spec a 0); [lia |]. destruct (Z.ltb_spec b 0); [lia |].
  replace (Z.to_nat (Z.min (Z.of_nat (length X) + b)
                       (Z.of_nat (length X + length T))))
    with (length X + Z.to_nat (Z.min b (Z.of_nat (length T))))%nat by lia.
  replace (Z.to_nat (Z.min (Z.of_nat (length X) + a)
                       (Z.of_nat (length X + length T))))
    with (length X + Z.to_nat (Z.min a (Z.of_nat (length T))))%nat by lia.
  rewrite take_app_add', drop_app_add'; done.
Qed.

Lemma slice_all (B C : bytes) : slice (B ++ C) 0 (len B) = B.
Proof.
  unfold slice, clamp, len. rewrite length_app. simpl.
  destruct (Z.ltb_spec (Z.of_nat (length B)) 0); [lia |].
  replace (Z.to_nat (Z.min (Z.of_nat (length B))
                       (Z.of_nat (length B + length C))))
    with (length B) by lia.
  rewrite take_app_length. by rewrite Z.min_l by lia.
Qed.

Lemma slice_exact (A B C : bytes) :
  slice (A ++ B ++ C) (len A) (len A + len B) = B.
Proof.
  replace (len A) with (len A + 0) at 1 by lia.
  rewrite slice_app_r; [apply slice_all | lia | unfold len; lia].
Qed.

Lemma slice_from_app_r (X T : bytes) (a : Z) :
  0 <= a → slice_from (X ++ T) (len X + a) = slice_from T a.
Proof.
  intros Ha. unfold slice_from, clamp, len. rewrite length_app.
  destruct (Z.ltb_spec (Z.of_nat (length X) + a) 0); [lia |].
  destruct (Z.ltb_spec a 0); [lia |].
  replace (Z.to_nat (Z.min (Z.of_nat (length X) + a)
                       (Z.of_nat (length X + length T))))
    with (length X + Z.to_nat (Z.min a (Z.of_nat (length T))))%nat by lia.
  by rewrite drop_app_add'.
Qed.

End CodecRange.

Lemma postHeader_sync_set_header `{Collaborators} (e : ZipEntry)
    (h : EntryHeader.t) :
  postHeader_sync (set_header e h) = postHeader_sync e.
Proof. reflexivity. Qed.

(** From here on the header codecs are used through their lemmas only. *)
Opaque EntryHeader.dataHeaderToBinary EntryHeader.entryHeaderToBinary
  MainHeader.toBinary postHeader_sync postHeader_async.

Section SyncLoop.
Context `{Collaborators}.
Import Constants.

Lemma data_section_cons (w : ZipEntry * bytes) (es : list (ZipEntry * bytes)) :
  data_section (w :: es) = local_block w ++ data_section es.
Proof. reflexivity. Qed.

Lemma central_directory_cons (w : ZipEntry * bytes)
    (es : list (ZipEntry * bytes)) :
  central_directory (w :: es) = packHeader w.1 ++ central_directory es.
Proof. reflexivity. Qed.

Lemma concat_pushed (es : list (ZipEntry * bytes)) :
  concat (concat (map pushed es)) = data_section es.
Proof.
  induction es as [|w es IH]; [done |].
  simpl. rewrite data_section_cons, <- IH. unfold local_block.
  by rewrite <- !app_assoc.
Qed.

(** One round of the loop of [compressToBuffer]. *)
Lemma forEach_entry_eq (z : ZipFile) (v : Locals) (r : eref) :
  forEach_entry (z, v) r
  = let w := prepared (object z r) (dindex v) in
    (with_mainHeader
       (set_object (set_object z r (getCompressedData (object z r)).1) r w.1)
       (MainHeader.set_size (mainHeader z)
          (MainHeader.size (mainHeader z) + Buffer.len (packHeader w.1))),
     {| totalSize := totalSize v
                     + (Buffer.len (local_block w) + Buffer.len (packHeader w.1));
        dataBlock := dataBlock v ++ pushed w;
        entryHeaders := entryHeaders v ++ [packHeader w.1];
        dindex := dindex v + Buffer.len (local_block w) |}).
Proof.
  unfold forEach_entry, append_entry, prepared, pushed, local_block.
  destruct (getCompressedData (object z r)) as [e0 d]. simpl.
  rewrite !object_set_object_eq. simpl.
  rewrite !len_app. do 2 f_equal; f_equal; lia.
Qed.

End SyncLoop.

Section SyncLoop2.
Context `{Collaborators}.
Import Constants.

Lemma set_size_set_size (h : MainHeader.t) (a b : Z) :
  MainHeader.set_size (MainHeader.set_size h a) b = MainHeader.set_size h b.
Proof. reflexivity. Qed.

Lemma forEach_entry_other (z : ZipFile) (v : Locals) (r r' : eref) :
  r ≠ r' → object (forEach_entry (z, v) r).1 r' = object z r'.
Proof.
  intros Hne. rewrite forEach_entry_eq. simpl.
  unfold object, set_object. simpl.
  by rewrite !lookup_total_insert_ne.
Qed.

Lemma forEach_entry_self (z : ZipFile) (v : Locals) (r : eref) :
  object (forEach_entry (z, v) r).1 r = (prepared (object z r) (dindex v)).1.
Proof.
  rewrite forEach_entry_eq. simpl.
  unfold object at 1, set_object. simpl.
  by rewrite lookup_total_insert_eq.
Qed.

Lemma Forall2_impl_elem {A B} (P Q : A → B → Prop) (l : list A)
    (k : list B) :
  Forall2 P l k → (∀ x y, x ∈ l → P x y → Q x y) → Forall2 Q l k.
Proof.
  induction 1 as [|x y l k HP _ IH]; intros HPQ; constructor.
  - apply HPQ; [by left | exact HP].
  - apply IH. intros x' y' Hin. apply HPQ. by right.
Qed.

(** The loop of [compressToBuffer] over the entries [l]. *)
Lemma forEach_loop (l : list eref) :
  ∀ (z : ZipFile) (v : Locals),
    ∃ es, length es = length l
          ∧ written_by z v (foldl forEach_entry (z, v) l).1
              (foldl forEach_entry (z, v) l).2 es
          ∧ (∀ r, r ∉ l → object (foldl forEach_entry (z, v) l).1 r = object z r)
          ∧ (NoDup l →
             Forall2 (λ r w, object (foldl forEach_entry (z, v) l).1 r = w.1
                             ∧ ∃ off, w = prepared (object z r) off) l es).
Proof.
  induction l as [|r l IH]; intros z v.
  - exists []. split; [done |]. split; [| split; [done |]].
    + unfold written_by, same_variables. simpl.
      change (data_section []) with (@nil byte).
      change (central_directory []) with (@nil byte).
      rewrite !app_nil_r, !len_nil. repeat split; try lia.
      * destruct (mainHeader z). unfold MainHeader.set_size. simpl.
        f_equal. lia.
      * intros i w E. by rewrite lookup_nil in E.
    + intros _. constructor.
  - cbn [foldl].
    destruct (IH (forEach_entry (z, v) r).1 (forEach_entry (z, v) r).2)
      as (es & Hlen & Hw & Hother & Hdup).
    rewrite <- surjective_pairing in Hw, Hother, Hdup.
    set (R := foldl forEach_entry (forEach_entry (z, v) r) l) in *.
    pose proof (forEach_entry_self z v r) as Hself.
    pose proof (forEach_entry_other z v r) as Hothers.
    set (w := prepared (object z r) (dindex v)) in *.
    assert (Hoff : EntryHeader.offset (header w.1) = dindex v) by reflexivity.
    assert (Hprep : ∃ off, w = prepared (object z r) off)
      by (by exists (dindex v)).
    rewrite forEach_entry_eq in Hw. cbv zeta in Hw. fold w in Hw.
    clearbody w.
    exists (w :: es). split; [simpl; by rewrite Hlen |].
    destruct Hw as (HD & HE & HI & HT & HS & HM & HO).
    simpl in HD, HE, HI, HT, HS, HM, HO.
    split; [| split].
    + unfold written_by. rewrite data_section_cons, central_directory_cons.
      rewrite !len_app.
      split; [rewrite HD; simpl; by rewrite <- app_assoc |].
      split; [rewrite HE; simpl; by rewrite <- app_assoc |].
      split; [lia |]. split; [lia |]. split; [exact HS |].
      split.
      * rewrite HM. unfold MainHeader.set_size. simpl. f_equal. lia.
      * intros [|i] w' E; simpl in E.
        -- injection E as <-. simpl.
           change (data_section []) with (@nil byte). rewrite len_nil. lia.
        -- rewrite (HO i w' E). simpl take. rewrite data_section_cons, len_app.
           lia.
    + intros r' Hr'. rewrite Hother.
      * apply Hothers. intros ->. apply Hr'. by left.
      * intros Hin. apply Hr'. by right.
    + intros Hnd. apply list.NoDup_cons in Hnd as [Hnotin Hnd].
      constructor.
      * split; [| exact Hprep].
        rewrite (Hother r Hnotin). exact Hself.
      * specialize (Hdup Hnd).
        eapply Forall2_impl_elem; [exact Hdup |]. simpl.
        intros r' w' Hr' [E (off & ->)]. split; [exact E |].
        exists off. rewrite Hothers; [done |].
        intros ->. by apply Hnotin.
Qed.

End SyncLoop2.

(** *** Sorting *)

Section Sorting.
Context `{Collaborators}.

Lemma str_ltb_asym (a b : jsstring) :
  str_ltb a b = true → str_ltb b a = false.
Proof.
  revert b. induction a as [|x a IH]; intros [|y b]; simpl; try done.
  destruct (N.ltb_spec x y), (N.ltb_spec y x); try done; try lia.
  apply IH.
Qed.

Lemma Array_insert_Permutation (cmp : eref → eref → Z) (x : eref)
    (l : list eref) :
  Array_insert cmp x l ≡ₚ x :: l.
Proof.
  induction l as [|y l IH]; simpl; [done |].
  destruct (cmp x y <=? 0); [done |].
  rewrite IH. apply perm_swap.
Qed.

Lemma Array_sort_Permutation (cmp : eref → eref → Z) (l : list eref) :
  Array_sort cmp l ≡ₚ l.
Proof.
  induction l as [|x l IH]; simpl; [done |].
  unfold Array_sort in *. simpl.
  rewrite Array_insert_Permutation. by rewrite IH.
Qed.

Lemma compare_asc_le (z : ZipFile) (a b : eref) :
  compare_asc z a b <= 0 → name_le z a b.
Proof.
  unfold compare_asc, name_le.
  destruct (str_ltb (lower_name z a) (lower_name z b)) eqn:E1.
  - intros _. by apply str_ltb_asym.
  - destruct (str_ltb (lower_name z b) (lower_name z a)); [lia | done].
Qed.

Lemma compare_asc_gt (z : ZipFile) (a b : eref) :
  ¬ compare_asc z a b <= 0 → name_le z b a.
Proof.
  unfold compare_asc, name_le.
  destruct (str_ltb (lower_name z a) (lower_name z b)) eqn:E1; [lia | done].
Qed.

Lemma Array_insert_Sorted (z : ZipFile) (x : eref) (l : list eref) :
  Sorted (name_le z) l → Sorted (name_le z) (Array_insert (compare_asc z) x l).
Proof.
  induction l as [|y l IH]; intros Hs; simpl.
  - repeat constructor.
  - destruct (Z.leb_spec (compare_asc z x y) 0) as [Hle|Hgt].
    + constructor; [exact Hs |]. constructor. by apply compare_asc_le.
    + apply Sorted_inv in Hs as [Hs Hhd].
      constructor; [by apply IH |].
      destruct l as [|y' l]; simpl.
      * constructor. apply compare_asc_gt. lia.
      * destruct (Z.leb_spec (compare_asc z x y') 0).
        -- constructor. apply compare_asc_gt. lia.
        -- constructor. by apply HdRel_inv in Hhd.
Qed.

Lemma Array_sort_Sorted (z : ZipFile) (l : list eref) :
  Sorted (name_le z) (Array_sort (compare_asc z) l).
Proof.
  induction l as [|x l IH]; [constructor |].
  unfold Array_sort in *. simpl. by apply Array_insert_Sorted.
Qed.

End Sorting.

Section SyncClaims.
Context `{Collaborators}.
Import Constants.

Lemma entries_sort_entryList (cmp : ZipFile → eref → eref → Z) (z : ZipFile) :
  entries (sort_entryList cmp z)
  = if 1 <? Z.of_nat (length (entries z))
    then Array_sort (cmp z) (entries z) else entries z.
Proof.
  unfold sort_entryList. destruct (1 <? _); [| done].
  apply entries_set_entryList.
Qed.

Lemma sort_entryList_frame (cmp : ZipFile → eref → eref → Z) (z : ZipFile) :
  entryList (sort_entryList cmp z) = entryList z
  ∧ objects (sort_entryList cmp z) = objects z
  ∧ mainHeader (sort_entryList cmp z) = mainHeader z
  ∧ _comment (sort_entryList cmp z) = _comment z
  ∧ entryTable (sort_entryList cmp z) = entryTable z
  ∧ inBuffer (sort_entryList cmp z) = inBuffer z.
Proof. unfold sort_entryList. by destruct (1 <? _). Qed.

Lemma same_variables_entries (z z' : ZipFile) :
  same_variables z z' → entries z' = entries z.
Proof. intros (A & L & _). unfold entries, array. by rewrite A, L. Qed.

(** C8.  [compressToBuffer] sorts the entry list in place, ascending by
    lower-cased name, when it has more than one element, and returns the
    data blocks of the entries (local header, post-header, payload) one
    after the other, then their central directory records, then the end
    record with the comment copied in at ENDHDR; [mainHeader.offset] is the
    length of the data section, [mainHeader.size] the length of the central
    directory, and the buffer is as long as these and the end record of
    ENDHDR + commentLength bytes together. *)
Theorem C8_compressToBuffer_sorts_and_lays_out (z : ZipFile)
    (Hcl : 0 <= MainHeader.commentLength (mainHeader z)) :
  let z' := (compressToBuffer z).1 in
  let out := (compressToBuffer z).2 in
  entryList z' = entryList z
  ∧ entries z'
    = (if 1 <? Z.of_nat (length (entries z))
       then Array_sort (compare_asc z) (entries z) else entries z)
  ∧ entries z' ≡ₚ entries z
  ∧ Sorted (name_le z) (entries z')
  ∧ ∃ es : list (ZipEntry * bytes),
      length es = length (entries z')
      ∧ (NoDup (entries z) →
         Forall2 (λ r w, object z' r = w.1
                         ∧ ∃ off, w = prepared (object z r) off)
           (entries z') es)
      ∧ out = data_section es ++ central_directory es ++ end_record z'
      ∧ (∀ i w, es !! i = Some w →
           EntryHeader.offset (header w.1)
           = Buffer.len (data_section (take i es)))
      ∧ MainHeader.offset (mainHeader z') = Buffer.len (data_section es)
      ∧ MainHeader.size (mainHeader z') = Buffer.len (central_directory es)
      ∧ Buffer.len out
        = Buffer.len (data_section es) + Buffer.len (central_directory es)
          + (ENDHDR + MainHeader.commentLength (mainHeader z))
      ∧ (Buffer.len (_comment z) = MainHeader.commentLength (mainHeader z) →
         end_record z'
         = take 22 (MainHeader.toBinary (mainHeader z')) ++ _comment z).
Proof.
  intros z' out. subst z' out. unfold compressToBuffer.
  set (zs := reset_mainHeader (sort_entryList compare_asc z)).
  destruct (sort_entryList_frame compare_asc z) as (SL & SO & SM & SC & _).
  assert (Ezs : entries zs = entries (sort_entryList compare_asc z)) by done.
  assert (Ozs : ∀ r, object zs r = object z r)
    by (intros r; unfold object, zs; simpl; by rewrite SO).
  destruct (forEach_loop (entries zs) zs locals0)
    as (es & Hlen & Hw & _ & Hdup).
  set (R := foldl forEach_entry (zs, locals0) (entries zs)) in *.
  destruct Hw as (HD & HE & HI & HT & HS & HM & HO).
  simpl in HD, HE, HI, HT.
  assert (HcD : concat (dataBlock R.2) = data_section es)
    by (rewrite HD; apply concat_pushed).
  assert (HcE : concat (entryHeaders R.2) = central_directory es)
    by (by rewrite HE).
  assert (Hcl' : MainHeader.commentLength (mainHeader R.1)
                 = MainHeader.commentLength (mainHeader z))
    by (rewrite HM; unfold zs; simpl; by rewrite SM).
  rewrite (surjective_pairing R).
  rewrite finalize_layout by (rewrite ?HcD, ?HcE, ?Hcl'; lia).
  rewrite HcD, HcE. cbn [fst snd].
  set (z' := with_mainHeader R.1 _).
  assert (Ez' : entries z' = entries zs)
    by (unfold z'; apply (same_variables_entries zs R.1 HS)).
  assert (Oz' : ∀ r, object z' r = object R.1 r) by done.
  rewrite Ez', Ezs, entries_sort_entryList.
  split; [unfold z'; simpl; destruct HS as (_ & E & _); rewrite E; exact SL |].
  split; [done |].
  split; [destruct (1 <? _); [apply Array_sort_Permutation | done] |].
  split.
  { destruct (Z.ltb_spec 1 (Z.of_nat (length (entries z)))) as [|Hle];
      [apply Array_sort_Sorted |].
    destruct (entries z) as [|a [|b l]]; simpl in Hle;
      [constructor | repeat constructor | lia]. }
  exists es.
  rewrite <- entries_sort_entryList, <- Ezs.
  split; [exact Hlen |].
  split.
  { intros Hnd.
    assert (Hnd' : NoDup (entries zs)).
    { rewrite Ezs, entries_sort_entryList.
      destruct (1 <? _); [| done].
      by rewrite Array_sort_Permutation. }
    eapply Forall2_impl_elem; [exact (Hdup Hnd') |].
    intros r w _ [E (off & ->)]. split; [by rewrite Oz' |].
    exists off. by rewrite Ozs. }
  split; [done |].
  split; [intros i w E; rewrite (HO i w E); simpl; lia |].
  split; [unfold z'; simpl; lia |].
  split; [unfold z'; simpl; rewrite HM; unfold zs; simpl; lia |].
  split.
  { rewrite !len_app. unfold Buffer.len at 3.
    rewrite length_end_record. unfold z'. simpl.
    rewrite Hcl'. unfold ENDHDR. lia. }
  intros Hc. rewrite end_record_comment.
  - f_equal. unfold z'. simpl. destruct HS as (_ & _ & _ & -> & _).
    unfold zs. simpl. exact SC.
  - unfold z'. simpl. destruct HS as (_ & _ & _ & -> & _).
    rewrite Hcl'. unfold zs. simpl. by rewrite SC.
Qed.

End SyncClaims.

(** ** The asynchronous serializer *)

Section AsyncFacts.
Context `{Collaborators}.
Import Constants.

Lemma same_variables_trans (z1 z2 z3 : ZipFile) :
  same_variables z1 z2 → same_variables z2 z3 → same_variables z1 z3.
Proof.
  intros (A1 & B1 & C1 & D1 & E1) (A2 & B2 & C2 & D2 & E2).
  unfold same_variables. repeat split; congruence.
Qed.

Lemma finalize_frame (z : ZipFile) (v : Locals) :
  same_variables z (finalize (z, v)).1 ∧ objects (finalize (z, v)).1 = objects z.
Proof.
  unfold finalize.
  destruct (foldl write_block _ (dataBlock v)) as [o1 d1].
  destruct (foldl write_block _ (entryHeaders v)) as [o2 d2].
  by unfold same_variables.
Qed.

Lemma entries_reset_sort (cmp : ZipFile → eref → eref → Z) (z : ZipFile) :
  entries (reset_mainHeader (sort_entryList cmp z))
  = if 1 <? Z.of_nat (length (entries z))
    then Array_sort (cmp z) (entries z) else entries z.
Proof. apply entries_sort_entryList. Qed.

Lemma entries_reset_sort_Permutation (cmp : ZipFile → eref → eref → Z)
    (z : ZipFile) :
  entries (reset_mainHeader (sort_entryList cmp z)) ≡ₚ entries z.
Proof.
  rewrite entries_reset_sort.
  destruct (1 <? _); [apply Array_sort_Permutation | done].
Qed.

(** [compress] throws at its first statement: a call of [toAsyncBuffer]
    ends there, with the entry list sorted and [size] and [offset] reset,
    and has called nothing. *)
Lemma toAsyncBuffer_throws (s e : bool) (z : ZipFile) :
  toAsyncBuffer s e z
  = Some (reset_mainHeader (sort_entryList compare_desc z), [],
          Some TypeError).
Proof. reflexivity. Qed.

End AsyncFacts.

Section AsyncClaims.
Context `{Collaborators}.
Import Constants.

(** C3.  Both serializers leave the entry collection intact:
    [compressToBuffer] returns with the entry list holding the entries it
    held, reordered, and the archive buffer as it was; [toAsyncBuffer]
    ends with a TypeError thrown by [compress] before an entry is taken
    from the list, which then holds the entries it held, reordered, while
    the entry objects, the table and the archive buffer are as they
    were. *)
Theorem C3_serializers_keep_entries (s e : bool) (z : ZipFile) :
  (entries (compressToBuffer z).1 ≡ₚ entries z
   ∧ entryList (compressToBuffer z).1 = entryList z
   ∧ inBuffer (compressToBuffer z).1 = inBuffer z)
  ∧ ∃ z',
      toAsyncBuffer s e z = Some (z', [], Some TypeError)
      ∧ entries z' ≡ₚ entries z
      ∧ entryList z' = entryList z
      ∧ objects z' = objects z
      ∧ entryTable z' = entryTable z
      ∧ inBuffer z' = inBuffer z.
Proof.
  split.
  { unfold compressToBuffer.
    set (zs := reset_mainHeader (sort_entryList compare_asc z)).
    destruct (forEach_loop (entries zs) zs locals0)
      as (es & _ & (_ & _ & _ & _ & HS & _) & _).
    destruct (finalize_frame (foldl forEach_entry (zs, locals0) (entries zs)).1
                (foldl forEach_entry (zs, locals0) (entries zs)).2)
      as [HF _].
    rewrite <- surjective_pairing in HF.
    pose proof (same_variables_trans _ _ _ HS HF) as HT.
    destruct (sort_entryList_frame compare_asc z) as (SL & _ & _ & _ & _ & SB).
    split; [| split].
    - rewrite (same_variables_entries _ _ HT).
      apply entries_reset_sort_Permutation.
    - destruct HT as (_ & -> & _). exact SL.
    - destruct HT as (_ & _ & _ & _ & ->). exact SB. }
  exists (reset_mainHeader (sort_entryList compare_desc z)).
  destruct (sort_entryList_frame compare_desc z) as (SL & SO & _ & _ & ST & SB).
  split; [apply toAsyncBuffer_throws |].
  split; [apply entries_reset_sort_Permutation |].
  split; [exact SL |]. split; [exact SO |]. split; [exact ST | exact SB].
Qed.

(** C4, as the code has it.  [toAsyncBuffer] never gets to the finalize
    computation and never calls [onSuccess]: for every container, empty or
    not, the first statement of [compress] throws a TypeError, before any
    callback is called; what the call has done by then is the sort of the
    entry list and the reset of [mainHeader.size] and
    [mainHeader.offset]. *)
Theorem C4_toAsyncBuffer_throws_before_any_call (s e : bool) (z : ZipFile) :
  ∃ z',
    toAsyncBuffer s e z = Some (z', [], Some TypeError)
    ∧ MainHeader.size (mainHeader z') = 0
    ∧ MainHeader.offset (mainHeader z') = 0
    ∧ (entries z = [] → entries z' = []).
Proof.
  exists (reset_mainHeader (sort_entryList compare_desc z)).
  split; [apply toAsyncBuffer_throws |].
  split; [reflexivity |]. split; [reflexivity |].
  intros E. rewrite entries_reset_sort, E. reflexivity.
Qed.

End AsyncClaims.

(** ** The order of the two serializers *)

Section Order.
Context `{Collaborators}.

Lemma str_ltb_total (a b : jsstring) :
  str_ltb a b = false → str_ltb b a = false → a = b.
Proof.
  revert b. induction a as [|x a IH]; intros [|y b]; simpl; try done.
  destruct (N.ltb_spec x y), (N.ltb_spec y x); try done; try lia.
  intros E1 E2. f_equal; [lia | by apply IH].
Qed.

Lemma str_le_trans (a b c : jsstring) :
  str_ltb b a = false → str_ltb c b = false → str_ltb c a = false.
Proof.
  revert b c. induction a as [|x a IH]; intros [|y b] [|w c]; simpl;
    try done.
  destruct (N.ltb_spec y x), (N.ltb_spec x y), (N.ltb_spec w y),
    (N.ltb_spec y w), (N.ltb_spec w x), (N.ltb_spec x w);
    try done; try lia.
  apply IH.
Qed.

#[global] Instance name_le_trans (z : ZipFile) : Transitive (name_le z).
Proof. intros a b c. unfold name_le. apply str_le_trans. Qed.

Lemma compare_desc_le (z : ZipFile) (a b : eref) :
  compare_desc z a b <= 0 → name_le z b a.
Proof.
  unfold compare_desc, name_le.
  destruct (str_ltb (lower_name z b) (lower_name z a)) eqn:E1.
  - intros _. by apply str_ltb_asym.
  - destruct (str_ltb (lower_name z a) (lower_name z b)); [lia | done].
Qed.

Lemma compare_desc_gt (z : ZipFile) (a b : eref) :
  ¬ compare_desc z a b <= 0 → name_le z a b.
Proof.
  unfold compare_desc, name_le.
  destruct (str_ltb (lower_name z b) (lower_name z a)) eqn:E1; [lia | done].
Qed.

Lemma Array_insert_desc_Sorted (z : ZipFile) (x : eref) (l : list eref) :
  Sorted (flip (name_le z)) l →
  Sorted (flip (name_le z)) (Array_insert (compare_desc z) x l).
Proof.
  induction l as [|y l IH]; intros Hs; simpl.
  - repeat constructor.
  - destruct (Z.leb_spec (compare_desc z x y) 0) as [Hle|Hgt].
    + constructor; [exact Hs |]. constructor. by apply compare_desc_le.
    + apply Sorted_inv in Hs as [Hs Hhd].
      constructor; [by apply IH |].
      destruct l as [|y' l]; simpl.
      * constructor. apply compare_desc_gt. lia.
      * destruct (Z.leb_spec (compare_desc z x y') 0).
        -- constructor. apply compare_desc_gt. lia.
        -- constructor. by apply HdRel_inv in Hhd.
Qed.

Lemma Array_sort_desc_Sorted (z : ZipFile) (l : list eref) :
  Sorted (flip (name_le z)) (Array_sort (compare_desc z) l).
Proof.
  induction l as [|x l IH]; [constructor |].
  unfold Array_sort in *. simpl. by apply Array_insert_desc_Sorted.
Qed.

Lemma sync_order_Sorted (z : ZipFile) :
  Sorted (name_le z)
    (entries (reset_mainHeader (sort_entryList compare_asc z))).
Proof.
  rewrite entries_reset_sort.
  destruct (Z.ltb_spec 1 (Z.of_nat (length (entries z)))) as [|Hle].
  - apply Array_sort_Sorted.
  - destruct (entries z) as [|a [|b l]]; simpl in Hle;
      [constructor | repeat constructor | lia].
Qed.

(** C9, as the code has it.  [compressToBuffer] builds the blocks of the
    entries in ascending order of the lower-cased names.  [toAsyncBuffer]
    sorts the entry list in descending order and then builds nothing: the
    call ends with the TypeError of the first statement of [compress],
    with no entry handed to its compression, no entry object changed and
    no buffer given to [onSuccess]. *)
Theorem C9_async_sorts_descending_then_throws (s e : bool) (z : ZipFile) :
  Sorted (name_le z) (entries (compressToBuffer z).1)
  ∧ ∃ z',
      toAsyncBuffer s e z = Some (z', [], Some TypeError)
      ∧ entries z'
        = (if 1 <? Z.of_nat (length (entries z))
           then Array_sort (compare_desc z) (entries z) else entries z)
      ∧ Sorted (flip (name_le z)) (entries z')
      ∧ objects z' = objects z.
Proof.
  split.
  { unfold compressToBuffer.
    set (zs := reset_mainHeader (sort_entryList compare_asc z)).
    destruct (forEach_loop (entries zs) zs locals0)
      as (es & _ & (_ & _ & _ & _ & HS & _) & _).
    destruct (finalize_frame (foldl forEach_entry (zs, locals0) (entries zs)).1
                (foldl forEach_entry (zs, locals0) (entries zs)).2)
      as [HF _].
    rewrite <- surjective_pairing in HF.
    rewrite (same_variables_entries _ _ (same_variables_trans _ _ _ HS HF)).
    apply sync_order_Sorted. }
  exists (reset_mainHeader (sort_entryList compare_desc z)).
  destruct (sort_entryList_frame compare_desc z) as (_ & SO & _).
  split; [apply toAsyncBuffer_throws |].
  split; [apply entries_reset_sort |].
  split; [| exact SO].
  rewrite entries_reset_sort.
  destruct (Z.ltb_spec 1 (Z.of_nat (length (entries z)))) as [|Hle].
  - apply Array_sort_desc_Sorted.
  - destruct (entries z) as [|a [|b l]]; simpl in Hle;
      [constructor | repeat constructor | lia].
Qed.

End Order.

(** ** Reading the central directory *)

Section ReadLoop.
Context `{Collaborators}.
Import Buffer Constants.

Lemma readEntries_loop_S (n : nat) (index : Z) (z : ZipFile) :
  readEntries_loop (S n) index z
  = match EntryHeader.loadFromBinary
            (slice (inBuffer z) index (index + CENHDR)) with
    | None => Throw RangeError
    | Some h =>
        readEntries_loop n (index + EntryHeader.entryHeaderSize h)
          (store_entry (read_record (inBuffer z) index h) z)
    end.
Proof.
  cbn [readEntries_loop].
  destruct (EntryHeader.loadFromBinary _) as [h|]; [| done].
  unfold store_entry, read_record, new_object.
  destruct (EntryHeader.extraLength h =? 0); reflexivity.
Qed.

Lemma entries_store_entry (e : ZipEntry) (z : ZipFile) :
  entries (store_entry e z) = entries z ++ [nextRef z].
Proof.
  unfold store_entry, new_object, entries, array, set_array, set_object. simpl.
  by rewrite lookup_total_insert_eq.
Qed.

Lemma object_store_entry (e : ZipEntry) (z : ZipFile) (r : eref) :
  object (store_entry e z) r = if decide (r = nextRef z) then e else object z r.
Proof.
  unfold store_entry, new_object, object, set_array, set_object. simpl.
  destruct (decide (r = nextRef z)) as [->|Hne].
  - by rewrite lookup_total_insert_eq.
  - by rewrite lookup_total_insert_ne.
Qed.

Lemma store_entry_frame (e : ZipEntry) (z : ZipFile) :
  nextRef (store_entry e z) = S (nextRef z)
  ∧ mainHeader (store_entry e z) = mainHeader z
  ∧ _comment (store_entry e z) = _comment z
  ∧ inBuffer (store_entry e z) = inBuffer z
  ∧ entryList (store_entry e z) = entryList z.
Proof. done. Qed.

(** What a completed run of the loop of [readEntries] leaves, whatever the
    buffer holds. *)
Lemma readEntries_loop_inv (n : nat) :
  ∀ (index : Z) (z z' : ZipFile),
    readEntries_loop n index z = Ok z' →
    entries z' = entries z ++ seq (nextRef z) n
    ∧ nextRef z' = (nextRef z + n)%nat
    ∧ mainHeader z' = mainHeader z
    ∧ _comment z' = _comment z
    ∧ inBuffer z' = inBuffer z
    ∧ (∀ r, (r < nextRef z)%nat → object z' r = object z r)
    ∧ (∀ r, (nextRef z <= r < nextRef z + n)%nat →
         fits (header (object z' r))).
Proof.
  induction n as [|n IH]; intros index z z' E.
  - injection E as <-. rewrite app_nil_r.
    repeat split; try done; try lia.
  - rewrite readEntries_loop_S in E.
    destruct (EntryHeader.loadFromBinary _) as [h|] eqn:Eh; [| done].
    apply IH in E as (E1 & E2 & E3 & E4 & E5 & E6 & E7).
    destruct (store_entry_frame (read_record (inBuffer z) index h) z)
      as (F1 & F2 & F3 & F4 & F5).
    rewrite F1 in *. rewrite entries_store_entry in E1.
    split; [rewrite E1, <- app_assoc; done |].
    split; [lia |]. split; [congruence |]. split; [congruence |].
    split; [congruence |]. split.
    + intros r Hr. rewrite E6 by lia. rewrite object_store_entry.
      destruct (decide _); [lia | done].
    + intros r Hr. destruct (decide (r = nextRef z)) as [->|Hne].
      * rewrite E6 by lia. rewrite object_store_entry.
        rewrite decide_True by done. simpl.
        by apply loadFromBinary_fits in Eh.
      * apply E7. lia.
Qed.


Lemma open_facts (b : bytes) (z1 : ZipFile) :
  open b = Ok z1 →
  NoDup (entries z1)
  ∧ Z.of_nat (length (entries z1)) = MainHeader.diskEntries (mainHeader z1)
  ∧ MainHeader.diskEntries (mainHeader z1) < 65536
  ∧ 0 <= MainHeader.commentLength (mainHeader z1) < 65536
  ∧ (∀ r, r ∈ entries z1 → fits (header (object z1 r))).
Proof.
  unfold open, readMainHeader.
  destruct (bitnot (findEndOffset _) =? 0); [done |].
  unfold load_end_record.
  destruct (MainHeader.loadFromBinary _) as [mh|] eqn:Emh; [| done].
  apply loadFromBinary_main_range in Emh as (R1 & R2 & R3).
  set (z0 := if MainHeader.commentLength mh =? 0 then _ else _).
  assert (Hmh : mainHeader z0 = mh)
    by (unfold z0; destruct (_ =? 0); done).
  clearbody z0. unfold readEntries. intros E.
  apply readEntries_loop_inv in E as (E1 & E2 & E3 & _ & _ & _ & E7).
  unfold entries at 2 in E1. unfold array, set_array in E1.
  simpl in E1, E3, E7. rewrite lookup_total_insert_eq in E1. simpl in E1.
  rewrite Hmh in *. rewrite E1, E3.
  split; [apply NoDup_seq |]. split; [rewrite length_seq; lia |].
  split; [lia |]. split; [lia |].
  intros r Hr. apply E7. apply elem_of_seq in Hr. lia.
Qed.

(** *** Reading back records that were packed *)

Lemma fits_set_offset (h : EntryHeader.t) (off : Z) :
  fits (EntryHeader.set_offset h off) ↔ fits h.
Proof. done. Qed.

Lemma len_packHeader (e : ZipEntry) :
  complete e →
  len (packHeader e) = EntryHeader.entryHeaderSize (header e).
Proof.
  intros (C1 & C2 & C3). unfold packHeader, EntryHeader.entryHeaderSize.
  rewrite !len_app, C1, C2, C3. unfold len at 1.
  rewrite length_entryHeaderToBinary. unfold CENHDR. lia.
Qed.

Lemma len_zero_nil (b : bytes) : len b = 0 → b = [].
Proof. destruct b; [done |]. unfold len. simpl. lia. Qed.

Lemma slice_at (A B C : bytes) (s e : Z) :
  s = len A → e = len A + len B → slice (A ++ B ++ C) s e = B.
Proof. intros -> ->. apply slice_exact. Qed.

Lemma read_record_packHeader (pre rest : bytes) (e : ZipEntry) :
  complete e → fits (header e) →
  read_record (pre ++ packHeader e ++ rest) (len pre) (Wrap.entry (header e))
  = reread (pre ++ packHeader e ++ rest) e.
Proof.
  intros (C1 & C2 & C3) Hf.
  destruct (Wrap_entry_fits _ Hf) as (W1 & W2 & W3 & _).
  unfold read_record, reread. rewrite W1, W2, W3.
  set (buf := pre ++ packHeader e ++ rest).
  set (Hd := EntryHeader.entryHeaderToBinary (header e)).
  assert (LH : len Hd = CENHDR)
    by (unfold len, Hd; by rewrite length_entryHeaderToBinary).
  f_equal.
  - replace buf with ((pre ++ Hd) ++ rawEntryName e
                      ++ (extra e ++ comment e ++ rest))
      by (unfold buf, packHeader; by rewrite <- !app_assoc).
    apply slice_at; rewrite ?len_app; lia.
  - destruct (Z.eqb_spec (EntryHeader.extraLength (header e)) 0) as [E0|E0].
    + simpl. symmetry. apply len_zero_nil. lia.
    + replace buf with ((pre ++ Hd ++ rawEntryName e) ++ extra e
                        ++ (comment e ++ rest))
        by (unfold buf, packHeader; by rewrite <- !app_assoc).
      apply slice_at; rewrite ?len_app; lia.
  - destruct (Z.eqb_spec (EntryHeader.commentLength (header e)) 0) as [E0|E0].
    + simpl. symmetry. apply len_zero_nil. lia.
    + replace buf with ((pre ++ Hd ++ rawEntryName e ++ extra e) ++ comment e
                        ++ rest)
        by (unfold buf, packHeader; by rewrite <- !app_assoc).
      destruct (Z.eqb_spec (EntryHeader.extraLength (header e)) 0) as [E1|E1];
        apply slice_at; rewrite ?len_app; lia.
Qed.

Lemma readEntries_loop_records (es : list ZipEntry) :
  ∀ (pre post : bytes) (z : ZipFile),
    inBuffer z = pre ++ concat (map packHeader es) ++ post →
    Forall (λ e, complete e ∧ fits (header e)) es →
    ∃ z', readEntries_loop (length es) (len pre) z = Ok z'
          ∧ ∀ i e, es !! i = Some e →
                   object z' (nextRef z + i) = reread (inBuffer z) e.
Proof.
  induction es as [|e es IH]; intros pre post z Hbuf Hes.
  - exists z. split; [done |]. intros i e E. by rewrite lookup_nil in E.
  - apply Forall_cons in Hes as [[Hc Hf] Hes].
    cbn [length]. rewrite readEntries_loop_S.
    cbn [map concat] in Hbuf. rewrite <- app_assoc in Hbuf.
    assert (Hslice : slice (inBuffer z) (len pre) (len pre + CENHDR)
                     = EntryHeader.entryHeaderToBinary (header e)).
    { rewrite Hbuf. unfold packHeader. rewrite <- !app_assoc.
      replace CENHDR with (len (EntryHeader.entryHeaderToBinary (header e)))
        by (unfold len; by rewrite length_entryHeaderToBinary).
      apply slice_exact. }
    assert (Hrec : read_record (inBuffer z) (len pre) (Wrap.entry (header e))
                   = reread (inBuffer z) e)
      by (rewrite Hbuf; by apply read_record_packHeader).
    rewrite Hslice, loadFromBinary_entryHeaderToBinary, Hrec.
    set (z1 := store_entry (reread (inBuffer z) e) z).
    destruct (Wrap_entry_fits _ Hf) as (W1 & W2 & W3 & _).
    replace (len pre + EntryHeader.entryHeaderSize (Wrap.entry (header e)))
      with (len (pre ++ packHeader e))
      by (rewrite len_app, len_packHeader by done;
          unfold EntryHeader.entryHeaderSize; rewrite W1, W2, W3; done).
    destruct (IH (pre ++ packHeader e) post z1) as (z' & E & Hobj);
      [by rewrite <- app_assoc | done |].
    exists z'. split; [exact E |].
    intros i e' Ei. destruct i as [|i]; simpl in Ei.
    + injection Ei as <-. rewrite Nat.add_0_r.
      apply readEntries_loop_inv in E as (_ & _ & _ & _ & _ & E6 & _).
      rewrite E6 by (simpl; lia). unfold z1.
      rewrite object_store_entry. by rewrite decide_True.
    + specialize (Hobj i e' Ei).
      replace (nextRef z + S i)%nat with (nextRef z1 + i)%nat
        by (simpl; lia).
      exact Hobj.
Qed.

End ReadLoop.

(** ** Serializing and opening again *)

Section RoundTripFacts.
Context `{Collaborators}.
Import Buffer Constants.

Lemma end_record_fixed (z : ZipFile) :
  ∃ rest, end_record z = take 22 (MainHeader.toBinary (mainHeader z)) ++ rest.
Proof. unfold end_record, copy. eexists. reflexivity. Qed.

(** The buffer [compressToBuffer] returns, by the entries it wrote. *)
Lemma compressToBuffer_written (z : ZipFile) :
  0 <= MainHeader.commentLength (mainHeader z) →
  NoDup (entries z) →
  ∃ es : list (ZipEntry * bytes),
    Forall2 (λ r w, object (compressToBuffer z).1 r = w.1
                    ∧ ∃ off, w = prepared (object z r) off)
      (entries (compressToBuffer z).1) es
    ∧ entries (compressToBuffer z).1 ≡ₚ entries z
    ∧ (compressToBuffer z).2
      = data_section es ++ central_directory es
        ++ end_record (compressToBuffer z).1
    ∧ MainHeader.offset (mainHeader (compressToBuffer z).1)
      = len (data_section es)
    ∧ MainHeader.size (mainHeader (compressToBuffer z).1)
      = len (central_directory es)
    ∧ MainHeader.diskEntries (mainHeader (compressToBuffer z).1)
      = MainHeader.diskEntries (mainHeader z)
    ∧ MainHeader.totalEntries (mainHeader (compressToBuffer z).1)
      = MainHeader.totalEntries (mainHeader z)
    ∧ MainHeader.commentLength (mainHeader (compressToBuffer z).1)
      = MainHeader.commentLength (mainHeader z)
    ∧ _comment (compressToBuffer z).1 = _comment z.
Proof.
  intros Hcl Hnd. unfold compressToBuffer.
  set (zs := reset_mainHeader (sort_entryList compare_asc z)).
  destruct (sort_entryList_frame compare_asc z) as (SL & SO & SM & SC & _).
  assert (Ezs : entries zs = entries (sort_entryList compare_asc z)) by done.
  assert (Ozs : ∀ r, object zs r = object z r)
    by (intros r; unfold object, zs; simpl; by rewrite SO).
  assert (Hperm : entries zs ≡ₚ entries z).
  { rewrite Ezs, entries_sort_entryList.
    destruct (1 <? _); [apply Array_sort_Permutation | done]. }
  destruct (forEach_loop (entries zs) zs locals0)
    as (es & Hlen & Hw & _ & Hdup).
  set (R := foldl forEach_entry (zs, locals0) (entries zs)) in *.
  destruct Hw as (HD & HE & HI & HT & HS & HM & HO).
  simpl in HD, HE, HI, HT.
  assert (HcD : concat (dataBlock R.2) = data_section es)
    by (rewrite HD; apply concat_pushed).
  assert (HcE : concat (entryHeaders R.2) = central_directory es)
    by (by rewrite HE).
  assert (Hcl' : MainHeader.commentLength (mainHeader R.1)
                 = MainHeader.commentLength (mainHeader z))
    by (rewrite HM; unfold zs; simpl; by rewrite SM).
  rewrite (surjective_pairing R).
  rewrite finalize_layout by (rewrite ?HcD, ?HcE, ?Hcl'; lia).
  rewrite HcD, HcE. cbn [fst snd].
  set (z' := with_mainHeader R.1 _).
  assert (Ez' : entries z' = entries zs)
    by (unfold z'; apply (same_variables_entries zs R.1 HS)).
  assert (Oz' : ∀ r, object z' r = object R.1 r) by done.
  exists es. rewrite Ez'.
  split.
  { eapply Forall2_impl_elem; [apply Hdup; by rewrite Hperm |].
    intros r w _ [E (off & ->)]. split; [by rewrite Oz' |].
    exists off. by rewrite Ozs. }
  split; [exact Hperm |]. split; [done |].
  split; [unfold z'; simpl; lia |].
  split; [unfold z'; simpl; rewrite HM; unfold zs; simpl; lia |].
  split; [unfold z'; simpl; rewrite HM; unfold zs; simpl; by rewrite SM |].
  split; [unfold z'; simpl; rewrite HM; unfold zs; simpl; by rewrite SM |].
  split; [exact Hcl' |].
  unfold z'. simpl. destruct HS as (_ & _ & _ & -> & _).
  unfold zs. simpl. exact SC.
Qed.

Lemma entry_info_reread (buf : bytes) (e : ZipEntry) :
  fits (header e) → entry_info (reread buf e) = entry_info e.
Proof.
  intros Hf. destruct (Wrap_entry_fits _ Hf) as (_ & _ & _ & W4 & W5 & W6).
  unfold entry_info, reread. cbn [header rawEntryName].
  by rewrite W4, W5, W6.
Qed.

Lemma entry_info_prepared (e : ZipEntry) (off : Z) :
  (getCompressedData e).1 = e →
  entry_info (prepared e off).1 = entry_info e.
Proof. intros E. unfold prepared. cbn [fst]. by rewrite E. Qed.

Lemma complete_prepared (e : ZipEntry) (off : Z) :
  (getCompressedData e).1 = e → complete e → fits (header e) →
  complete (prepared e off).1 ∧ fits (header (prepared e off).1).
Proof. intros E Hc Hf. unfold prepared. cbn [fst]. by rewrite E. Qed.

End RoundTripFacts.

Section LocateAgain.
Import Buffer Constants.

Lemma readUInt32LE_app_r (X T : bytes) (i : Z) :
  0 <= i → readUInt32LE (X ++ T) (len X + i) = readUInt32LE T i.
Proof.
  intros Hi. unfold readUInt32LE.
  rewrite !get_app_r by lia.
  replace (len X + i - len X) with i by lia.
  replace (len X + i + 1 - len X) with (i + 1) by lia.
  replace (len X + i + 2 - len X) with (i + 2) by lia.
  replace (len X + i + 3 - len X) with (i + 3) by lia.
  reflexivity.
Qed.

(** Bytes put in front of a buffer in which the scan finds an end record
    move what it finds by their number. *)
Lemma findEndOffset_app (X T : bytes) :
  0 <= findEndOffset T →
  findEndOffset (X ++ T) = len X + findEndOffset T.
Proof.
  intros Hk.
  pose proof (len_nonneg X) as HX.
  destruct (findEndOffset_spec T) as [[E _]|(W & S & M)]; [lia |].
  assert (W' : in_window (X ++ T) (len X + findEndOffset T))
    by (unfold in_window in *; rewrite len_app; lia).
  assert (S' : has_ENDSIG (X ++ T) (len X + findEndOffset T))
    by (unfold has_ENDSIG; by rewrite readUInt32LE_app_r).
  destruct (findEndOffset_spec (X ++ T)) as [[_ N]|(W2 & S2 & M2)];
    [by destruct (N _ W') |].
  pose proof (M2 _ W' S') as Hle.
  destruct (Z.le_gt_cases (findEndOffset (X ++ T)) (len X + findEndOffset T))
    as [|Hgt]; [lia |].
  exfalso.
  set (j := findEndOffset (X ++ T) - len X).
  assert (Hj : findEndOffset (X ++ T) = len X + j) by (unfold j; lia).
  rewrite Hj in S2, W2.
  unfold has_ENDSIG in S2. rewrite readUInt32LE_app_r in S2 by lia.
  assert (Wj : in_window T j)
    by (unfold in_window in *; rewrite len_app in W2; lia).
  pose proof (M j Wj S2). lia.
Qed.

End LocateAgain.

Section RoundTripClaim.
Context `{Collaborators}.
Import Buffer Constants.

(** C1.  Opening an archive, serializing the container with
    [compressToBuffer] and opening the result gives the entries of the
    container after the serialization, in its order (ascending by name),
    with the same names, sizes and CRC-32 values, hence those of the first
    opening up to order, provided that: the central directory records of
    the archive lay within the buffer; compressing an entry read from the
    archive leaves the entry as it was read; the backward scan of the new
    buffer stops at the end record [compressToBuffer] wrote; and this end
    record starts below offset 2^32 - 1. *)
Theorem C1_reopen_serialized_same_entries (b : bytes) (z1 : ZipFile)
    (Hopen : open b = Ok z1)
    (Hcomplete : ∀ r, r ∈ entries z1 → complete (object z1 r))
    (Hcap : ∀ r, r ∈ entries z1 →
              (getCompressedData (object z1 r)).1 = object z1 r)
    (Hfound : findEndOffset (compressToBuffer z1).2
              = MainHeader.offset (mainHeader (compressToBuffer z1).1)
                + MainHeader.size (mainHeader (compressToBuffer z1).1))
    (Hbelow : MainHeader.offset (mainHeader (compressToBuffer z1).1)
              + MainHeader.size (mainHeader (compressToBuffer z1).1)
              < 4294967295) :
  ∃ z2, open (compressToBuffer z1).2 = Ok z2
        ∧ entry_infos z2 = entry_infos (compressToBuffer z1).1
        ∧ entry_infos z2 ≡ₚ entry_infos z1.
Proof.
  destruct (open_facts b z1 Hopen) as (Hnd & Hcount & Hde & Hcl & Hfits).
  destruct (compressToBuffer_written z1 (proj1 Hcl) Hnd)
    as (es & HF & Hperm & Hout & Hoff & Hsize & Hdisk & _).
  set (z' := (compressToBuffer z1).1) in *.
  set (out := (compressToBuffer z1).2) in *.
  pose proof (len_nonneg (data_section es)) as Lds.
  pose proof (len_nonneg (central_directory es)) as Lcd.
  assert (Hsmall : MainHeader.offset (mainHeader z') < 4294967296)
    by (rewrite Hsize in Hbelow; lia).
  (* the entries written are those of [z1], complete and within range *)
  assert (Hes : Forall2 (λ r w, object z' r = w.1
                                ∧ entry_info w.1 = entry_info (object z1 r)
                                ∧ complete w.1 ∧ fits (header w.1))
                  (entries z') es).
  { eapply Forall2_impl_elem; [exact HF |].
    intros r w Hr [E (off & ->)].
    assert (Hr1 : r ∈ entries z1) by (by rewrite <- Hperm).
    split; [exact E |].
    split; [apply entry_info_prepared; by apply Hcap |].
    apply complete_prepared; auto. }
  assert (Hlen : length es = length (entries z1)).
  { rewrite <- (Forall2_length _ _ _ Hes). by rewrite Hperm. }
  assert (Hinfo1 : entry_infos z' = map (λ w, entry_info w.1) es).
  { unfold entry_infos. clear - Hes.
    induction Hes as [|r w l es (E & _) _ IH]; [done |].
    cbn [map]. by rewrite E, IH. }
  assert (Hperm1 : entry_infos z' ≡ₚ entry_infos z1).
  { transitivity (map (λ r, entry_info (object z1 r)) (entries z')).
    - unfold entry_infos. clear - Hes.
      induction Hes as [|r w l es (E & E' & _) _ IH]; [done |].
      cbn [map]. by rewrite E, E', IH.
    - unfold entry_infos. by rewrite Hperm. }
  assert (Hrec : Forall (λ e, complete e ∧ fits (header e)) (map fst es)).
  { clear - Hes. induction Hes as [|r w l es (_ & _ & Hc) _ IH];
      [constructor |]. cbn [map]. by constructor. }
  assert (Hcd : central_directory es = concat (map packHeader (map fst es)))
    by (unfold central_directory; by rewrite map_map).
  (* the end record is found where it was written *)
  destruct (end_record_fixed z') as (rest & Hend).
  set (fixed := take 22 (MainHeader.toBinary (mainHeader z'))) in *.
  assert (Lfixed : len fixed = ENDHDR).
  { unfold len, fixed. rewrite length_take, length_toBinary.
    unfold ENDHDR. lia. }
  rewrite Hoff, Hsize in Hfound, Hbelow.
  unfold open, readMainHeader. cbn [inBuffer initial]. rewrite Hfound.
  rewrite bitnot_below by lia.
  unfold load_end_record. cbn [inBuffer initial].
  assert (Hslice : slice out (len (data_section es)
                              + len (central_directory es))
                     (len (data_section es) + len (central_directory es)
                      + ENDHDR) = fixed).
  { rewrite Hout, Hend, app_assoc.
    apply slice_at; rewrite ?len_app; lia. }
  rewrite Hslice. unfold fixed. rewrite loadFromBinary_toBinary.
  set (z0 := if MainHeader.commentLength (Wrap.main (mainHeader z')) =? 0
             then _ else _).
  assert (Hz0 : mainHeader z0 = Wrap.main (mainHeader z')
                ∧ inBuffer z0 = out)
    by (unfold z0; destruct (_ =? 0); done).
  destruct Hz0 as (Hmh0 & Hbuf0). clearbody z0.
  unfold readEntries.
  set (zi := with_entryList _ _).
  assert (Hzi : mainHeader zi = Wrap.main (mainHeader z')
                ∧ inBuffer zi = out ∧ entries zi = []).
  { unfold zi. split; [exact Hmh0 |]. split; [exact Hbuf0 |].
    unfold entries, array, set_array. simpl.
    by rewrite lookup_total_insert_eq. }
  destruct Hzi as (Hmhi & Hbufi & Henti).
  rewrite Hmhi.
  assert (Hn : Z.to_nat (MainHeader.diskEntries (Wrap.main (mainHeader z')))
               = length (map fst es)).
  { cbn [Wrap.main MainHeader.diskEntries]. rewrite Hdisk.
    rewrite Z.mod_small by lia. rewrite length_map, Hlen. lia. }
  assert (Hstart : MainHeader.offset (Wrap.main (mainHeader z'))
                   = len (data_section es)).
  { cbn [Wrap.main MainHeader.offset]. rewrite Hoff.
    apply Z.mod_small. pose proof (len_nonneg (data_section es)). lia. }
  rewrite Hn, Hstart.
  destruct (readEntries_loop_records (map fst es) (data_section es)
              (end_record z') zi) as (z2 & E2 & Hobj);
    [rewrite Hbufi, Hout, Hcd; done | exact Hrec |].
  exists z2. split; [exact E2 |].
  apply readEntries_loop_inv in E2 as (E21 & _).
  rewrite Henti, app_nil_l in E21.
  assert (Hinfo2 : entry_infos z2 = map (λ w, entry_info w.1) es).
  { unfold entry_infos. rewrite E21.
    apply list_eq. intros i. rewrite !list_lookup_fmap.
    destruct (es !! i) as [w|] eqn:Ei.
    - rewrite lookup_seq_lt
        by (rewrite length_map; by apply lookup_lt_Some in Ei).
      cbn [fmap option_fmap option_map]. f_equal.
      rewrite (Hobj i w.1) by (by rewrite list_lookup_fmap, Ei).
      apply entry_info_reread.
      eapply Forall_lookup_1 in Hrec as [_ Hf];
        [exact Hf | by rewrite list_lookup_fmap, Ei].
    - rewrite lookup_seq_ge; [done |].
      rewrite length_map. by apply lookup_ge_None in Ei. }
  split; [by rewrite Hinfo2, Hinfo1 |].
  by rewrite Hinfo2, <- Hinfo1.
Qed.

End RoundTripClaim.

Section Located.
Context `{Collaborators}.
Import Buffer Constants.

(** [open] once the end record is located and decoded: the loop of
    [readEntries] is entered with an empty entry list. *)
Lemma open_located (b : bytes) (e : Z) (mh : MainHeader.t) :
  findEndOffset b = e → 0 <= e < 4294967295 →
  MainHeader.loadFromBinary (slice b e (e + ENDHDR)) = Some mh →
  ∃ zi, open b
        = readEntries_loop (Z.to_nat (MainHeader.diskEntries mh))
            (MainHeader.offset mh) zi
        ∧ entries zi = [] ∧ nextRef zi = 2%nat ∧ inBuffer zi = b
        ∧ mainHeader zi = mh
        ∧ _comment zi = (if MainHeader.commentLength mh =? 0 then alloc 0
                         else slice_from b (e + ENDHDR)).
Proof.
  intros He Hpos Hmh. unfold open, readMainHeader. cbn [inBuffer initial].
  rewrite He, bitnot_below by done.
  unfold load_end_record. cbn [inBuffer initial]. rewrite Hmh.
  unfold readEntries.
  set (z0 := if MainHeader.commentLength mh =? 0 then _ else _).
  set (zi := with_entryList _ _).
  assert (Hz0 : mainHeader z0 = mh ∧ inBuffer z0 = b ∧ nextRef z0 = 1%nat
                ∧ _comment z0 = (if MainHeader.commentLength mh =? 0
                                 then alloc 0
                                 else slice_from b (e + ENDHDR)))
    by (unfold z0; destruct (_ =? 0); done).
  destruct Hz0 as (M0 & B0 & N0 & C0).
  assert (Mi : mainHeader zi = mh) by exact M0.
  exists zi. split; [by rewrite Mi |].
  split; [unfold zi, entries, array, set_array; simpl;
          by rewrite lookup_total_insert_eq |].
  split; [unfold zi; simpl; by rewrite N0 |].
  split; [exact B0 |]. split; [exact Mi | exact C0].
Qed.

End Located.

(** ** A large archive *)

Lemma Ascii_getCompressedData_keeps (e : ZipEntry) :
  (getCompressedData e).1 = e.
Proof.
  change ((Ascii.getCompressedData e).1 = e). unfold Ascii.getCompressedData.
  destruct (Buffer.readUInt16LE _ _); [| done].
  destruct (Buffer.readUInt16LE _ _); done.
Qed.

Section LargeArchive.
Import Buffer Constants.
Import String.StringSyntax.
Local Open Scope string_scope.
Variable P : bytes.
Hypothesis HP : len P = 101010225.

Lemma len_big_local : len Ascii.big_local = 47.
Proof. reflexivity. Qed.

Lemma len_big_central : len Ascii.big_central = 47.
Proof. reflexivity. Qed.

Lemma big_with_end :
  Ascii.big_with P
  = (Ascii.big_local ++ P ++ Ascii.big_central)
    ++ take 22 Ascii.big_end ++ alloc 16.
Proof. unfold Ascii.big_with. by rewrite <- !app_assoc. Qed.

Lemma len_big_data : len (Ascii.big_local ++ P ++ Ascii.big_central) = 101010319.
Proof. rewrite !len_app, HP, len_big_local, len_big_central. reflexivity. Qed.

Lemma findEndOffset_big_with : findEndOffset (Ascii.big_with P) = 101010319.
Proof.
  assert (F0 : findEndOffset Ascii.big_end = 0) by (vm_compute; reflexivity).
  unfold Ascii.big_with.
  replace (Ascii.big_local ++ P ++ Ascii.big_central ++ Ascii.big_end)
    with ((Ascii.big_local ++ P ++ Ascii.big_central) ++ Ascii.big_end)
    by (by rewrite <- !app_assoc).
  rewrite findEndOffset_app by (rewrite F0; lia).
  rewrite F0, len_big_data. reflexivity.
Qed.

Lemma open_big_with :
  ∃ z1, open (Ascii.big_with P) = Ok z1
        ∧ entries z1 = [2%nat]
        ∧ object z1 2 = reread (Ascii.big_with P) Ascii.big_entry
        ∧ mainHeader z1
          = {| MainHeader.diskEntries := 1; MainHeader.totalEntries := 1;
               MainHeader.size := 47; MainHeader.offset := 101010272;
               MainHeader.commentLength := 16 |}
        ∧ _comment z1 = alloc 16.
Proof.
  set (b := Ascii.big_with P).
  set (mh := {| MainHeader.diskEntries := 1; MainHeader.totalEntries := 1;
                MainHeader.size := 47; MainHeader.offset := 101010272;
                MainHeader.commentLength := 16 |}).
  assert (Hslice : slice b 101010319 (101010319 + ENDHDR)
                   = take 22 Ascii.big_end).
  { unfold b. rewrite big_with_end.
    apply slice_at; rewrite len_big_data; reflexivity. }
  assert (Hmh : MainHeader.loadFromBinary (slice b 101010319
                                              (101010319 + ENDHDR))
                = Some mh)
    by (rewrite Hslice; vm_compute; reflexivity).
  destruct (open_located b 101010319 mh findEndOffset_big_with
              ltac:(lia) Hmh) as (zi & Eopen & Ei & Ni & Bi & Mi & Ci).
  change (Z.to_nat (MainHeader.diskEntries mh))
    with (length [Ascii.big_entry]) in Eopen.
  change (MainHeader.offset mh) with 101010272 in Eopen.
  replace 101010272 with (len (Ascii.big_local ++ P)) in Eopen
    by (rewrite len_app, HP, len_big_local; reflexivity).
  assert (Hcd : concat (map packHeader [Ascii.big_entry]) = Ascii.big_central)
    by (vm_compute; reflexivity).
  destruct (readEntries_loop_records [Ascii.big_entry]
              (Ascii.big_local ++ P) Ascii.big_end zi) as (z1 & E1 & Hobj).
  { rewrite Bi, Hcd. unfold b, Ascii.big_with. by rewrite <- app_assoc. }
  { constructor; [| constructor]. split.
    - unfold complete. simpl. auto.
    - unfold fits. simpl. lia. }
  exists z1. split; [rewrite Eopen; exact E1 |].
  pose proof (Hobj O Ascii.big_entry eq_refl) as Hobj0.
  rewrite Ni, Bi in Hobj0.
  apply readEntries_loop_inv in E1 as (I1 & _ & I3 & I4 & _).
  rewrite Ei, Ni in I1.
  split; [exact I1 |]. split; [exact Hobj0 |].
  split; [by rewrite I3 |].
  rewrite I4, Ci.
  change (MainHeader.commentLength mh =? 0) with false. cbv iota.
  unfold b. rewrite big_with_end, app_assoc.
  replace (101010319 + ENDHDR)
    with (len ((Ascii.big_local ++ P ++ Ascii.big_central)
               ++ take 22 Ascii.big_end) + 0)
    by (rewrite len_app, len_big_data; reflexivity).
  rewrite slice_from_app_r by lia. reflexivity.
Qed.

Lemma complete_big_entry (buf : bytes) :
  complete (reread buf Ascii.big_entry)
  ∧ fits (header (reread buf Ascii.big_entry)).
Proof.
  split; [unfold complete; simpl; auto |].
  vm_compute. repeat split; (discriminate || reflexivity).
Qed.

(** The payload of the entry is found behind its local header. *)
Lemma payload_big_entry :
  (getCompressedData (reread (Ascii.big_with P) Ascii.big_entry)).2 = P.
Proof.
  change (getCompressedData (reread (Ascii.big_with P) Ascii.big_entry))
    with (Ascii.getCompressedData (reread (Ascii.big_with P) Ascii.big_entry)).
  unfold Ascii.getCompressedData.
  change (input (reread (Ascii.big_with P) Ascii.big_entry))
    with (Ascii.big_with P).
  change (EntryHeader.offset (header (reread (Ascii.big_with P)
                                        Ascii.big_entry))) with 0.
  change (EntryHeader.compressedSize
            (header (reread (Ascii.big_with P) Ascii.big_entry)))
    with 101010225.
  assert (R1 : readUInt16LE (Ascii.big_with P) (0 + LOCNAM) = Some 1)
    by (vm_compute; reflexivity).
  assert (R2 : readUInt16LE (Ascii.big_with P) (0 + LOCEXT) = Some 16)
    by (vm_compute; reflexivity).
  rewrite R1, R2. cbn [snd]. unfold Ascii.big_with.
  apply slice_at; rewrite ?len_big_local, ?HP; reflexivity.
Qed.

(** Serialized and opened again, the archive has no entry: the scan stops
    16 bytes into the end record, at the field [offset], which now holds
    the signature. *)
Lemma reopen_big_with :
  ∃ z1 z2,
    open (Ascii.big_with P) = Ok z1
    ∧ (∀ r, r ∈ entries z1 → complete (object z1 r))
    ∧ entry_infos z1
      = [(Ascii.raw "a", 101010225, 101010225, 0x13015e20)]
    ∧ MainHeader.offset (mainHeader (compressToBuffer z1).1) = 0x06054b50
    ∧ MainHeader.size (mainHeader (compressToBuffer z1).1) = 47
    ∧ findEndOffset (compressToBuffer z1).2 = 0x06054b50 + 47 + 16
    ∧ open (compressToBuffer z1).2 = Ok z2
    ∧ entry_infos z2 = [].
Proof.
  destruct open_big_with as (z1 & Eo & Ent & Obj & Mh & Cm).
  set (b := Ascii.big_with P) in *.
  destruct (complete_big_entry b) as [Hc Hf].
  assert (Hnd : NoDup (entries z1)) by (rewrite Ent; apply NoDup_singleton).
  destruct (compressToBuffer_written z1) as
    (es & HF & Hperm & Hout & Hoff & Hsize & Hdisk & Htot & Hcl & Hcm);
    [rewrite Mh; simpl; lia | exact Hnd |].
  set (z' := (compressToBuffer z1).1) in *.
  set (out := (compressToBuffer z1).2) in *.
  rewrite Ent in Hperm. apply Permutation_singleton_r in Hperm.
  rewrite Hperm in HF.
  apply Forall2_cons_inv_l in HF as (w & es' & [_ (off & Hw)] & HF & ->).
  apply Forall2_nil_inv_l in HF as ->.
  rewrite Obj in Hw.
  assert (Hw1 : w.1 = set_header (reread b Ascii.big_entry)
                        (EntryHeader.set_offset
                           (header (reread b Ascii.big_entry)) off)).
  { rewrite Hw. unfold prepared. cbn [fst].
    by rewrite Ascii_getCompressedData_keeps. }
  assert (Hw2 : w.2 = P).
  { rewrite Hw. unfold prepared. cbn [snd]. apply payload_big_entry. }
  assert (Lds : len (data_section [w]) = 0x06054b50).
  { unfold data_section. cbn [map concat]. rewrite app_nil_r.
    unfold local_block. rewrite !len_app, Hw2, HP.
    unfold len at 1. rewrite length_dataHeaderToBinary.
    rewrite Hw1, postHeader_sync_set_header.
    assert (Lp : len (postHeader_sync (reread b Ascii.big_entry)) = 1)
      by (vm_compute; reflexivity).
    rewrite Lp. reflexivity. }
  assert (Lcd : len (central_directory [w]) = 47).
  { unfold central_directory. cbn [map concat]. rewrite app_nil_r.
    rewrite len_packHeader by (by rewrite Hw1).
    rewrite Hw1. reflexivity. }
  rewrite Lds in Hoff. rewrite Lcd in Hsize. rewrite Mh in Hdisk, Htot, Hcl.
  cbn [MainHeader.diskEntries MainHeader.totalEntries
         MainHeader.commentLength] in Hdisk, Htot, Hcl.
  set (mh' := {| MainHeader.diskEntries := 1; MainHeader.totalEntries := 1;
                 MainHeader.size := 47; MainHeader.offset := 0x06054b50;
                 MainHeader.commentLength := 16 |}).
  assert (Mh' : mainHeader z' = mh').
  { destruct (mainHeader z') as [d t s o c]. simpl in *. unfold mh'.
    congruence. }
  set (E0 := copy (alloc 16) (MainHeader.toBinary mh') ENDHDR).
  assert (Hend : end_record z' = E0)
    by (unfold end_record; by rewrite Hcm, Cm, Mh').
  assert (F0 : findEndOffset E0 = 16) by (vm_compute; reflexivity).
  assert (LX : len (data_section [w] ++ central_directory [w]) = 101010303)
    by (rewrite len_app, Lds, Lcd; reflexivity).
  rewrite Hend, app_assoc in Hout.
  assert (Hfind : findEndOffset out = 0x06054b50 + 47 + 16).
  { rewrite Hout, findEndOffset_app by (rewrite F0; lia).
    rewrite F0, LX. reflexivity. }
  set (mh2 := {| MainHeader.diskEntries := 0; MainHeader.totalEntries := 0;
                 MainHeader.size := 0; MainHeader.offset := 0;
                 MainHeader.commentLength := 0 |}).
  assert (Hmh2 : MainHeader.loadFromBinary
                   (slice out (0x06054b50 + 47 + 16)
                      (0x06054b50 + 47 + 16 + ENDHDR)) = Some mh2).
  { rewrite Hout.
    replace (0x06054b50 + 47 + 16)
      with (len (data_section [w] ++ central_directory [w]) + 16)
      by (rewrite LX; reflexivity).
    rewrite <- Z.add_assoc, slice_app_r by (unfold ENDHDR; lia).
    vm_compute. reflexivity. }
  destruct (open_located out _ mh2 Hfind ltac:(lia) Hmh2)
    as (z2 & Eopen & Ei & _).
  exists z1, z2.
  split; [exact Eo |].
  split.
  { intros r Hr. rewrite Ent in Hr.
    apply elem_of_cons in Hr as [->|Hr]; [by rewrite Obj |].
    apply elem_of_nil in Hr. destruct Hr. }
  split.
  { unfold entry_infos. rewrite Ent. cbn [map]. rewrite Obj.
    reflexivity. }
  split; [exact Hoff |]. split; [exact Hsize |]. split; [exact Hfind |].
  split; [change (open out = Ok z2); rewrite Eopen; reflexivity |].
  unfold entry_infos. by rewrite Ei.
Qed.

End LargeArchive.

(** * The statements on concrete containers *)

Import String.StringSyntax.
Local Open Scope string_scope.

Lemma table_names_two : table_names Ascii.two.
Proof. unfold table_names. apply (bool_decide_unpack _). by vm_compute. Qed.

Lemma C6_witness :
  table_names Ascii.two
  ∧ ((∀ entry,
        MainHeader.totalEntries (mainHeader (setEntry entry Ascii.two))
        = Z.of_nat (length (entries (setEntry entry Ascii.two))))
     ∧ (∀ name, ∃ z',
          deleteEntry name Ascii.two = Some z'
          ∧ MainHeader.totalEntries (mainHeader z')
            = Z.of_nat (length (entries z')))).
Proof.
  split; [exact table_names_two |].
  exact (C6_totalEntries_is_length Ascii.two table_names_two).
Defined.

Lemma C10_witness :
  entryTable Ascii.two !! Ascii.js "zz" = None
  ∧ ∃ z', deleteEntry (Ascii.js "zz") Ascii.two = Some z'
          ∧ (∀ l x, entries Ascii.two = l ++ [x] → entries z' = l)
          ∧ (entries Ascii.two = [] → entries z' = [])
          ∧ entryTable z' = entryTable Ascii.two
          ∧ MainHeader.totalEntries (mainHeader z')
            = Z.of_nat (length (entries z')).
Proof.
  assert (Habsent : entryTable Ascii.two !! Ascii.js "zz" = None)
    by (vm_compute; reflexivity).
  split; [exact Habsent |].
  exact (C10_deleteEntry_absent_name_drops_last Ascii.two (Ascii.js "zz")
           Habsent).
Defined.

Lemma C7_witness :
  entryTable Ascii.two_fresh !! Ascii.js "b" = Some 2%nat
  ∧ 2%nat ∈ entries Ascii.two_fresh
  ∧ entryName (object Ascii.two_fresh 4%nat) = Ascii.js "b"
  ∧ (entryTable (setEntry 4%nat Ascii.two_fresh) !! Ascii.js "b"
     = Some 4%nat
     ∧ entries (setEntry 4%nat Ascii.two_fresh)
       = entries Ascii.two_fresh ++ [4%nat]
     ∧ 2%nat ∈ entries (setEntry 4%nat Ascii.two_fresh)
     ∧ ((size (entryTable Ascii.two_fresh)
         ≤ length (entries Ascii.two_fresh))%nat →
        (size (entryTable (setEntry 4%nat Ascii.two_fresh))
         < length (entries (setEntry 4%nat Ascii.two_fresh)))%nat)).
Proof.
  assert (H1 : entryTable Ascii.two_fresh !! Ascii.js "b"
               = Some 2%nat) by (vm_compute; reflexivity).
  assert (H2 : 2%nat ∈ entries Ascii.two_fresh)
    by (apply (bool_decide_unpack _); vm_compute; exact I).
  assert (H3 : entryName (object Ascii.two_fresh 4%nat)
               = Ascii.js "b") by (vm_compute; reflexivity).
  split; [exact H1 |]. split; [exact H2 |]. split; [exact H3 |].
  exact (C7_setEntry_same_name_keeps_old Ascii.two_fresh
           (Ascii.js "b") 2%nat 4%nat H1 H2 H3).
Defined.

(** C7 as stated fails: in the container the calls [setEntry(b)],
    [setEntry(a)], [deleteEntry("zz")] leave, the list is [b] and the table
    holds "a" and "b"; after [setEntry] of a second entry named "b" the
    list has two elements and the table two keys. *)
Lemma C7_counterexample :
  entryTable Ascii.shrunk !! Ascii.js "b" = Some 2%nat
  ∧ 2%nat ∈ entries Ascii.shrunk
  ∧ entryName (object Ascii.shrunk 4%nat) = Ascii.js "b"
  ∧ entryTable (setEntry 4%nat Ascii.shrunk) !! Ascii.js "b"
    = Some 4%nat
  ∧ entries (setEntry 4%nat Ascii.shrunk) = [2%nat; 4%nat]
  ∧ ¬ (size (entryTable (setEntry 4%nat Ascii.shrunk))
       < length (entries (setEntry 4%nat Ascii.shrunk)))%nat.
Proof.
  assert (E : entries Ascii.shrunk = [2%nat]) by (vm_compute; reflexivity).
  split; [vm_compute; reflexivity |].
  split; [rewrite E; by left |].
  split; [vm_compute; reflexivity |].
  split; [vm_compute; reflexivity |].
  split; [vm_compute; reflexivity |].
  vm_compute. lia.
Qed.

(** C5: what [deleteEntry("dir/")] does on the list "dir/", "dir/sub/",
    "dir/sub/x", "zzz".  The call made for "dir/sub/" already deletes
    "dir/sub/x"; the later call for "dir/sub/x" finds no such name and
    removes the last element of the list, "zzz", which stays in the
    table. *)
Lemma C5_deleteEntry_directory_drops_unrelated :
  map (λ r, entryName (object Ascii.nested r)) (entries Ascii.nested)
  = [Ascii.js "dir/"; Ascii.js "dir/sub/";
     Ascii.js "dir/sub/x"; Ascii.js "zzz"]
  ∧ getEntry (Ascii.js "dir/") Ascii.nested = Some 2%nat
  ∧ isDirectory (object Ascii.nested 2%nat) = true
  ∧ take 4 (Ascii.js "zzz") ≠ Ascii.js "dir/"
  ∧ ∃ z', deleteEntry (Ascii.js "dir/") Ascii.nested = Some z'
          ∧ entries z' = []
          ∧ getEntry (Ascii.js "zzz") z' = Some 5%nat.
Proof.
  split; [vm_compute; reflexivity |].
  split; [vm_compute; reflexivity |].
  split; [vm_compute; reflexivity |].
  split; [vm_compute; discriminate |].
  eexists. split; [vm_compute; reflexivity |].
  split; vm_compute; reflexivity.
Qed.

Lemma C8_witness :
  0 <= MainHeader.commentLength (mainHeader Ascii.sample)
  ∧ ∃ es : list (ZipEntry * bytes),
      length es = 3%nat
      ∧ (compressToBuffer Ascii.sample).2
        = data_section es ++ central_directory es
          ++ end_record (compressToBuffer Ascii.sample).1
      ∧ MainHeader.offset (mainHeader (compressToBuffer Ascii.sample).1)
        = Buffer.len (data_section es)
      ∧ Buffer.len (compressToBuffer Ascii.sample).2
        = Buffer.len (data_section es) + Buffer.len (central_directory es)
          + (Constants.ENDHDR
             + MainHeader.commentLength (mainHeader Ascii.sample)).
Proof.
  assert (Hcl : 0 <= MainHeader.commentLength (mainHeader Ascii.sample))
    by (vm_compute; discriminate).
  split; [exact Hcl |].
  destruct (C8_compressToBuffer_sorts_and_lays_out Ascii.sample Hcl)
    as (_ & _ & _ & _ & es & Hlen & _ & Hout & _ & Hoff & _ & Htotal & _).
  exists es. split; [| split; [exact Hout | split; [exact Hoff | exact Htotal]]].
  rewrite Hlen. vm_compute. reflexivity.
Defined.


(** C1 on the archive of "b.txt", "A/" and "a/c": its serialization has
    the data section of 107 bytes, the central directory of 148 bytes and
    the end record at 255, where the scan finds it. *)
Lemma C1_witness :
  open Ascii.sample_zip = Ok Ascii.sample
  ∧ (∀ r, r ∈ entries Ascii.sample → complete (object Ascii.sample r))
  ∧ findEndOffset (compressToBuffer Ascii.sample).2 = 255
  ∧ MainHeader.offset (mainHeader (compressToBuffer Ascii.sample).1) = 107
  ∧ MainHeader.size (mainHeader (compressToBuffer Ascii.sample).1) = 148
  ∧ ∃ z2, open (compressToBuffer Ascii.sample).2 = Ok z2
          ∧ entry_infos z2 = entry_infos (compressToBuffer Ascii.sample).1
          ∧ entry_infos z2 ≡ₚ entry_infos Ascii.sample.
Proof.
  assert (E : entries Ascii.sample = [2%nat; 3%nat; 4%nat])
    by (vm_compute; reflexivity).
  assert (H1 : open Ascii.sample_zip = Ok Ascii.sample)
    by (vm_compute; reflexivity).
  assert (H2 : ∀ r, r ∈ entries Ascii.sample →
                    complete (object Ascii.sample r)).
  { intros r Hr. rewrite E in Hr.
    apply elem_of_cons in Hr as [->|Hr]; [vm_compute; auto |].
    apply elem_of_cons in Hr as [->|Hr]; [vm_compute; auto |].
    apply elem_of_cons in Hr as [->|Hr]; [vm_compute; auto |].
    apply elem_of_nil in Hr. destruct Hr. }
  assert (H3 : findEndOffset (compressToBuffer Ascii.sample).2 = 255)
    by (vm_compute; reflexivity).
  assert (H4 : MainHeader.offset (mainHeader (compressToBuffer Ascii.sample).1)
               = 107) by (vm_compute; reflexivity).
  assert (H5 : MainHeader.size (mainHeader (compressToBuffer Ascii.sample).1)
               = 148) by (vm_compute; reflexivity).
  split; [exact H1 |]. split; [exact H2 |]. split; [exact H3 |].
  split; [exact H4 |]. split; [exact H5 |].
  apply (C1_reopen_serialized_same_entries Ascii.sample_zip Ascii.sample H1 H2).
  - intros r _. apply Ascii_getCompressedData_keeps.
  - rewrite H3, H4, H5. reflexivity.
  - rewrite H4, H5. reflexivity.
Defined.

Lemma len_big_payload : Buffer.len Ascii.big_payload = 101010225.
Proof.
  unfold Buffer.len, Ascii.big_payload, Buffer.alloc.
  rewrite length_replicate. apply Z2Nat.id. lia.
Qed.

(** C1 as stated fails on [Ascii.big_zip], a well-formed archive of one
    stored entry whose local header has 16 bytes of extra field the central
    record does not have.  [compressToBuffer] writes the local extra field
    from the central one, so the data section shrinks by 16 bytes to
    0x06054b50 bytes, and the field [offset] of the new end record spells the
    signature.  With the 16 bytes of comment behind it the scan of the new
    buffer stops there, 16 bytes into the end record, and reads an end
    record of no entries. *)
Lemma C1_counterexample :
  ∃ z1 z2,
    open Ascii.big_zip = Ok z1
    ∧ (∀ r, r ∈ entries z1 → complete (object z1 r))
    ∧ (∀ r, r ∈ entries z1 →
         (getCompressedData (object z1 r)).1 = object z1 r)
    ∧ entry_infos z1 = [(Ascii.raw "a", 101010225, 101010225, 0x13015e20)]
    ∧ MainHeader.offset (mainHeader (compressToBuffer z1).1) = 0x06054b50
    ∧ MainHeader.size (mainHeader (compressToBuffer z1).1) = 47
    ∧ findEndOffset (compressToBuffer z1).2 = 0x06054b50 + 47 + 16
    ∧ open (compressToBuffer z1).2 = Ok z2
    ∧ entry_infos z2 = [].
Proof.
  destruct (reopen_big_with Ascii.big_payload len_big_payload)
    as (z1 & z2 & H1 & H2 & H3 & H4 & H5 & H6 & H7 & H8).
  exists z1, z2.
  split; [exact H1 |]. split; [exact H2 |].
  split; [intros r _; apply Ascii_getCompressedData_keeps |].
  split; [exact H3 |]. split; [exact H4 |]. split; [exact H5 |].
  split; [exact H6 |]. split; [exact H7 | exact H8].
Qed.




(** * Further properties of the container *)

(** ** Locating the end record *)

Section LocateMore.
Context `{Collaborators}.
Import Buffer Constants.

(** X1.  A buffer shorter than the 22 bytes of an end record is refused
    with [INVALID_FORMAT]: the scan starts below offset 0 and tests no
    offset. *)
Theorem X1_open_short_buffer_INVALID_FORMAT (b : bytes)
    (Hshort : len b < ENDHDR) :
  open b = Throw INVALID_FORMAT.
Proof.
  unfold open, readMainHeader. cbn [inBuffer initial].
  assert (E : findEndOffset b = -1).
  { unfold findEndOffset.
    destruct (Z.ltb_spec (len b - ENDHDR) (Z.max 0 (len b - ENDHDR - 65535)));
      [reflexivity | lia]. }
  by rewrite E.
Qed.

(** X2.  Bytes put in front of a buffer in which the scan finds an end
    record shift the offset found by their number, and the 22 bytes decoded
    there are the same: where the end record is found does not depend on
    what precedes the archive. *)
Theorem X2_prefix_shifts_end_offset (X T : bytes)
    (Hfound : 0 <= findEndOffset T) :
  findEndOffset (X ++ T) = len X + findEndOffset T
  ∧ slice (X ++ T) (findEndOffset (X ++ T)) (findEndOffset (X ++ T) + ENDHDR)
    = slice T (findEndOffset T) (findEndOffset T + ENDHDR).
Proof.
  rewrite findEndOffset_app by done. split; [done |].
  rewrite <- Z.add_assoc. apply slice_app_r; unfold ENDHDR; lia.
Qed.

End LocateMore.

Lemma X1_witness : open [x50; x4b; x05; x06] = Throw INVALID_FORMAT.
Proof. apply X1_open_short_buffer_INVALID_FORMAT. reflexivity. Defined.

Lemma X2_witness :
  findEndOffset ([x4d; x5a; x90] ++ Ascii.sample_zip)
  = 3 + findEndOffset Ascii.sample_zip
  ∧ Buffer.slice ([x4d; x5a; x90] ++ Ascii.sample_zip)
      (findEndOffset ([x4d; x5a; x90] ++ Ascii.sample_zip))
      (findEndOffset ([x4d; x5a; x90] ++ Ascii.sample_zip) + Constants.ENDHDR)
    = Buffer.slice Ascii.sample_zip (findEndOffset Ascii.sample_zip)
        (findEndOffset Ascii.sample_zip + Constants.ENDHDR).
Proof.
  apply (X2_prefix_shifts_end_offset [x4d; x5a; x90] Ascii.sample_zip).
  vm_compute. discriminate.
Defined.

(** ** The list and the table after [open] *)

Section OpenAgreement.
Context `{Collaborators}.
Import Buffer Constants.

Lemma entryTable_store_entry (e : ZipEntry) (z : ZipFile) :
  entryTable (store_entry e z) = <[entryName e := nextRef z]> (entryTable z).
Proof. reflexivity. Qed.

Lemma store_entry_agreement (e : ZipEntry) (z : ZipFile) :
  allocated z → table_names z → listed z → last_wins z →
  allocated (store_entry e z) ∧ table_names (store_entry e z)
  ∧ listed (store_entry e z) ∧ last_wins (store_entry e z).
Proof.
  intros Ha Hn Hl Hw.
  assert (Hold : ∀ r, r ∈ entries z →
                      object (store_entry e z) r = object z r).
  { intros r Hr. rewrite object_store_entry.
    destruct (decide (r = nextRef z)) as [->|]; [| done].
    unfold allocated in Ha. rewrite Forall_forall in Ha.
    specialize (Ha _ Hr). lia. }
  assert (Hnew : object (store_entry e z) (nextRef z) = e)
    by (rewrite object_store_entry; by rewrite decide_True).
  split; [| split; [| split]].
  - unfold allocated. rewrite entries_store_entry. cbn [nextRef store_entry].
    apply Forall_app. split.
    + eapply Forall_impl; [exact Ha |]. simpl. intros r Hr.
      change (nextRef (store_entry e z)) with (S (nextRef z)). lia.
    + constructor; [| constructor].
      change (nextRef (store_entry e z)) with (S (nextRef z)). lia.
  - unfold table_names. rewrite entryTable_store_entry.
    apply map_Forall_insert_2; [by rewrite Hnew |].
    intros k r E. rewrite Hold by (by eapply Hl). by apply Hn.
  - intros k r. rewrite entryTable_store_entry, entries_store_entry.
    intros E. apply lookup_insert_Some in E as [[_ <-]|[_ E]].
    + apply elem_of_app. right. by left.
    + apply elem_of_app. left. by eapply Hl.
  - intros i r. rewrite entries_store_entry, entryTable_store_entry.
    intros Ei Hlast.
    destruct (decide (i < length (entries z))%nat) as [Hlt|Hge].
    + rewrite lookup_app_l in Ei by done.
      assert (Hr : r ∈ entries z) by (by eapply list_elem_of_lookup_2).
      rewrite (Hold r Hr).
      assert (Hne : entryName e ≠ entryName (object z r)).
      { rewrite <- Hnew, <- (Hold r Hr).
        apply (Hlast (length (entries z))); [done |].
        by rewrite lookup_app_r, Nat.sub_diag by lia. }
      rewrite lookup_insert_ne by done.
      apply (Hw i r Ei). intros j r' Hij Ej.
      assert (Hr' : r' ∈ entries z) by (by eapply list_elem_of_lookup_2).
      rewrite <- (Hold r Hr), <- (Hold r' Hr').
      apply (Hlast j r' Hij). by apply lookup_app_l_Some.
    + rewrite lookup_app_r in Ei by lia.
      apply list_lookup_singleton_Some in Ei as [_ <-].
      rewrite Hnew. by rewrite lookup_insert_eq.
Qed.

Lemma input_read_record (buf : bytes) (index : Z) (h : EntryHeader.t) :
  input (read_record buf index h) = buf.
Proof. reflexivity. Qed.

Lemma readEntries_loop_agreement (n : nat) :
  ∀ (index : Z) (z z' : ZipFile),
    readEntries_loop n index z = Ok z' →
    allocated z → table_names z → listed z → last_wins z →
    (∀ r, r ∈ entries z → input (object z r) = inBuffer z) →
    table_names z' ∧ listed z' ∧ last_wins z'
    ∧ (∀ r, r ∈ entries z' → input (object z' r) = inBuffer z').
Proof.
  induction n as [|n IH]; intros index z z' E Ha Hn Hl Hw Hi.
  - injection E as <-. done.
  - rewrite readEntries_loop_S in E.
    destruct (EntryHeader.loadFromBinary _) as [h|]; [| done].
    set (e := read_record (inBuffer z) index h) in *.
    destruct (store_entry_agreement e z Ha Hn Hl Hw) as (Ha' & Hn' & Hl' & Hw').
    apply (IH _ _ _ E Ha' Hn' Hl' Hw').
    intros r. rewrite entries_store_entry, object_store_entry.
    intros Hr. destruct (decide (r = nextRef z)) as [->|Hne]; [done |].
    apply elem_of_app in Hr as [Hr|Hr]; [by apply Hi |].
    apply elem_of_cons in Hr as [->|Hr]; [done |].
    by apply elem_of_nil in Hr.
Qed.

Lemma last_wins_bound (z : ZipFile) :
  last_wins z →
  NoDup (map (λ r, entryName (object z r)) (entries z)) → bound z.
Proof.
  intros Hw Hnd r Hr. apply list_elem_of_lookup in Hr as [i Ei].
  apply (Hw i r Ei). intros j r' Hij Ej E.
  assert (i = j); [| lia].
  eapply NoDup_lookup; [exact Hnd | |].
  - rewrite list_lookup_fmap, Ei. reflexivity.
  - rewrite list_lookup_fmap, Ej. simpl. by rewrite E.
Qed.

(** X3.  The container [open] returns: the entry list has
    [mainHeader.diskEntries] elements, all different objects reading from
    the buffer given; every key of the table is the name of the entry it
    gives, which is in the list; the table gives for a name the last
    element of the list with this name, and so, when no two elements have
    the same name, for the name of every element that element. *)
Theorem X3_open_builds_list_and_table (b : bytes) (z : ZipFile)
    (Hopen : open b = Ok z) :
  inBuffer z = b
  ∧ Z.of_nat (length (entries z)) = MainHeader.diskEntries (mainHeader z)
  ∧ NoDup (entries z)
  ∧ (∀ r, r ∈ entries z → input (object z r) = b)
  ∧ table_names z ∧ listed z ∧ last_wins z
  ∧ (NoDup (map (λ r, entryName (object z r)) (entries z)) → bound z).
Proof.
  destruct (open_facts b z Hopen) as (Hnd & Hcount & _).
  revert Hopen. unfold open, readMainHeader.
  destruct (bitnot (findEndOffset _) =? 0); [done |].
  unfold load_end_record.
  destruct (MainHeader.loadFromBinary _) as [mh|]; [| done].
  set (z0 := if MainHeader.commentLength mh =? 0 then _ else _).
  assert (Hb0 : inBuffer z0 = b) by (unfold z0; destruct (_ =? 0); done).
  clearbody z0. unfold readEntries. intros E.
  set (zi := with_entryList _ _) in E.
  assert (Hent : entries zi = []).
  { unfold zi, entries, array, set_array. simpl.
    by rewrite lookup_total_insert_eq. }
  assert (Hbi : inBuffer zi = b) by exact Hb0.
  assert (Htab : entryTable zi = ∅) by reflexivity.
  pose proof E as E'.
  apply readEntries_loop_inv in E' as (_ & _ & _ & _ & Hb & _).
  apply readEntries_loop_agreement in E as (Hn & Hl & Hw & Hi).
  - rewrite Hb, Hbi in Hi.
    split; [by rewrite Hb |]. split; [exact Hcount |]. split; [exact Hnd |].
    split; [exact Hi |]. split; [exact Hn |]. split; [exact Hl |].
    split; [exact Hw | by apply last_wins_bound].
  - unfold allocated. rewrite Hent. constructor.
  - unfold table_names. rewrite Htab. apply map_Forall_empty.
  - intros k r Ek. by rewrite Htab, lookup_empty in Ek.
  - intros i r Ei. by rewrite Hent, lookup_nil in Ei.
  - intros r Hr. rewrite Hent in Hr. by apply elem_of_nil in Hr.
Qed.

End OpenAgreement.

(** ** Removing and adding entries *)

Section TableMore.
Context `{Collaborators}.

Lemma index_from_notin (l : list eref) (r : eref) (i : Z) :
  r ∉ l → index_from l r i = -1.
Proof.
  revert i. induction l as [|x l IH]; intros i Hr; [done |].
  apply not_elem_of_cons in Hr as [Hne Hr]. simpl.
  destruct (Nat.eqb_spec x r) as [->|_]; [done |]. by apply IH.
Qed.

Lemma index_from_first (l1 l2 : list eref) (r : eref) (i : Z) :
  r ∉ l1 → index_from (l1 ++ r :: l2) r i = i + Z.of_nat (length l1).
Proof.
  revert i. induction l1 as [|x l1 IH]; intros i Hr; simpl.
  - rewrite Nat.eqb_refl. lia.
  - apply not_elem_of_cons in Hr as [Hne Hr].
    destruct (Nat.eqb_spec x r) as [->|_]; [done |].
    rewrite IH by done. lia.
Qed.

Lemma splice1_first (l1 l2 : list eref) (r : eref) :
  splice1 (l1 ++ r :: l2) (Z.of_nat (length l1)) = l1 ++ l2.
Proof.
  unfold splice1. rewrite length_app. simpl.
  destruct (Z.ltb_spec (Z.of_nat (length l1)) 0); [lia |].
  replace (Z.to_nat (Z.min (Z.of_nat (length l1))
                       (Z.of_nat (length l1 + S (length l2)))))
    with (length l1) by lia.
  rewrite take_app_length.
  replace (S (length l1)) with (length (l1 ++ [r]))
    by (rewrite length_app; simpl; lia).
  replace (l1 ++ r :: l2) with ((l1 ++ [r]) ++ l2) by (by rewrite <- app_assoc).
  by rewrite drop_app_length.
Qed.

Lemma deleteEntry_file (name : jsstring) (r : eref) (z : ZipFile) :
  entryTable z !! name = Some r → isDirectory (object z r) = false →
  deleteEntry name z = Some (remove_entry name (Some r) z).
Proof. intros E F. unfold deleteEntry. simpl. by rewrite E, F. Qed.

Lemma deleteEntry_rec_file (fuel : nat) (name : jsstring) (r : eref)
    (z : ZipFile) :
  entryTable z !! name = Some r → isDirectory (object z r) = false →
  deleteEntry_rec (S fuel) name z = Some (remove_entry name (Some r) z).
Proof. intros E F. simpl. by rewrite E, F. Qed.

(** X4.  [deleteEntry] of a name other than ["__proto__"] that the table
    gives an entry for that is not a directory: the call returns, the
    first occurrence of that entry leaves the entry list, the key leaves
    the table, no entry object changes and [totalEntries] is the new
    length.  When the entry the table gives is not in the list, it is the
    last element of the list that goes. *)
Theorem X4_deleteEntry_file_removes_first_occurrence (z : ZipFile)
    (name : jsstring) (r : eref)
    (Hkey : name ≠ proto_key)
    (Hbound : entryTable z !! name = Some r)
    (Hfile : isDirectory (object z r) = false) :
  ∃ z', deleteEntry name z = Some z'
        ∧ (∀ l1 l2, entries z = l1 ++ r :: l2 → r ∉ l1 →
             entries z' = l1 ++ l2)
        ∧ (r ∉ entries z → ∀ l x, entries z = l ++ [x] → entries z' = l)
        ∧ entryTable z' = delete name (entryTable z)
        ∧ objects z' = objects z
        ∧ MainHeader.totalEntries (mainHeader z')
          = Z.of_nat (length (entries z')).
Proof.
  exists (remove_entry name (Some r) z).
  split; [by apply deleteEntry_file |].
  split; [| split; [| split; [| split]]].
  - intros l1 l2 E Hr. rewrite entries_remove_entry, E. simpl.
    rewrite index_from_first by done. apply splice1_first.
  - intros Hr l x E. rewrite entries_remove_entry. simpl.
    rewrite index_from_notin by done. rewrite E. apply splice1_last.
  - reflexivity.
  - reflexivity.
  - apply totalEntries_remove_entry.
Qed.

(** X5.  [setEntry] of an entry that is not a directory, not yet in the
    list and not named ["__proto__"], followed by [deleteEntry] of its
    name, gives back the entry list and [totalEntries]; the table is left
    without the entry under this name, also when it held one before. *)
Theorem X5_setEntry_then_deleteEntry (z : ZipFile) (r : eref)
    (Hfile : isDirectory (object z r) = false)
    (Hfresh : r ∉ entries z)
    (Hkey : entryName (object z r) ≠ proto_key) :
  ∃ z', deleteEntry (entryName (object z r)) (setEntry r z) = Some z'
        ∧ entries z' = entries z
        ∧ entryTable z' = delete (entryName (object z r)) (entryTable z)
        ∧ MainHeader.totalEntries (mainHeader z')
          = Z.of_nat (length (entries z)).
Proof.
  set (name := entryName (object z r)).
  assert (Ho : ∀ x, object (setEntry r z) x = object z x) by done.
  assert (Et : entryTable (setEntry r z) = <[name := r]> (entryTable z))
    by apply entryTable_setEntry.
  exists (remove_entry name (Some r) (setEntry r z)).
  split.
  { apply deleteEntry_file; [by rewrite Et, lookup_insert_eq |].
    by rewrite Ho. }
  assert (Ee : entries (remove_entry name (Some r) (setEntry r z))
               = entries z).
  { rewrite entries_remove_entry, entries_setEntry. simpl.
    replace (entries z ++ [r]) with (entries z ++ r :: []) by done.
    rewrite index_from_first by done. rewrite splice1_first.
    apply app_nil_r. }
  assert (Etab : entryTable (remove_entry name (Some r) (setEntry r z))
                 = delete name (entryTable z)).
  { change (entryTable (remove_entry name (Some r) (setEntry r z)))
      with (delete name (entryTable (setEntry r z))).
    rewrite Et. apply delete_insert_eq. }
  split; [exact Ee |]. split; [exact Etab |].
  rewrite totalEntries_remove_entry. by rewrite Ee.
Qed.

(** X8.  That every key of the table is the name of the entry it gives is
    kept by [setEntry] and by [deleteEntry], which then returns. *)
Theorem X8_table_names_kept (z : ZipFile) (Hnames : table_names z) :
  (∀ r, table_names (setEntry r z))
  ∧ (∀ name, ∃ z', deleteEntry name z = Some z' ∧ table_names z').
Proof.
  split.
  - intros r. unfold table_names. rewrite entryTable_setEntry.
    apply map_Forall_insert_2; [done |].
    intros k x E. by apply Hnames.
  - intros name.
    destruct (deleteEntry_rec_total name z Hnames) as (z' & E & Hs & _).
    exists z'. split; [exact E |]. by eapply shrinks_table_names.
Qed.

(** *** Children of a directory *)

Lemma starts_with_refl (n : jsstring) : starts_with n n.
Proof. unfold starts_with. by rewrite take_ge. Qed.

Lemma starts_with_trans (n1 n2 s : jsstring) :
  starts_with n1 n2 → starts_with n2 s → starts_with n1 s.
Proof.
  unfold starts_with. intros E1 E2.
  assert (Hle : (length n1 ≤ length n2)%nat).
  { rewrite <- E1 at 1. rewrite length_take. lia. }
  transitivity (take (length n1) (take (length n2) s));
    [rewrite take_take; f_equal; lia | by rewrite E2].
Qed.

Lemma elem_of_getEntryChildren_iff (z : ZipFile) (d c : eref) :
  c ∈ getEntryChildren d z
  ↔ isDirectory (object z d) = true ∧ c ∈ entries z
    ∧ starts_with (entryName (object z d)) (entryName (object z c)).
Proof.
  unfold getEntryChildren, starts_with.
  destruct (isDirectory (object z d)).
  - rewrite list_elem_of_filter. tauto.
  - split; [intros Hc; by apply elem_of_nil in Hc | intros [? _]; done].
Qed.

(** X7.  [getEntryChildren] gives nothing for an entry that is not a
    directory; for a directory it gives elements of the entry list in the
    order of the list, the directory itself among them when it is in the
    list, and with a directory among them also what [getEntryChildren]
    gives for that one. *)
Theorem X7_getEntryChildren_nests (z : ZipFile) (d : eref) :
  (isDirectory (object z d) = false → getEntryChildren d z = [])
  ∧ getEntryChildren d z `sublist_of` entries z
  ∧ (isDirectory (object z d) = true → d ∈ entries z →
     d ∈ getEntryChildren d z)
  ∧ (∀ c x, c ∈ getEntryChildren d z → x ∈ getEntryChildren c z →
       x ∈ getEntryChildren d z).
Proof.
  split; [| split; [| split]].
  - intros E. unfold getEntryChildren. by rewrite E.
  - unfold getEntryChildren. destruct (isDirectory _); [| apply sublist_nil_l].
    apply sublist_filter.
  - intros Hd Hin. apply elem_of_getEntryChildren_iff.
    split; [done |]. split; [done | apply starts_with_refl].
  - intros c x Hc Hx.
    apply elem_of_getEntryChildren_iff in Hc as (Hd & _ & P1).
    apply elem_of_getEntryChildren_iff in Hx as (_ & Hx & P2).
    apply elem_of_getEntryChildren_iff.
    split; [done |]. split; [done |]. by eapply starts_with_trans.
Qed.

(** *** Deleting a directory whose children are files *)

Lemma filter_all {A} (P : A → Prop) `{∀ x, Decision (P x)} (l : list A) :
  (∀ x, x ∈ l → P x) → filter P l = l.
Proof.
  induction l as [|x l IH]; intros HP; [done |].
  rewrite filter_cons, decide_True by (apply HP; by left).
  f_equal. apply IH. intros y Hy. apply HP. by right.
Qed.

Lemma splice1_NoDup (l : list eref) (c : eref) :
  NoDup l → c ∈ l → splice1 l (index_from l c 0) = filter (λ x, x ≠ c) l.
Proof.
  intros Hnd Hc. apply list_elem_of_split in Hc as (l1 & l2 & ->).
  apply NoDup_app in Hnd as (_ & Hd & Hnd2).
  apply list.NoDup_cons in Hnd2 as [Hc2 _].
  assert (Hc1 : c ∉ l1) by (intros Hc1; apply (Hd c Hc1); by left).
  rewrite index_from_first by done. rewrite Z.add_0_l, splice1_first.
  rewrite filter_app, filter_cons, decide_False by (intros E; by apply E).
  rewrite !filter_all; [done | |]; intros x Hx ->; done.
Qed.

Lemma lookup_foldl_delete (ks : list jsstring) :
  ∀ (m : gmap jsstring eref) (k : jsstring),
    foldl (λ m k, delete k m) m ks !! k
    = if decide (k ∈ ks) then None else m !! k.
Proof.
  induction ks as [|k0 ks IH]; intros m k; simpl.
  - destruct (decide (k ∈ [])) as [Hk|]; [by apply elem_of_nil in Hk | done].
  - rewrite IH.
    destruct (decide (k ∈ ks)) as [Hin|Hnin],
             (decide (k ∈ k0 :: ks)) as [Hin'|Hnin']; try done.
    + exfalso. apply Hnin'. by right.
    + apply elem_of_cons in Hin' as [->|?]; [| done]. apply lookup_delete_eq.
    + apply lookup_delete_ne. intros ->. apply Hnin'. by left.
Qed.

Lemma deleteEntry_rec_directory (fuel : nat) (name : jsstring) (d : eref)
    (z : ZipFile) :
  entryTable z !! name = Some d → isDirectory (object z d) = true →
  deleteEntry_rec (S fuel) name z
  = (z1 ← foldl (λ acc child,
                   z' ← acc;
                   if decide (entryName (object z' child) ≠ name)
                   then deleteEntry_rec fuel (entryName (object z' child)) z'
                   else Some z')
            (Some z) (getEntryChildren d z);
     Some (remove_entry name (Some d) z1)).
Proof.
  intros E D.
  change (deleteEntry_rec (S fuel) name z)
    with (z1 ← match entryTable z !! name with
               | Some r =>
                   if isDirectory (object z r) then
                     foldl
                       (λ acc child,
                          z' ← acc;
                          if decide (entryName (object z' child) ≠ name)
                          then deleteEntry_rec fuel
                                 (entryName (object z' child)) z'
                          else Some z')
                       (Some z) (getEntryChildren r z)
                   else Some z
               | None => Some z
               end;
          Some (remove_entry name (entryTable z !! name) z1)).
  by rewrite E, D.
Qed.

(** The loop of [deleteEntry] over the children [cs] of the directory [d]
    named [name], all files but [d] itself. *)
Lemma deleteEntry_children (fuel : nat) (name : jsstring) (d : eref)
    (z : ZipFile) (cs : list eref) :
  ∀ z0,
    NoDup cs → objects z0 = objects z →
    NoDup (entries z0) → bound z0 →
    entryName (object z d) = name → d ∈ entries z0 →
    (∀ c, c ∈ cs → c ∈ entries z0) →
    (∀ c, c ∈ cs → c ≠ d → isDirectory (object z c) = false) →
    ∃ z1,
      foldl (λ acc child,
               z' ← acc;
               if decide (entryName (object z' child) ≠ name)
               then deleteEntry_rec (S fuel) (entryName (object z' child)) z'
               else Some z')
        (Some z0) cs = Some z1
      ∧ objects z1 = objects z
      ∧ entries z1 = filter (λ x, x ∉ cs ∨ x = d) (entries z0)
      ∧ entryTable z1
        = foldl (λ m k, delete k m) (entryTable z0)
            (map (λ c, entryName (object z c)) (filter (λ x, x ≠ d) cs)).
Proof.
  induction cs as [|c cs IH];
    intros z0 Hcs Ho Hnd Hb Hname Hd Hin Hfiles.
  - exists z0. split; [done |]. split; [done |]. split; [| done].
    symmetry. apply filter_all. intros x _. left. apply not_elem_of_nil.
  - apply list.NoDup_cons in Hcs as [Hc Hcs].
    assert (Hobj : ∀ x, object z0 x = object z x)
      by (intros x; unfold object; by rewrite Ho).
    cbn [foldl]. cbn [mbind option_bind]. rewrite Hobj.
    assert (Hc0 : c ∈ entries z0) by (apply Hin; by left).
    destruct (decide (entryName (object z c) ≠ name)) as [Hne|Heq].
    + assert (Hcd : c ≠ d) by (intros ->; done).
      assert (Hfile : isDirectory (object z0 c) = false)
        by (rewrite Hobj; apply Hfiles; [by left | done]).
      assert (Ec : entryTable z0 !! entryName (object z c) = Some c)
        by (rewrite <- Hobj; by apply Hb).
      rewrite (deleteEntry_rec_file fuel _ c z0 Ec Hfile).
      set (z1 := remove_entry (entryName (object z c)) (Some c) z0).
      assert (E1 : entries z1 = filter (λ x, x ≠ c) (entries z0)).
      { unfold z1. rewrite entries_remove_entry. simpl.
        by apply splice1_NoDup. }
      destruct (IH z1) as (z2 & Ef & Ho2 & Ee2 & Et2).
      * done.
      * exact Ho.
      * rewrite E1. by apply NoDup_filter.
      * intros r Hr. rewrite E1 in Hr.
        apply list_elem_of_filter in Hr as [Hrc Hr].
        change (object z1 r) with (object z0 r).
        change (entryTable z1)
          with (delete (entryName (object z c)) (entryTable z0)).
        rewrite lookup_delete_ne; [by apply Hb |].
        intros E. rewrite E in Ec. rewrite (Hb r Hr) in Ec. congruence.
      * done.
      * rewrite E1. apply list_elem_of_filter. split; [congruence | done].
      * intros c' Hc'. rewrite E1. apply list_elem_of_filter.
        split; [intros ->; done | apply Hin; by right].
      * intros c' Hc' Hne'. apply Hfiles; [by right | done].
      * exists z2. split; [exact Ef |]. split; [exact Ho2 |]. split.
        -- rewrite Ee2, E1, list_filter_filter. apply list_filter_iff.
           intros x. rewrite not_elem_of_cons. split.
           ++ intros [[Hx|Hx] Hxc]; [left; done | right; done].
           ++ intros [[Hxc Hx]|Hx]; [split; [left |]; done |].
              split; [by right | congruence].
        -- rewrite Et2. rewrite filter_cons, decide_True by done. reflexivity.
    + assert (Ecd : c = d).
      { apply dec_stable in Heq.
        assert (E1 : entryTable z0 !! name = Some c)
          by (rewrite <- Heq, <- Hobj; by apply Hb).
        assert (E2 : entryTable z0 !! name = Some d)
          by (rewrite <- Hname, <- Hobj; by apply Hb).
        congruence. }
      subst c.
      destruct (IH z0) as (z2 & Ef & Ho2 & Ee2 & Et2); try done.
      * intros c' Hc'. apply Hin. by right.
      * intros c' Hc' Hne'. apply Hfiles; [by right | done].
      * exists z2. split; [exact Ef |]. split; [exact Ho2 |]. split.
        -- rewrite Ee2. apply list_filter_iff. intros x.
           rewrite not_elem_of_cons. split.
           ++ intros [Hx|Hx]; [| by right].
              destruct (decide (x = d)); [by right | left; done].
           ++ intros [[_ Hx]|Hx]; [by left | by right].
        -- rewrite Et2. by rewrite filter_cons, decide_False by (intros E; done).
Qed.

(** X6.  In a container whose list and table agree (no element twice,
    every element what the table gives for its name, every key the name of
    an element), [deleteEntry] of a directory all of whose children are
    files returns having removed from the list exactly the elements whose
    name starts with the name of the directory, and from the table exactly
    the keys that start with it; the other elements keep their order and no
    entry object changes. *)
Theorem X6_deleteEntry_flat_directory (z : ZipFile) (name : jsstring)
    (d : eref)
    (Hnd : NoDup (entries z)) (Hb : bound z)
    (Hnames : table_names z) (Hlisted : listed z)
    (Hd : entryTable z !! name = Some d)
    (Hdir : isDirectory (object z d) = true)
    (Hflat : ∀ c, c ∈ entries z → c ≠ d →
               starts_with name (entryName (object z c)) →
               isDirectory (object z c) = false) :
  ∃ z', deleteEntry name z = Some z'
        ∧ entries z'
          = filter (λ c, ¬ starts_with name (entryName (object z c)))
              (entries z)
        ∧ (∀ k, entryTable z' !! k
                = if decide (starts_with name k) then None
                  else entryTable z !! k)
        ∧ objects z' = objects z
        ∧ MainHeader.totalEntries (mainHeader z')
          = Z.of_nat (length (entries z')).
Proof.
  assert (Hname : entryName (object z d) = name) by (by apply Hnames).
  assert (Hin : d ∈ entries z) by (by eapply Hlisted).
  assert (Hlen : ∃ f, length (entries z) = S f).
  { destruct (entries z) as [|x l]; [by apply elem_of_nil in Hin |].
    by exists (length l). }
  destruct Hlen as [f Hf].
  set (cs := getEntryChildren d z).
  assert (Hcs : ∀ c, c ∈ cs ↔ c ∈ entries z
                     ∧ starts_with name (entryName (object z c))).
  { intros c. unfold cs. rewrite elem_of_getEntryChildren_iff, Hname.
    tauto. }
  destruct (deleteEntry_children f name d z cs z) as (z1 & Ef & Ho & Ee & Et).
  { unfold cs, getEntryChildren. rewrite Hdir. by apply NoDup_filter. }
  { done. } { done. } { done. } { done. } { done. }
  { intros c Hc. by apply Hcs in Hc as [? _]. }
  { intros c Hc Hne. apply Hcs in Hc as [Hc Hp]. by apply Hflat. }
  exists (remove_entry name (Some d) z1).
  split.
  { unfold deleteEntry. rewrite Hf.
    rewrite (deleteEntry_rec_directory (S f) name d z Hd Hdir).
    fold cs. rewrite Ef. reflexivity. }
  assert (Hobj1 : ∀ x, object z1 x = object z x)
    by (intros x; unfold object; by rewrite Ho).
  assert (Ee' : entries (remove_entry name (Some d) z1)
                = filter (λ c, ¬ starts_with name (entryName (object z c)))
                    (entries z)).
  { rewrite entries_remove_entry. simpl.
    rewrite splice1_NoDup.
    - rewrite Ee, list_filter_filter.
      assert (Hiff : ∀ l : list eref,
        (∀ x, x ∈ l → x ∈ entries z) →
        filter (λ a, a ≠ d ∧ (a ∉ cs ∨ a = d)) l
        = filter (λ c, ¬ starts_with name (entryName (object z c))) l).
      { induction l as [|x l IHl]; intros Hl; [done |].
        assert (Hx : x ∈ entries z) by (apply Hl; by left).
        rewrite !filter_cons. rewrite IHl by (intros y Hy; apply Hl; by right).
        apply decide_ext. rewrite Hcs. split.
        - intros [Hxd [Hx'|Hx']]; [| done]. intros Hp. apply Hx'. done.
        - intros Hp. split.
          + intros ->. apply Hp. rewrite Hname. apply starts_with_refl.
          + left. intros [_ Hp']. done. }
      by apply Hiff.
    - rewrite Ee. by apply NoDup_filter.
    - rewrite Ee. apply list_elem_of_filter. split; [by right | done]. }
  split; [exact Ee' |]. split; [| split; [exact Ho | apply totalEntries_remove_entry]].
  intros k.
  change (entryTable (remove_entry name (Some d) z1))
    with (delete name (entryTable z1)).
  rewrite Et.
  destruct (decide (starts_with name k)) as [Hp|Hp].
  - destruct (decide (k = name)) as [->|Hkn]; [apply lookup_delete_eq |].
    rewrite lookup_delete_ne by done. rewrite lookup_foldl_delete.
    destruct (decide (k ∈ _)) as [|Hnk]; [done |].
    destruct (entryTable z !! k) as [c|] eqn:Ek; [| done].
    exfalso. apply Hnk.
    assert (Hck : entryName (object z c) = k) by (by apply Hnames).
    apply list_elem_of_fmap. exists c. split; [done |].
    apply list_elem_of_filter. split.
    + intros ->. congruence.
    + apply Hcs. split; [by eapply Hlisted | by rewrite Hck].
  - assert (Hkn : name ≠ k)
      by (intros <-; apply Hp; apply starts_with_refl).
    rewrite lookup_delete_ne by done. rewrite lookup_foldl_delete.
    rewrite decide_False; [done |].
    intros Hk. apply list_elem_of_fmap in Hk as (c & -> & Hc).
    apply list_elem_of_filter in Hc as [_ Hc]. apply Hcs in Hc as [_ Hc].
    done.
Qed.

End TableMore.

(** ** The serializers *)

Section SerializeMore.
Context `{Collaborators}.
Import Buffer Constants.

(** What [compressToBuffer] leaves and returns, by the entries written. *)
Lemma compressToBuffer_layout (z : ZipFile) :
  0 <= MainHeader.commentLength (mainHeader z) →
  ∃ es : list (ZipEntry * bytes),
    length es = length (entries (compressToBuffer z).1)
    ∧ (NoDup (entries z) →
       Forall2 (λ r w, object (compressToBuffer z).1 r = w.1)
         (entries (compressToBuffer z).1) es)
    ∧ (compressToBuffer z).2
      = data_section es ++ central_directory es
        ++ end_record (compressToBuffer z).1
    ∧ (∀ i w, es !! i = Some w →
         EntryHeader.offset (header w.1) = len (data_section (take i es)))
    ∧ mainHeader (compressToBuffer z).1
      = MainHeader.set_offset
          (MainHeader.set_size (mainHeader z) (len (central_directory es)))
          (len (data_section es))
    ∧ _comment (compressToBuffer z).1 = _comment z.
Proof.
  intros Hcl. unfold compressToBuffer.
  set (zs := reset_mainHeader (sort_entryList compare_asc z)).
  destruct (sort_entryList_frame compare_asc z) as (SL & SO & SM & SC & _).
  assert (Ezs : entries zs = entries (sort_entryList compare_asc z)) by done.
  assert (Hperm : entries zs ≡ₚ entries z).
  { rewrite Ezs, entries_sort_entryList.
    destruct (1 <? _); [apply Array_sort_Permutation | done]. }
  destruct (forEach_loop (entries zs) zs locals0)
    as (es & Hlen & Hw & _ & Hdup).
  set (R := foldl forEach_entry (zs, locals0) (entries zs)) in *.
  destruct Hw as (HD & HE & HI & HT & HS & HM & HO).
  simpl in HD, HE, HI, HT.
  assert (HcD : concat (dataBlock R.2) = data_section es)
    by (rewrite HD; apply concat_pushed).
  assert (HcE : concat (entryHeaders R.2) = central_directory es)
    by (by rewrite HE).
  assert (Hcl' : MainHeader.commentLength (mainHeader R.1)
                 = MainHeader.commentLength (mainHeader z))
    by (rewrite HM; unfold zs; simpl; by rewrite SM).
  rewrite (surjective_pairing R).
  rewrite finalize_layout by (rewrite ?HcD, ?HcE, ?Hcl'; lia).
  rewrite HcD, HcE. cbn [fst snd].
  set (z' := with_mainHeader R.1 _).
  assert (Ez' : entries z' = entries zs)
    by (unfold z'; apply (same_variables_entries zs R.1 HS)).
  exists es. rewrite Ez'.
  split; [exact Hlen |].
  split.
  { intros Hnd. eapply Forall2_impl_elem; [apply Hdup; by rewrite Hperm |].
    intros r w _ [E _]. exact E. }
  split; [done |].
  split; [intros i w E; rewrite (HO i w E); simpl; lia |].
  split.
  { unfold z'. cbn [mainHeader with_mainHeader]. rewrite HM, HI.
    unfold zs, reset_mainHeader. cbn [mainHeader with_mainHeader].
    rewrite SM. unfold MainHeader.set_offset, MainHeader.set_size. simpl.
    f_equal; lia. }
  unfold z'. simpl. destruct HS as (_ & _ & _ & -> & _).
  unfold zs. simpl. exact SC.
Qed.

(** X9.  [compressToBuffer] leaves the table, the comment, the input
    buffer, the arrays other than the entry list, the entry objects that
    are not in the entry list and, of [mainHeader], everything but [size]
    and [offset] as they were. *)
Theorem X9_compressToBuffer_frame (z : ZipFile) :
  let z' := (compressToBuffer z).1 in
  entryTable z' = entryTable z
  ∧ _comment z' = _comment z
  ∧ inBuffer z' = inBuffer z
  ∧ entryList z' = entryList z
  ∧ (∀ a, a ≠ entryList z → array z' a = array z a)
  ∧ (∀ r, r ∉ entries z → object z' r = object z r)
  ∧ MainHeader.diskEntries (mainHeader z')
    = MainHeader.diskEntries (mainHeader z)
  ∧ MainHeader.totalEntries (mainHeader z')
    = MainHeader.totalEntries (mainHeader z)
  ∧ MainHeader.commentLength (mainHeader z')
    = MainHeader.commentLength (mainHeader z).
Proof.
  intros z'. subst z'. unfold compressToBuffer.
  set (zs := reset_mainHeader (sort_entryList compare_asc z)).
  destruct (sort_entryList_frame compare_asc z)
    as (SL & SO & SM & SC & ST & SB).
  assert (Ezs : entries zs = entries (sort_entryList compare_asc z)) by done.
  assert (Hperm : entries zs ≡ₚ entries z).
  { rewrite Ezs, entries_sort_entryList.
    destruct (1 <? _); [apply Array_sort_Permutation | done]. }
  assert (Harr : ∀ a, a ≠ entryList z → array zs a = array z a).
  { intros a Ha. unfold zs, reset_mainHeader, sort_entryList.
    destruct (1 <? _); [| done].
    change (array (set_array z (entryList z)
                     (Array_sort (compare_asc z) (entries z))) a = array z a).
    by apply array_set_array_ne. }
  destruct (forEach_loop (entries zs) zs locals0)
    as (es & _ & (_ & _ & _ & _ & HS & HM & _) & Hother & _).
  set (R := foldl forEach_entry (zs, locals0) (entries zs)) in *.
  destruct (finalize_frame R.1 R.2) as [HF HFo].
  rewrite <- surjective_pairing in HF, HFo.
  assert (HFm : mainHeader (finalize R).1
                = MainHeader.set_offset (mainHeader R.1) (dindex R.2)).
  { rewrite (surjective_pairing R). unfold finalize.
    destruct (foldl write_block _ (dataBlock R.2)) as [o1 d1].
    destruct (foldl write_block _ (entryHeaders R.2)) as [o2 d2].
    reflexivity. }
  destruct (same_variables_trans _ _ _ HS HF) as (TA & TL & TT & TC & TB).
  split; [rewrite TT; exact ST |]. split; [rewrite TC; exact SC |].
  split; [rewrite TB; exact SB |]. split; [rewrite TL; exact SL |].
  split; [intros a Ha; unfold array; rewrite TA; by apply Harr |].
  split.
  { intros r Hr. unfold object. rewrite HFo.
    change (object R.1 r = object z r). rewrite Hother.
    - unfold object, zs. simpl. by rewrite SO.
    - by rewrite Hperm. }
  rewrite HFm, HM. unfold zs. simpl. by rewrite SM.
Qed.

(** X10.  After [set comment(val)] with a [val] of at most 0xFFFF bytes
    the comment read back is the text of [val], the entry list and the
    table are as before, and the buffer [compressToBuffer] returns ends
    with the bytes of [val], which follow the 22 bytes of the end record at
    [offset + size]; [commentLength] is the length of [val]. *)
Theorem X10_set_comment_is_written (z : ZipFile) (val : bytes)
    (Hval : len val <= 0xFFFF) :
  let zc := set_comment val z in
  let z' := (compressToBuffer zc).1 in
  get_comment zc = toString val
  ∧ entries zc = entries z
  ∧ entryTable zc = entryTable z
  ∧ MainHeader.commentLength (mainHeader z') = len val
  ∧ ∃ body,
      (compressToBuffer zc).2
      = body ++ take 22 (MainHeader.toBinary (mainHeader z')) ++ val
      ∧ len body
        = MainHeader.offset (mainHeader z') + MainHeader.size (mainHeader z').
Proof.
  intros zc z'.
  split; [reflexivity |]. split; [reflexivity |]. split; [reflexivity |].
  assert (Hcl : 0 <= MainHeader.commentLength (mainHeader zc))
    by (unfold zc; simpl; apply len_nonneg).
  destruct (compressToBuffer_layout zc Hcl)
    as (es & _ & _ & Hout & _ & Hmh & Hcm).
  fold z' in Hout, Hmh, Hcm.
  assert (Hlen : MainHeader.commentLength (mainHeader z') = len val)
    by (rewrite Hmh; reflexivity).
  split; [exact Hlen |].
  exists (data_section es ++ central_directory es).
  split.
  - rewrite Hout, <- app_assoc. do 2 f_equal.
    rewrite end_record_comment by (rewrite Hcm, Hlen; reflexivity).
    by rewrite Hcm.
  - rewrite len_app, Hmh. reflexivity.
Qed.

(** X14.  In the buffer [compressToBuffer] returns, at the [header.offset]
    it has set in an entry stands the local header of that entry, followed
    by its post-header block and its payload. *)
Theorem X14_offsets_point_to_local_headers (z : ZipFile)
    (Hcl : 0 <= MainHeader.commentLength (mainHeader z))
    (Hnd : NoDup (entries z)) :
  let z' := (compressToBuffer z).1 in
  let out := (compressToBuffer z).2 in
  ∀ r, r ∈ entries z' →
    let off := EntryHeader.offset (header (object z' r)) in
    slice out off (off + LOCHDR)
    = EntryHeader.dataHeaderToBinary (header (object z' r))
    ∧ slice out (off + LOCHDR)
        (off + LOCHDR + len (postHeader_sync (object z' r)))
      = postHeader_sync (object z' r)
    ∧ off + LOCHDR + len (postHeader_sync (object z' r))
      <= MainHeader.offset (mainHeader z').
Proof.
  intros z' out r Hr off.
  destruct (compressToBuffer_layout z Hcl)
    as (es & Hlen & HF & Hout & HO & Hmh & _).
  fold z' in Hlen, HF, Hout, Hmh. fold out in Hout.
  specialize (HF Hnd).
  apply list_elem_of_lookup in Hr as [i Ei].
  destruct (Forall2_lookup_l _ _ _ _ _ HF Ei) as (w & Ew & Eo).
  assert (Hoff : off = len (data_section (take i es)))
    by (unfold off; rewrite Eo; by apply HO).
  assert (Hsplit : data_section es
                   = data_section (take i es) ++ local_block w
                     ++ data_section (drop (S i) es)).
  { unfold data_section.
    rewrite <- (take_drop_middle es i w Ew) at 1.
    by rewrite map_app, concat_app. }
  set (rest := data_section (drop (S i) es) ++ central_directory es
               ++ end_record z').
  assert (Hout' : out = data_section (take i es)
                        ++ EntryHeader.dataHeaderToBinary (header w.1)
                        ++ postHeader_sync w.1 ++ w.2 ++ rest).
  { rewrite Hout, Hsplit. unfold local_block, rest.
    by rewrite <- !app_assoc. }
  assert (L30 : len (EntryHeader.dataHeaderToBinary (header w.1)) = LOCHDR)
    by (unfold len; by rewrite length_dataHeaderToBinary).
  rewrite Eo. split; [| split].
  - rewrite Hout'. apply slice_at; [done | by rewrite L30, Hoff].
  - rewrite Hout', app_assoc. apply slice_at; rewrite len_app, L30; lia.
  - rewrite Hmh. cbn [MainHeader.offset MainHeader.set_offset].
    rewrite Hsplit. unfold local_block. rewrite !len_app, L30.
    pose proof (len_nonneg w.2).
    pose proof (len_nonneg (data_section (drop (S i) es))). lia.
Qed.

End SerializeMore.

(** ** The archive comment *)

Section CommentMore.
Context `{Collaborators}.
Import Buffer Constants.

Lemma end_record_cut (z : ZipFile) :
  0 <= MainHeader.commentLength (mainHeader z) →
  ∃ pad,
    end_record z
    = take 22 (MainHeader.toBinary (mainHeader z))
      ++ take (Z.to_nat (MainHeader.commentLength (mainHeader z)))
           (_comment z)
      ++ pad
    ∧ length pad
      = (Z.to_nat (MainHeader.commentLength (mainHeader z))
         - length (_comment z))%nat.
Proof.
  intros Hcl. unfold end_record. rewrite toBinary_split.
  set (fixed := take 22 (MainHeader.toBinary (mainHeader z))).
  set (n := Z.to_nat (MainHeader.commentLength (mainHeader z))).
  set (c := _comment z).
  assert (Hf : length fixed = 22%nat).
  { unfold fixed. rewrite length_take, length_toBinary. lia. }
  unfold copy, alloc. fold n.
  change (Z.to_nat ENDHDR) with 22%nat.
  rewrite length_app, length_replicate, Hf.
  replace (22 + n - 22)%nat with n by lia.
  rewrite take_app_length' by done.
  exists (drop (22 + Nat.min (length c) n) (fixed ++ replicate n x00)).
  split.
  - f_equal. f_equal.
    destruct (decide (length c ≤ n)%nat) as [Hle|Hgt].
    + rewrite Nat.min_l by lia. rewrite firstn_all.
      by rewrite (take_ge c n) by lia.
    + by rewrite Nat.min_r by lia.
  - rewrite length_drop, length_app, length_replicate, Hf. lia.
Qed.

(** X13.  The comment [compressToBuffer] writes behind the 22 bytes of the
    end record is the comment of the container cut down to
    [mainHeader.commentLength] bytes, followed, when the comment is
    shorter, by as many bytes as are missing: the returned buffer never
    holds more or fewer comment bytes than [commentLength] says. *)
Theorem X13_comment_cut_to_commentLength (z : ZipFile)
    (Hcl : 0 <= MainHeader.commentLength (mainHeader z)) :
  let z' := (compressToBuffer z).1 in
  let n := Z.to_nat (MainHeader.commentLength (mainHeader z)) in
  ∃ body pad,
    (compressToBuffer z).2
    = body ++ take 22 (MainHeader.toBinary (mainHeader z'))
      ++ take n (_comment z) ++ pad
    ∧ length pad = (n - length (_comment z))%nat
    ∧ len body
      = MainHeader.offset (mainHeader z') + MainHeader.size (mainHeader z').
Proof.
  intros z' n.
  destruct (compressToBuffer_layout z Hcl)
    as (es & _ & _ & Hout & _ & Hmh & Hcm).
  fold z' in Hout, Hmh, Hcm.
  assert (Hlen : MainHeader.commentLength (mainHeader z')
                 = MainHeader.commentLength (mainHeader z))
    by (rewrite Hmh; reflexivity).
  destruct (end_record_cut z') as (pad & Hend & Hpad); [by rewrite Hlen |].
  rewrite Hcm, Hlen in Hend, Hpad.
  exists (data_section es ++ central_directory es), pad.
  split; [| split].
  - rewrite Hout, <- app_assoc. do 2 f_equal. exact Hend.
  - exact Hpad.
  - rewrite len_app, Hmh. reflexivity.
Qed.

(** X16.  The comment read from the container [open] returns is the empty
    text when the end record says [commentLength] 0, whatever follows the
    end record; otherwise it is the text of all that follows the 22 bytes
    of the end record in the buffer, whatever [commentLength] says. *)
Theorem X16_open_comment (b : bytes) (z : ZipFile) (Hopen : open b = Ok z) :
  get_comment z
  = toString (if MainHeader.commentLength (mainHeader z) =? 0 then []
              else slice_from b (findEndOffset b + ENDHDR)).
Proof.
  unfold get_comment. f_equal.
  revert Hopen. unfold open, readMainHeader. cbn [inBuffer initial].
  destruct (bitnot (findEndOffset b) =? 0); [done |].
  unfold load_end_record. cbn [inBuffer initial].
  destruct (MainHeader.loadFromBinary _) as [mh|]; [| done].
  set (z0 := if MainHeader.commentLength mh =? 0 then _ else _).
  assert (Hz0 : mainHeader z0 = mh
                ∧ _comment z0
                  = (if MainHeader.commentLength mh =? 0 then []
                     else slice_from b (findEndOffset b + ENDHDR)))
    by (unfold z0; destruct (_ =? 0); done).
  destruct Hz0 as [M0 C0]. clearbody z0.
  unfold readEntries. intros E.
  apply readEntries_loop_inv in E as (_ & _ & E3 & E4 & _).
  rewrite E3, E4. cbn [mainHeader _comment with_entryList with_nextRef
                         set_array with_arrays with_entryTable].
  by rewrite M0, C0.
Qed.

End CommentMore.

(** ** The order of the entry list *)

Section OrderMore.
Context `{Collaborators}.

Lemma name_le_compare_asc (z : ZipFile) (a b : eref) :
  name_le z a b → compare_asc z a b <= 0.
Proof.
  unfold name_le, compare_asc. intros ->.
  destruct (str_ltb _ _); lia.
Qed.

Lemma Array_sort_sorted (z : ZipFile) (l : list eref) :
  Sorted (name_le z) l → Array_sort (compare_asc z) l = l.
Proof.
  induction 1 as [|x l Hs IH Hhd]; [done |].
  unfold Array_sort in *. cbn [foldr]. rewrite IH.
  destruct Hhd as [|y l' Hxy]; [done |].
  cbn [Array_insert].
  destruct (Z.leb_spec (compare_asc z x y) 0) as [|Hgt]; [done |].
  apply name_le_compare_asc in Hxy. lia.
Qed.

(** X15.  On an entry list that is already in ascending order of the
    lower-cased names [compressToBuffer] leaves the order of the list as
    it is. *)
Theorem X15_compressToBuffer_keeps_sorted_order (z : ZipFile)
    (Hsorted : Sorted (name_le z) (entries z)) :
  entries (compressToBuffer z).1 = entries z.
Proof.
  unfold compressToBuffer.
  set (zs := reset_mainHeader (sort_entryList compare_asc z)).
  destruct (forEach_loop (entries zs) zs locals0)
    as (es & _ & (_ & _ & _ & _ & HS & _) & _).
  destruct (finalize_frame (foldl forEach_entry (zs, locals0) (entries zs)).1
              (foldl forEach_entry (zs, locals0) (entries zs)).2) as [HF _].
  rewrite <- surjective_pairing in HF.
  rewrite (same_variables_entries _ _ (same_variables_trans _ _ _ HS HF)).
  change (entries zs) with (entries (sort_entryList compare_asc z)).
  rewrite entries_sort_entryList.
  destruct (1 <? _); [by apply Array_sort_sorted | done].
Qed.

End OrderMore.

(** ** What [deleteEntry] does whatever the name *)

Section DeleteMore.
Context `{Collaborators}.

Lemma index_from_range (l : list eref) (r : eref) :
  ∀ i, index_from l r i = -1
       ∨ i <= index_from l r i < i + Z.of_nat (length l).
Proof.
  induction l as [|x l IH]; intros i; [by left |].
  simpl. destruct (x =? r)%nat; [right; lia |].
  destruct (IH (i + 1)) as [->|Hr]; [by left | right; lia].
Qed.

Lemma length_splice1_indexOf (l : list eref) (x : option eref) :
  l ≠ [] → S (length (splice1 l (indexOf l x))) = length l.
Proof.
  intros Hne.
  assert (Hl : (0 < length l)%nat) by (destruct l; [done | simpl; lia]).
  assert (Hi : indexOf l x = -1
               ∨ 0 <= indexOf l x < Z.of_nat (length l)).
  { destruct x as [r|]; [| by left]. simpl.
    destruct (index_from_range l r 0) as [->|Hr]; [by left | right; lia]. }
  unfold splice1. set (s := Z.to_nat _).
  assert (Hs : (s < length l)%nat).
  { unfold s. destruct Hi as [->|Hi].
    - destruct (Z.ltb_spec (-1) 0); lia.
    - destruct (Z.ltb_spec (indexOf l x) 0); lia. }
  rewrite length_app, length_take, length_drop. lia.
Qed.

Lemma deleteEntry_rec_last (fuel : nat) (name : jsstring) (z : ZipFile) :
  table_names z → (below z name ≤ fuel)%nat →
  ∃ z1, deleteEntry_rec (S fuel) name z
        = Some (remove_entry name (entryTable z !! name) z1)
        ∧ shrinks z z1.
Proof.
  intros Hn Hb. simpl.
  set (step := λ (acc : option ZipFile) (child : eref),
                 z' ← acc;
                 if decide (entryName (object z' child) ≠ name)
                 then deleteEntry_rec fuel (entryName (object z' child)) z'
                 else Some z').
  assert (Hfold : ∃ z1,
    match entryTable z !! name with
    | Some r =>
        if isDirectory (object z r)
        then foldl step (Some z) (getEntryChildren r z)
        else Some z
    | None => Some z
    end = Some z1 ∧ shrinks z z1).
  { destruct (entryTable z !! name) as [r|] eqn:Er;
      [| eauto using shrinks_refl].
    destruct (isDirectory (object z r)); [| eauto using shrinks_refl].
    pose proof (elem_of_getEntryChildren z r) as Hc.
    rewrite (Hn _ _ Er) in Hc.
    assert (Hgen : ∀ cs z0,
      (∀ c, c ∈ cs → c ∈ getEntryChildren r z) → shrinks z z0 →
      ∃ z1, foldl step (Some z0) cs = Some z1 ∧ shrinks z z1).
    { induction cs as [|c cs IHcs]; intros z0 Hcs Hs0; [simpl; eauto |].
      simpl. fold step.
      destruct (Hc c) as [Hcin Hcpre]; [apply Hcs; left |].
      rewrite (shrinks_object _ _ c Hs0).
      destruct (decide (entryName (object z c) ≠ name)) as [Hne|_].
      - destruct (deleteEntry_rec_spec fuel (entryName (object z c)) z0)
          as (z0' & E & Hs' & _).
        + by eapply shrinks_table_names.
        + eapply Nat.le_lt_trans; [by apply below_shrinks |].
          eapply Nat.lt_le_trans; [| exact Hb].
          unfold below.
          apply (filter_length_strict _ _ _ c);
            [| exact Hcin | by split | apply extends_irrefl].
          intros x Hx. eapply extends_trans; [| exact Hx]. by split.
        + rewrite E. apply IHcs.
          * intros c' Hc'. apply Hcs. by right.
          * by eapply shrinks_trans.
      - apply IHcs; [| done]. intros c' Hc'. apply Hcs. by right. }
    apply Hgen; [done | apply shrinks_refl]. }
  destruct Hfold as (z1 & -> & Hs). simpl. eauto.
Qed.

(** X17.  In a container whose table keys are the names of their entries
    [deleteEntry] returns, whatever the name, and only removes: the entry
    list afterwards is a sublist of the one before, the table a part of the
    one before, without an entry under the name when the name is not
    ["__proto__"], and no entry object has changed; and an entry list that
    was not empty has become shorter, also when the name was not in the
    table. *)
Theorem X17_deleteEntry_only_removes (z : ZipFile) (name : jsstring)
    (Hnames : table_names z) :
  ∃ z', deleteEntry name z = Some z'
        ∧ objects z' = objects z
        ∧ entries z' `sublist_of` entries z
        ∧ entryTable z' ⊆ entryTable z
        ∧ (name ≠ proto_key → entryTable z' !! name = None)
        ∧ (entries z ≠ [] → (length (entries z') < length (entries z))%nat).
Proof.
  destruct (deleteEntry_rec_last (length (entries z)) name z Hnames
              (below_le_length z name)) as (z1 & E & Hs1).
  exists (remove_entry name (entryTable z !! name) z1).
  split; [exact E |].
  pose proof (shrinks_trans _ _ _ Hs1
                (remove_entry_shrinks name (entryTable z !! name) z1))
    as (Ho & _ & Hsub & Ht).
  split; [exact Ho |]. split; [exact Hsub |]. split; [exact Ht |].
  split; [intros _; apply lookup_delete_eq |].
  intros Hne. rewrite entries_remove_entry.
  destruct Hs1 as (_ & _ & Hsub1 & _).
  apply sublist_length in Hsub1.
  destruct (decide (entries z1 = [])) as [E1|E1].
  - rewrite E1, splice1_nil. destruct (entries z); [done | simpl; lia].
  - pose proof (length_splice1_indexOf (entries z1) (entryTable z !! name) E1).
    lia.
Qed.

End DeleteMore.

(** ** The properties on concrete containers *)

Lemma X3_witness :
  inBuffer Ascii.sample = Ascii.sample_zip
  ∧ Z.of_nat (length (entries Ascii.sample))
    = MainHeader.diskEntries (mainHeader Ascii.sample)
  ∧ NoDup (entries Ascii.sample)
  ∧ (∀ r, r ∈ entries Ascii.sample →
       input (object Ascii.sample r) = Ascii.sample_zip)
  ∧ table_names Ascii.sample ∧ listed Ascii.sample ∧ last_wins Ascii.sample
  ∧ (NoDup (map (λ r, entryName (object Ascii.sample r))
              (entries Ascii.sample)) → bound Ascii.sample).
Proof.
  apply (X3_open_builds_list_and_table Ascii.sample_zip Ascii.sample).
  vm_compute. reflexivity.
Defined.

Lemma X4_witness :
  ∃ z', deleteEntry (Ascii.js "b") Ascii.two = Some z'
        ∧ (∀ l1 l2, entries Ascii.two = l1 ++ 2%nat :: l2 → 2%nat ∉ l1 →
             entries z' = l1 ++ l2)
        ∧ (2%nat ∉ entries Ascii.two →
           ∀ l x, entries Ascii.two = l ++ [x] → entries z' = l)
        ∧ entryTable z' = delete (Ascii.js "b") (entryTable Ascii.two)
        ∧ objects z' = objects Ascii.two
        ∧ MainHeader.totalEntries (mainHeader z')
          = Z.of_nat (length (entries z')).
Proof.
  apply (X4_deleteEntry_file_removes_first_occurrence Ascii.two
           (Ascii.js "b") 2%nat); [| vm_compute; reflexivity ..].
  vm_compute. discriminate.
Defined.

Lemma X5_witness :
  ∃ z', deleteEntry (entryName (object Ascii.two_fresh 4%nat))
          (setEntry 4%nat Ascii.two_fresh) = Some z'
        ∧ entries z' = entries Ascii.two_fresh
        ∧ entryTable z'
          = delete (entryName (object Ascii.two_fresh 4%nat))
              (entryTable Ascii.two_fresh)
        ∧ MainHeader.totalEntries (mainHeader z')
          = Z.of_nat (length (entries Ascii.two_fresh)).
Proof.
  apply (X5_setEntry_then_deleteEntry Ascii.two_fresh 4%nat).
  - vm_compute. reflexivity.
  - apply (bool_decide_unpack _). vm_compute. exact I.
  - vm_compute. discriminate.
Defined.

Lemma X8_witness :
  (∀ r, table_names (setEntry r Ascii.two))
  ∧ (∀ name, ∃ z', deleteEntry name Ascii.two = Some z' ∧ table_names z').
Proof. exact (X8_table_names_kept Ascii.two table_names_two). Defined.

Lemma X6_witness :
  ∃ z', deleteEntry (Ascii.js "dir/") Ascii.flat = Some z'
        ∧ entries z'
          = filter (λ c, ¬ starts_with (Ascii.js "dir/")
                             (entryName (object Ascii.flat c)))
              (entries Ascii.flat)
        ∧ (∀ k, entryTable z' !! k
                = if decide (starts_with (Ascii.js "dir/") k) then None
                  else entryTable Ascii.flat !! k)
        ∧ objects z' = objects Ascii.flat
        ∧ MainHeader.totalEntries (mainHeader z')
          = Z.of_nat (length (entries z')).
Proof.
  assert (E : entries Ascii.flat = [2%nat; 3%nat; 4%nat; 5%nat])
    by (vm_compute; reflexivity).
  apply (X6_deleteEntry_flat_directory Ascii.flat (Ascii.js "dir/") 2%nat).
  - apply (bool_decide_unpack _). vm_compute. exact I.
  - intros r Hr. rewrite E in Hr.
    apply elem_of_cons in Hr as [->|Hr]; [vm_compute; reflexivity |].
    apply elem_of_cons in Hr as [->|Hr]; [vm_compute; reflexivity |].
    apply elem_of_cons in Hr as [->|Hr]; [vm_compute; reflexivity |].
    apply elem_of_cons in Hr as [->|Hr]; [vm_compute; reflexivity |].
    apply elem_of_nil in Hr. destruct Hr.
  - unfold table_names. apply (bool_decide_unpack _). vm_compute. exact I.
  - change (map_Forall (λ _ r, r ∈ entries Ascii.flat)
              (entryTable Ascii.flat)).
    apply (bool_decide_unpack _). vm_compute. exact I.
  - vm_compute. reflexivity.
  - vm_compute. reflexivity.
  - intros c Hc Hne _. rewrite E in Hc.
    apply elem_of_cons in Hc as [->|Hc]; [done |].
    apply elem_of_cons in Hc as [->|Hc]; [vm_compute; reflexivity |].
    apply elem_of_cons in Hc as [->|Hc]; [vm_compute; reflexivity |].
    apply elem_of_cons in Hc as [->|Hc]; [vm_compute; reflexivity |].
    apply elem_of_nil in Hc. destruct Hc.
Defined.

Lemma X13_witness :
  let z' := (compressToBuffer Ascii.noted).1 in
  let n := Z.to_nat (MainHeader.commentLength (mainHeader Ascii.noted)) in
  ∃ body pad,
    (compressToBuffer Ascii.noted).2
    = body ++ take 22 (MainHeader.toBinary (mainHeader z'))
      ++ take n (_comment Ascii.noted) ++ pad
    ∧ length pad = (n - length (_comment Ascii.noted))%nat
    ∧ Buffer.len body
      = MainHeader.offset (mainHeader z') + MainHeader.size (mainHeader z').
Proof.
  apply (X13_comment_cut_to_commentLength Ascii.noted).
  vm_compute. discriminate.
Defined.

Lemma X14_witness :
  NoDup (entries Ascii.sample)
  ∧ let z' := (compressToBuffer Ascii.sample).1 in
  let out := (compressToBuffer Ascii.sample).2 in
  ∀ r, r ∈ entries z' →
    let off := EntryHeader.offset (header (object z' r)) in
    Buffer.slice out off (off + Constants.LOCHDR)
    = EntryHeader.dataHeaderToBinary (header (object z' r))
    ∧ Buffer.slice out (off + Constants.LOCHDR)
        (off + Constants.LOCHDR + Buffer.len (postHeader_sync (object z' r)))
      = postHeader_sync (object z' r)
    ∧ off + Constants.LOCHDR + Buffer.len (postHeader_sync (object z' r))
      <= MainHeader.offset (mainHeader z').
Proof.
  assert (Hnd : NoDup (entries Ascii.sample))
    by (apply (bool_decide_unpack _); vm_compute; exact I).
  split; [exact Hnd |].
  apply (X14_offsets_point_to_local_headers Ascii.sample); [| exact Hnd].
  vm_compute. discriminate.
Defined.

Lemma X15_witness : entries (compressToBuffer Ascii.flat).1 = entries Ascii.flat.
Proof.
  apply (X15_compressToBuffer_keeps_sorted_order Ascii.flat).
  assert (E : entries Ascii.flat = [2%nat; 3%nat; 4%nat; 5%nat])
    by (vm_compute; reflexivity).
  rewrite E.
  repeat (first [apply Sorted_nil | apply Sorted_cons | apply HdRel_nil
                | apply HdRel_cons; vm_compute; reflexivity]).
Defined.

Lemma X16_witness :
  get_comment Ascii.noted
  = toString (if MainHeader.commentLength (mainHeader Ascii.noted) =? 0
              then []
              else Buffer.slice_from Ascii.noted_zip
                     (findEndOffset Ascii.noted_zip + Constants.ENDHDR)).
Proof.
  apply (X16_open_comment Ascii.noted_zip Ascii.noted).
  vm_compute. reflexivity.
Defined.

Lemma X17_witness :
  ∃ z', deleteEntry (Ascii.js "zz") Ascii.two = Some z'
        ∧ objects z' = objects Ascii.two
        ∧ entries z' `sublist_of` entries Ascii.two
        ∧ entryTable z' ⊆ entryTable Ascii.two
        ∧ (Ascii.js "zz" ≠ proto_key → entryTable z' !! Ascii.js "zz" = None)
        ∧ (entries Ascii.two ≠ [] →
           (length (entries z') < length (entries Ascii.two))%nat).
Proof.
  exact (X17_deleteEntry_only_removes Ascii.two (Ascii.js "zz")
           table_names_two).
Defined.

Lemma X10_witness :
  let zc := set_comment (Ascii.raw "hi") Ascii.sample in
  let z' := (compressToBuffer zc).1 in
  get_comment zc = toString (Ascii.raw "hi")
  ∧ entries zc = entries Ascii.sample
  ∧ entryTable zc = entryTable Ascii.sample
  ∧ MainHeader.commentLength (mainHeader z') = Buffer.len (Ascii.raw "hi")
  ∧ ∃ body,
      (compressToBuffer zc).2
      = body ++ take 22 (MainHeader.toBinary (mainHeader z'))
        ++ Ascii.raw "hi"
      ∧ Buffer.len body
        = MainHeader.offset (mainHeader z') + MainHeader.size (mainHeader z').
Proof.
  apply (X10_set_comment_is_written Ascii.sample (Ascii.raw "hi")).
  vm_compute. discriminate.
Defined.
